(** * Optix: a shallow embedding of the optimizer's control logic

    The development follows the two generations of the optimizer:
    [Legacy] embeds [src/optix.py], [Canonical] embeds
    [src/optix/optix.py].  Numbers are IEEE binary64 floats, as the Python
    program has them; the square and the division of the bracket formula,
    where Python's own floats raise and numpy's scalars do not, are
    arguments.  Console output, files, the worker pool and the calls of
    the user's functions are recorded as events of a trace. *)

From Stdlib Require Import List String ZArith Floats Bool Arith Lia.
Import ListNotations.

Set Implicit Arguments.
#[local] Set Warnings "-inexact-float".

(* ================================================================== *)
(** * The Python runtime: exceptions, observable events, computations *)
(* ================================================================== *)

Module Py.

Definition vec := list float.
Definition matrix := list (list float).

(** The exceptions the modelled code raises. *)
Inductive exn : Type :=
| ValueError (msg : string)
| IOError (msg : string)
| IndexError (msg : string)
| TypeError (msg : string)
| AttributeError (msg : string)
| UnboundLocalError (var : string)
| LinAlgError (msg : string)
| ZeroDivisionError (msg : string)
| OverflowError (msg : string).

(** What a run does that can be seen from outside it. *)
Inductive event : Type :=
| PoolOpened (processes : nat)
| PoolExited
| QueueCreated
| QueuePut (msg : string)
| WriterStarted (file : string)
| ObjectiveCall (x : vec)
| GradientCall (x : vec)
| ConstraintCall (i : nat) (x : vec)
| ConstraintGradCall (i : nat) (x : vec)
| Console (text : string)
| FileCreated (name : string)
| FileAppended (name : string).

Definition trace := list event.

(** A computation ends with a value, with an exception, or it is still
    running when the loop budget of the model is used up. *)
Inductive outcome (A : Type) : Type :=
| Ok (a : A)
| Raise (e : exn)
| OutOfFuel.

Arguments Ok {A} a.
Arguments Raise {A} e.
Arguments OutOfFuel {A}.

Definition M (A : Type) : Type := trace -> outcome A * trace.

Definition ret {A} (a : A) : M A := fun w => (Ok a, w).

Definition bind {A B} (m : M A) (k : A -> M B) : M B :=
  fun w =>
    match m w with
    | (Ok a, w') => k a w'
    | (Raise e, w') => (Raise e, w')
    | (OutOfFuel, w') => (OutOfFuel, w')
    end.

Definition raise {A} (e : exn) : M A := fun w => (Raise e, w).

Definition out_of_fuel {A} : M A := fun w => (OutOfFuel, w).

Definition emit (e : event) : M unit := fun w => (Ok tt, w ++ [e]).

(** [print(...)]. *)
Definition print (text : string) : M unit := emit (Console text).

(** [if cond: body] for a body that only has effects. *)
Definition when (cond : bool) (body : M unit) : M unit :=
  if cond then body else ret tt.

(** [try: body finally: cleanup], the shape of a [with] block. *)
Definition finally {A} (body : M A) (cleanup : M unit) : M A :=
  fun w =>
    match body w with
    | (r, w') => (r, snd (cleanup w'))
    end.

(** [for x in xs: body x], all effects in order. *)
Fixpoint for_each {A} (xs : list A) (body : A -> M unit) : M unit :=
  match xs with
  | [] => ret tt
  | x :: rest => bind (body x) (fun _ => for_each rest body)
  end.

(** [[body x for x in xs]]. *)
Fixpoint map_m {A B} (body : A -> M B) (xs : list A) : M (list B) :=
  match xs with
  | [] => ret []
  | x :: rest =>
      bind (body x) (fun y => bind (map_m body rest) (fun ys => ret (y :: ys)))
  end.

(** A local variable that may not have been assigned yet. *)
Definition read_local {A} (name : string) (v : option A) : M A :=
  match v with
  | Some a => ret a
  | None => raise (UnboundLocalError name)
  end.

(** [l[i]] on a Python list: a negative index counts from the end. *)
Definition index {A} (l : list A) (i : Z) : M A :=
  let n := Z.of_nat (List.length l) in
  let j := if (i <? 0)%Z then (i + n)%Z else i in
  if ((j <? 0) || (n <=? j))%Z
  then raise (IndexError "list index out of range")
  else match nth_error l (Z.to_nat j) with
       | Some a => ret a
       | None => raise (IndexError "list index out of range")
       end.

End Py.

Declare Scope py_scope.
Delimit Scope py_scope with py.
Notation "x <- m ;; k" := (Py.bind m (fun x => k))
  (at level 61, m at next level, right associativity) : py_scope.
Notation "m ;;; k" := (Py.bind m (fun _ => k))
  (at level 61, right associativity) : py_scope.
Open Scope py_scope.

(* ================================================================== *)
(** * Numbers and arrays *)
(* ================================================================== *)

(** The Python built-ins and the numpy array operations the optimizer
    uses, on lists of binary64 floats.  [np.linalg.svd] and
    [np.linalg.solve] are not defined here: the functions that call them
    take them as arguments. *)
Module Np.
Import Py.
Open Scope float_scope.

Definition isnan (x : float) : bool := PrimFloat.is_nan x.

(** [(v < bound).any()] and its neighbours. *)
Definition any_lt (v : vec) (bound : float) : bool :=
  existsb (fun x => x <? bound) v.
Definition any_abs_lt (v : vec) (bound : float) : bool :=
  existsb (fun x => abs x <? bound) v.
Definition any_isnan (v : vec) : bool := existsb isnan v.

(** [np.where(np.isnan(v))[0]]: the positions of the values that are not
    a number. *)
Definition nan_positions (v : vec) : list nat :=
  map fst (filter (fun p => isnan (snd p)) (combine (seq 0 (List.length v)) v)).

(** The built-in [min] and [max] of a non-empty list, first element
    given apart: a later element replaces the current one only when it
    is strictly smaller (larger). *)
Definition min_from (x : float) (rest : list float) : float :=
  fold_left (fun m y => if y <? m then y else m) rest x.
Definition max_from (x : float) (rest : list float) : float :=
  fold_left (fun m y => if m <? y then y else m) rest x.

(** [min(l)] and [max(l)]; the lists they are applied to hold the
    starting value at least (on an empty list Python raises, here the
    value is nan). *)
Definition min_of (l : list float) : float :=
  match l with
  | [] => nan
  | x :: rest => min_from x rest
  end.
Definition max_of (l : list float) : float :=
  match l with
  | [] => nan
  | x :: rest => max_from x rest
  end.

(** [l.index(v)]: the first position whose element equals [v]. *)
Fixpoint index_of (v : float) (l : list float) : option nat :=
  match l with
  | [] => None
  | x :: rest =>
      if x =? v then Some 0%nat
      else match index_of v rest with
           | Some i => Some (S i)
           | None => None
           end
  end.

Definition fsum (v : vec) : float := fold_left PrimFloat.add v 0.

Definition zip_with (op : float -> float -> float) (a b : vec) : vec :=
  map (fun p => op (fst p) (snd p)) (combine a b).

Definition vadd : vec -> vec -> vec := zip_with PrimFloat.add.
Definition vsub : vec -> vec -> vec := zip_with PrimFloat.sub.
Definition vneg (v : vec) : vec := map PrimFloat.opp v.
(** [v*k] and [v/k] for a scalar [k]. *)
Definition vscale (v : vec) (k : float) : vec := map (fun x => x * k) v.
Definition vdiv (v : vec) (k : float) : vec := map (fun x => x / k) v.

Definition inner (a b : vec) : float := fsum (zip_with PrimFloat.mul a b).
Definition norm (v : vec) : float := sqrt (inner v v).

Definition zeros (n : nat) : vec := repeat 0 n.
Definition eye (n : nat) : matrix :=
  map (fun i => map (fun j => if Nat.eqb i j then 1 else 0) (seq 0 n)) (seq 0 n).
Definition mscale (m : matrix) (k : float) : matrix := map (fun r => vscale r k) m.
Definition madd (a b : matrix) : matrix :=
  map (fun p => vadd (fst p) (snd p)) (combine a b).
Definition msub (a b : matrix) : matrix :=
  map (fun p => vsub (fst p) (snd p)) (combine a b).
Definition mneg (m : matrix) : matrix := map vneg m.
Definition outer (a b : vec) : matrix := map (fun x => map (fun y => x * y) b) a.

(** Column [j] of a matrix given by rows; the transpose of a matrix with
    [cols] columns. *)
Definition column (m : matrix) (j : nat) : vec := map (fun r => nth j r 0) m.
Definition transpose (cols : nat) (m : matrix) : matrix :=
  map (column m) (seq 0 cols).

Definition matvec (m : matrix) (v : vec) : vec := map (fun r => inner r v) m.
Definition matmul (cols_b : nat) (a b : matrix) : matrix :=
  map (fun r => map (fun j => inner r (column b j)) (seq 0 cols_b)) a.

(** [v[mask]] for a boolean mask. *)
Fixpoint select {A} (mask : list bool) (v : list A) : list A :=
  match mask, v with
  | b :: mask', x :: v' => if b then x :: select mask' v' else select mask' v'
  | _, _ => []
  end.

(** [out[mask] = values] on an array [out]. *)
Fixpoint scatter (mask : list bool) (values out : vec) : vec :=
  match mask, out with
  | b :: mask', o :: out' =>
      if b then
        match values with
        | y :: values' => y :: scatter mask' values' out'
        | [] => o :: scatter mask' [] out'
        end
      else o :: scatter mask' values out'
  | _, _ => out
  end.

(** [np.argmin(v)]: the first position of the minimum, of the first nan
    when there is one. *)
Fixpoint first_nan (v : vec) : option nat :=
  match v with
  | [] => None
  | x :: rest =>
      if isnan x then Some 0%nat
      else match first_nan rest with
           | Some i => Some (S i)
           | None => None
           end
  end.

Definition argmin (v : vec) : nat :=
  match first_nan v with
  | Some i => i
  | None =>
      match index_of (min_of v) v with
      | Some i => i
      | None => 0%nat
      end
  end.

(** [np.array(points).T] for a list of points. *)
Definition array_T (points : list vec) : matrix :=
  transpose (List.length (hd [] points)) points.

(** [sum(mask)]: how many entries are set. *)
Definition count_true (mask : list bool) : nat := count_occ bool_dec mask true.

(** [l[i] = v] on a list, nothing out of range. *)
Fixpoint set_nth {A} (i : nat) (v : A) (l : list A) : list A :=
  match l, i with
  | [], _ => []
  | _ :: rest, O => v :: rest
  | x :: rest, S i' => x :: set_nth i' v rest
  end.

(** [out[idx] = values] for a list of positions. *)
Definition assign_at (idx : list nat) (values out : vec) : vec :=
  fold_left (fun acc p => set_nth (fst p) (snd p) acc) (combine idx values) out.

End Np.

(* ================================================================== *)
(** * Data model: settings, adapters, result record *)
(* ================================================================== *)

Module Model.
Import Py.
Open Scope float_scope.

(** The settings object as the class [Settings] builds it from the
    keyword options, with the
    fields [minimize] and the reporting helpers fill in later.
    [max_iterations = None] is the default, infinity. *)
Record Settings : Type := {
  method : string;
  termination_tol : float;
  grad_tol : float;
  verbose : bool;
  central_diff : bool;
  use_finite_diff : bool;
  file_tag : string;
  max_processes : nat;
  dx : float;
  max_iterations : option Z;
  n_search : nat;
  alpha_init : float;
  alpha_reset : bool;
  alpha_mult : float;
  alpha_d : option float;
  search_type : string;
  rsq_tol : float;
  wolfe_armijo : float;
  wolfe_curv : float;
  hess_init : float;
  strict_penalty : bool;
  cstr_tol : float;
  n_cstr : nat;
  n_ineq_cstr : nat;
  opt_file : string;
  grad_file : string
}.

(** [settings.method = m]. *)
Definition set_method (m : string) (s : Settings) : Settings :=
  {| method := m; termination_tol := termination_tol s; grad_tol := grad_tol s;
     verbose := verbose s; central_diff := central_diff s;
     use_finite_diff := use_finite_diff s; file_tag := file_tag s;
     max_processes := max_processes s; dx := dx s;
     max_iterations := max_iterations s; n_search := n_search s;
     alpha_init := alpha_init s; alpha_reset := alpha_reset s;
     alpha_mult := alpha_mult s; alpha_d := alpha_d s;
     search_type := search_type s; rsq_tol := rsq_tol s;
     wolfe_armijo := wolfe_armijo s; wolfe_curv := wolfe_curv s;
     hess_init := hess_init s; strict_penalty := strict_penalty s;
     cstr_tol := cstr_tol s; n_cstr := n_cstr s; n_ineq_cstr := n_ineq_cstr s;
     opt_file := opt_file s; grad_file := grad_file s |}.

(** [settings.n_cstr = n; settings.n_ineq_cstr = k]. *)
Definition set_counts (n k : nat) (s : Settings) : Settings :=
  {| method := method s; termination_tol := termination_tol s; grad_tol := grad_tol s;
     verbose := verbose s; central_diff := central_diff s;
     use_finite_diff := use_finite_diff s; file_tag := file_tag s;
     max_processes := max_processes s; dx := dx s;
     max_iterations := max_iterations s; n_search := n_search s;
     alpha_init := alpha_init s; alpha_reset := alpha_reset s;
     alpha_mult := alpha_mult s; alpha_d := alpha_d s;
     search_type := search_type s; rsq_tol := rsq_tol s;
     wolfe_armijo := wolfe_armijo s; wolfe_curv := wolfe_curv s;
     hess_init := hess_init s; strict_penalty := strict_penalty s;
     cstr_tol := cstr_tol s; n_cstr := n; n_ineq_cstr := k;
     opt_file := opt_file s; grad_file := grad_file s |}.

(** [settings.opt_file = o; settings.grad_file = g]. *)
Definition set_files (o g : string) (s : Settings) : Settings :=
  {| method := method s; termination_tol := termination_tol s; grad_tol := grad_tol s;
     verbose := verbose s; central_diff := central_diff s;
     use_finite_diff := use_finite_diff s; file_tag := file_tag s;
     max_processes := max_processes s; dx := dx s;
     max_iterations := max_iterations s; n_search := n_search s;
     alpha_init := alpha_init s; alpha_reset := alpha_reset s;
     alpha_mult := alpha_mult s; alpha_d := alpha_d s;
     search_type := search_type s; rsq_tol := rsq_tol s;
     wolfe_armijo := wolfe_armijo s; wolfe_curv := wolfe_curv s;
     hess_init := hess_init s; strict_penalty := strict_penalty s;
     cstr_tol := cstr_tol s; n_cstr := n_cstr s; n_ineq_cstr := n_ineq_cstr s;
     opt_file := o; grad_file := g |}.

(** The settings with the option [max_iterations] given as [m]. *)
Definition set_max_iterations (m : Z) (s : Settings) : Settings :=
  {| method := method s; termination_tol := termination_tol s; grad_tol := grad_tol s;
     verbose := verbose s; central_diff := central_diff s;
     use_finite_diff := use_finite_diff s; file_tag := file_tag s;
     max_processes := max_processes s; dx := dx s;
     max_iterations := Some m; n_search := n_search s;
     alpha_init := alpha_init s; alpha_reset := alpha_reset s;
     alpha_mult := alpha_mult s; alpha_d := alpha_d s;
     search_type := search_type s; rsq_tol := rsq_tol s;
     wolfe_armijo := wolfe_armijo s; wolfe_curv := wolfe_curv s;
     hess_init := hess_init s; strict_penalty := strict_penalty s;
     cstr_tol := cstr_tol s; n_cstr := n_cstr s; n_ineq_cstr := n_ineq_cstr s;
     opt_file := opt_file s; grad_file := grad_file s |}.

(** [iter < settings.max_iterations]. *)
Definition below_max_iterations (iter : Z) (s : Settings) : bool :=
  match max_iterations s with
  | None => true
  | Some m => (iter <? m)%Z
  end.

(** One entry of the caller's [constraints] list: a dictionary with the
    keys [type], [fun] and, optionally, [grad]. *)
Record ConstraintSpec : Type := {
  spec_type : string;
  spec_fun : vec -> float;
  spec_grad : option (vec -> vec)
}.

(** Modelled from the spec: the class [Constraint] of [classes] is not
    under src/.  The adapter keeps the type tag, the callable and the
    optional gradient it is constructed with (spec 4.5); its constructor
    calls nothing. *)
Record Constraint : Type := {
  c_type : string;
  c_fun : vec -> float;
  c_grad : option (vec -> vec)
}.

(** Modelled from the spec: the class [Objective] of [classes] is not
    under src/.  The adapter owns the user's callable and the optional
    gradient, and counts the evaluations made since it was built (spec
    4.4, with [num_avg] at its default 1); [o_born] is the length of the
    trace at construction, from where its counter counts. *)
Record Objective : Type := {
  o_fun : vec -> float;
  o_grad : option (vec -> vec);
  o_born : nat
}.

Definition new_objective (fn : vec -> float) (grad : option (vec -> vec))
  : M Objective :=
  fun w => (Ok {| o_fun := fn; o_grad := grad; o_born := List.length w |}, w).

(** [f.f(x)]: one evaluation, seen in the trace. *)
Definition f_f (f : Objective) (x : vec) : M float :=
  emit (ObjectiveCall x) ;;; ret (o_fun f x).

(** [x] with [d] added to its [i]-th coordinate. *)
Definition perturb (x : vec) (i : nat) (d : float) : vec :=
  Np.set_nth i (nth i x 0 + d) x.

(** Modelled from the spec: finite differences of 4.4, forward
    [(f(x+dx e_i) - f(x))/dx] or central
    [(f(x+dx e_i) - f(x-dx e_i))/(2 dx)], every probe an evaluation. *)
Definition finite_difference (eval : vec -> M float) (s : Settings) (x : vec)
  : M vec :=
  map_m (fun i =>
           if central_diff s then
             up <- eval (perturb x i (dx s)) ;;
             down <- eval (perturb x i (- dx s)) ;;
             ret ((up - down) / (2 * dx s))
           else
             up <- eval (perturb x i (dx s)) ;;
             base <- eval x ;;
             ret ((up - base) / dx s))
        (seq 0 (List.length x)).

(** [f.del_f(x)]. *)
Definition del_f (s : Settings) (f : Objective) (x : vec) : M vec :=
  match o_grad f with
  | Some grad => emit (GradientCall x) ;;; ret (grad x)
  | None => finite_difference (f_f f) s x
  end.

(** [g[i].g(x)] and [g[i].del_g(x)]. *)
Definition g_g (i : nat) (c : Constraint) (x : vec) : M float :=
  emit (ConstraintCall i x) ;;; ret (c_fun c x).

Definition del_g (s : Settings) (i : nat) (c : Constraint) (x : vec) : M vec :=
  match c_grad c with
  | Some grad => emit (ConstraintGradCall i x) ;;; ret (grad x)
  | None => finite_difference (g_g i c) s x
  end.

(** [f.eval_calls.value] and [g[i].eval_calls.value]. *)
Definition is_objective_call (e : event) : bool :=
  match e with ObjectiveCall _ => true | _ => false end.
Definition is_constraint_call (i : nat) (e : event) : bool :=
  match e with ConstraintCall j _ => Nat.eqb i j | _ => false end.

Definition eval_calls (f : Objective) : M nat :=
  fun w => (Ok (List.length (filter is_objective_call (skipn (o_born f) w))), w).

(** The result record. *)
Record OptimizerResult : Type := {
  res_f : float;
  res_x : vec;
  success : bool;
  message : string;
  total_iter : Z;
  obj_calls : nat;
  cstr_calls : list nat
}.

Definition OptimizerResult_ (f : float) (x : vec) (ok : bool) (msg : string)
  (iter : Z) (calls : nat) (ccalls : list nat) : OptimizerResult :=
  {| res_f := f; res_x := x; success := ok; message := msg;
     total_iter := iter; obj_calls := calls; cstr_calls := ccalls |}.

End Model.

(** Modelled from the spec: the quadratic-fit utility of [classes] is not
    under src/.  Of a fit the line search reads the vertex position
    ([None] when the fit has no vertex), the convexity flag and the R2
    statistic (spec 4.2); the fit itself is an argument of the functions
    that use it. *)
Record QuadraticFit : Type := {
  vertex_alpha : option float;
  convex : bool;
  rsq : float
}.

(** The two operations of the bracket formula whose outcome depends on
    the kind of number the samples are: [x ** 2] and [x / y].  Python's
    own floats raise OverflowError where the square is out of range and
    ZeroDivisionError where the divisor is zero, and take the square
    from C's [pow]; numpy's scalars return inf or nan.  [None] is the
    exception; the operations are an argument of the functions that use
    them. *)
Record Scalars : Type := {
  pow2 : float -> option float;
  truediv : float -> float -> option float
}.

(** [x ** 2]. *)
Definition square (ops : Scalars) (x : float) : Py.M float :=
  match pow2 ops x with
  | Some y => Py.ret y
  | None => Py.raise (Py.OverflowError "(34, 'Numerical result out of range')")
  end.

(** [x / y]. *)
Definition divide (ops : Scalars) (x y : float) : Py.M float :=
  match truediv ops x y with
  | Some q => Py.ret q
  | None => Py.raise (Py.ZeroDivisionError "float division by zero")
  end.

(** What the line search hands back: the plateau exit returns a tuple of
    three, the other exits a tuple of four. *)
Inductive search_result : Type :=
| Tuple3 (x : Py.vec) (f : float) (alpha : float)
| Tuple4 (x : Py.vec) (f : float) (alpha : float) (wolfe_satis : bool).

(** [a, b, c, d = t]. *)
Definition unpack4 (t : search_result) : Py.M (Py.vec * float * float * bool) :=
  match t with
  | Tuple4 x f alpha w => Py.ret (x, f, alpha, w)
  | Tuple3 _ _ _ =>
      Py.raise (Py.ValueError "not enough values to unpack (expected 4, got 3)")
  end.

(* ================================================================== *)
(** * The legacy generation: src/optix.py *)
(* ================================================================== *)

Module Legacy.
Import Py Model.
Open Scope float_scope.

(** [c.Constraint(constraint[type], constraint[fun], pool, queue,
    settings, grad=grad)]. *)
Definition Constraint_ (spec : ConstraintSpec) : Constraint :=
  {| c_type := spec_type spec; c_fun := spec_fun spec; c_grad := spec_grad spec |}.

(** The first loop of [get_constraints]: inequality constraints are
    counted and appended. *)
Definition ineq_pass (constraints : list ConstraintSpec)
  : nat * list Constraint :=
  fold_left
    (fun (st : nat * list Constraint) constraint =>
       if String.eqb (spec_type constraint) "ineq"
       then (S (fst st), snd st ++ [Constraint_ constraint])
       else st)
    constraints (0%nat, []).

(** The second loop: equality constraints are appended. *)
Definition eq_pass (constraints : list ConstraintSpec) (g : list Constraint)
  : list Constraint :=
  fold_left
    (fun g constraint =>
       if String.eqb (spec_type constraint) "eq"
       then g ++ [Constraint_ constraint]
       else g)
    constraints g.

(** [get_constraints(constraints, pool, queue, settings)]; the list is
    [None] when no list was given. *)
Definition get_constraints (constraints : option (list ConstraintSpec))
  : option (list Constraint) * nat * nat :=
  match constraints with
  | Some cs =>
      let n_cstr := List.length cs in
      let '(n_ineq_cstr, g) := ineq_pass cs in
      let g := eq_pass cs g in
      (Some g, n_cstr, n_ineq_cstr)
  | None => (None, 0%nat, 0%nat)
  end.

(** The three-point vertex of the bracket method, as written: the
    squares in the order Python evaluates them, the numerator, the
    denominator, the division. *)
Definition bracket_vertex (ops : Scalars) (a1 a2 a3 f1 f2 f3 : float) : M float :=
  a2_2 <- square ops a2 ;;
  a3_2 <- square ops a3 ;;
  a1_2 <- square ops a1 ;;
  a1_2' <- square ops a1 ;;
  a2_2' <- square ops a2 ;;
  divide ops
    (f1 * (a2_2 - a3 * 2) + f2 * (a3_2 - a1_2) + f3 * (a1_2' - a2_2'))
    (2 * (f1 * (a2 - a3) + f2 * (a3 - a1) + f3 * (a1 - a3))).

(** [not (alpha_opt is None or alpha_opt < 0 or not q.convex() or
    q.rsq < settings.rsq_tol)]. *)
Definition fit_accepted (q : QuadraticFit) (s : Settings) : option float :=
  match vertex_alpha q with
  | None => None
  | Some alpha_opt =>
      if (alpha_opt <? 0) || negb (convex q) || (rsq q <? rsq_tol s)
      then None else Some alpha_opt
  end.

(** [find_opt_alpha(a, f_search, min_ind, settings)]. *)
Definition find_opt_alpha (ops : Scalars) (quadratic : vec -> vec -> QuadraticFit)
  (a f_search : vec) (min_ind : Z) (s : Settings) : M float :=
  let bracket :=
    a1 <- index a (min_ind - 1) ;;
    a2 <- index a min_ind ;;
    a3 <- index a (min_ind + 1) ;;
    f1 <- index f_search (min_ind - 1) ;;
    f2 <- index f_search min_ind ;;
    f3 <- index f_search (min_ind + 1) ;;
    alpha_opt <- bracket_vertex ops a1 a2 a3 f1 f2 f3 ;;
    if (a3 <? alpha_opt) || (alpha_opt <? a1) then ret a2 else ret alpha_opt in
  if String.eqb (search_type s) "quadratic" then
    match fit_accepted (quadratic a f_search) s with
    | Some alpha_opt => ret alpha_opt
    | None => bracket
    end
  else bracket.

(** [printSetup]: the banner, line by line. *)
Definition printSetup (bounds : bool) (s : Settings) : M unit :=
  print "\nOptix.py from USU AeroLab\n" ;;;
  print "---------- Variables ----------" ;;;
  print "Optimizing in {0} variables." ;;;
  print "Initial guess:\n{0}" ;;;
  when bounds (print "Variable bounds:\n{0}") ;;;
  print "" ;;;
  print "---------- Constraints ----------" ;;;
  print "{0} total constraints" ;;;
  print "{0} inequality constraints" ;;;
  print "{0} equality constraints" ;;;
  print "" ;;;
  print "---------- Settings ----------" ;;;
  print "            method: {0}" ;;;
  print "     obj func args: {0}" ;;;
  print "     default alpha: {0}" ;;;
  print "    stopping delta: {0}" ;;;
  print "     max processes: {0}" ;;;
  print " dx (finite diffs): {0}" ;;;
  print "          file tag: {0}" ;;;
  print "           verbose: {0}" ;;;
  when (use_finite_diff s)
       (if central_diff s
        then print "using central difference approximation"
        else print "using forward difference approximation") ;;;
  print "".

(** [format_output_files]: both logs are created with their headers, the
    names are stored on the settings, the header is echoed. *)
Definition format_output_files (s : Settings) : M Settings :=
  let opt_filename := ("optimize" ++ file_tag s ++ ".txt")%string in
  emit (FileCreated opt_filename) ;;;
  let grad_filename := ("gradient" ++ file_tag s ++ ".txt")%string in
  emit (FileCreated grad_filename) ;;;
  print "opt_header" ;;;
  ret (set_files opt_filename grad_filename s).

(** [append_file]: the iterate is echoed and one line goes to each log. *)
Definition append_file (s : Settings) : M unit :=
  print "values_msg" ;;;
  emit (FileAppended (opt_file s)) ;;;
  emit (FileAppended (grad_file s)).

(** [writer = pool.apply_async(eval_write, (eval_filename, eval_header,
    queue))]: the task opens its file for writing. *)
Definition start_writer (s : Settings) : M unit :=
  let eval_filename := ("evaluations" ++ file_tag s ++ ".txt")%string in
  emit (WriterStarted eval_filename) ;;;
  emit (FileCreated eval_filename).

Section Drivers.

(** The three legacy drivers, which no claim is about, are arguments. *)
Variable bfgs : Objective -> vec -> Settings -> M OptimizerResult.
Variable sqp grg :
  Objective -> option (list Constraint) -> vec -> Settings -> M OptimizerResult.

(** [find_minimum(f, g, x_start, settings)]. *)
Definition find_minimum (f : Objective) (g : option (list Constraint))
  (x_start : vec) (s : Settings) : M OptimizerResult :=
  if String.eqb (method s) "bfgs" then bfgs f x_start s
  else if String.eqb (method s) "sqp" then sqp f g x_start s
  else if String.eqb (method s) "grg" then grg f g x_start s
  else raise (ValueError "Method improperly specified.").

(** [minimize(fun, x0, **kwargs)]: [settings] is what the keyword
    options give; [grad], [constraints] and [bounds] are read from them. *)
Definition minimize (fn : vec -> float) (x0 : vec) (settings : Settings)
  (grad : option (vec -> vec)) (constraints : option (list ConstraintSpec))
  (bounds : bool) : M OptimizerResult :=
  let n_vars := List.length x0 in
  let x_start := x0 in
  emit (PoolOpened (max_processes settings)) ;;;
  finally
    (emit QueueCreated ;;;
     f <- new_objective fn grad ;;
     let '(g, n_cstr, n_ineq_cstr) := get_constraints constraints in
     let settings := set_counts n_cstr n_ineq_cstr settings in
     if (n_vars <? n_cstr - n_ineq_cstr)%nat
     then raise (ValueError "The problem is overconstrained")
     else
       printSetup bounds settings ;;;
       settings <- format_output_files settings ;;
       writer <- (if (1 <? max_processes settings)%nat
                  then start_writer settings ;;; ret (Some tt)
                  else ret None) ;;
       opt <- find_minimum f g x_start settings ;;
       writer <- (if (max_processes settings =? 1)%nat
                  then start_writer settings ;;; ret (Some tt)
                  else ret writer) ;;
       emit (QueuePut "kill") ;;;
       read_local "writer" writer ;;;
       ret opt)
    (emit PoolExited).

End Drivers.

End Legacy.

(* ================================================================== *)
(** * The canonical generation: src/optix/optix.py *)
(* ================================================================== *)

Module Canonical.
Import Py Model.
Open Scope float_scope.

(** ** Helpers *)

(** Modelled from the spec: the module [helpers] ([get_constraints],
    [print_setup], [format_output_files], [append_file], [eval_write]) is
    not under src/.  The constraint-list builder and the reporting helpers
    of spec 4.6 and 4.7 are taken as src/optix.py defines the functions of
    the same names. *)
Definition get_constraints := Legacy.get_constraints.
Definition print_setup (s : Settings) : M unit := Legacy.printSetup false s.
Definition format_output_files := Legacy.format_output_files.
Definition append_file := Legacy.append_file.
Definition start_writer := Legacy.start_writer.

(** [float(i)] for a loop index. *)
Definition of_nat (i : nat) : float :=
  PrimFloat.of_uint63 (Uint63.of_Z (Z.of_nat i)).

(** ** The line search *)

(** [_find_opt_alpha(a, f_search, min_ind, settings)]. *)
Definition _find_opt_alpha (ops : Scalars) (quadratic : vec -> vec -> QuadraticFit)
  (a f_search : vec) (min_ind : Z) (s : Settings) : M float :=
  let bracket :=
    a1 <- index a (min_ind - 1) ;;
    a2 <- index a min_ind ;;
    a3 <- index a (min_ind + 1) ;;
    f1 <- index f_search (min_ind - 1) ;;
    f2 <- index f_search min_ind ;;
    f3 <- index f_search (min_ind + 1) ;;
    a2_2 <- square ops a2 ;;
    a3_2 <- square ops a3 ;;
    a1_2 <- square ops a1 ;;
    a1_2' <- square ops a1 ;;
    a2_2' <- square ops a2 ;;
    alpha_opt <- divide ops
                   (f1 * (a2_2 - a3 * 2) + f2 * (a3_2 - a1_2) + f3 * (a1_2' - a2_2'))
                   (2 * (f1 * (a2 - a3) + f2 * (a3 - a1) + f3 * (a1 - a3))) ;;
    if (a3 <? alpha_opt) || (alpha_opt <? a1) then ret a2 else ret alpha_opt in
  if String.eqb (search_type s) "quadratic" then
    let q := quadratic a f_search in
    match vertex_alpha q with
    | Some alpha_opt =>
        if negb ((alpha_opt <? 0) || negb (convex q) || (rsq q <? rsq_tol s))
        then ret alpha_opt
        else bracket
    | None => bracket
    end
  else bracket.

(** [[x0+s*alpha*i for i in range(1, settings.n_search+1)]]. *)
Definition search_points (x0 s : vec) (alpha : float) (n_search : nat) : list vec :=
  map (fun i => Np.vadd x0 (Np.vscale (Np.vscale s alpha) (of_nat i)))
      (seq 1 n_search).

(** The samples of one attempt: one pool, one evaluation per point. *)
Definition sample (f : Objective) (points : list vec) (s : Settings) : M vec :=
  emit (PoolOpened (max_processes s)) ;;;
  finally (map_m (f_f f) points) (emit PoolExited).

(** What the step-size test of one attempt decides. *)
Inductive adjust : Type :=
| Reduce
| Increase
| Interior (min_ind : nat).

(** [min_ind = f_search.index(min(f_search))] and the test on it. *)
Definition classify (f_search : vec) (n_search : nat) : adjust :=
  match Np.index_of (Np.min_of f_search) f_search with
  | Some O => Reduce
  | Some min_ind => if Nat.eqb min_ind n_search then Increase else Interior min_ind
  | None => Interior 0
  end.

Section LineSearch.

Variable ops : Scalars.
Variable quadratic : vec -> vec -> QuadraticFit.

(** What numpy makes of an array of positions where Python asks for one
    integer (its method [__index__]): the integer, or [None] for a
    [TypeError].  No array of two or more positions is converted; an
    array of one position was converted by old versions of numpy and is
    refused, having a dimension, by the later ones. *)
Variable array_as_index : list nat -> option nat.

Variable f : Objective.
Variable settings : Settings.

(** [l[a]] for a Python list [l] and an array [a] of positions. *)
Definition list_at_array {A} (l : list A) (a : list nat) : M A :=
  match array_as_index a with
  | Some i => index l (Z.of_nat i)
  | None =>
      raise (TypeError "only integer scalar arrays can be converted to a scalar index")
  end.

(** The [while True] loop of [_line_search] and what follows it; each
    turn of the loop is one attempt.  [fuel] bounds the attempts. *)
Fixpoint _line_search_from (fuel : nat) (x0 : vec) (f0 : float) (s del_f0 : vec)
  (alpha : float) (prev_reduced prev_increased : bool) : M search_result :=
  match fuel with
  | O => out_of_fuel
  | S fuel' =>
      when (verbose settings) (print "Step size: {0}") ;;;
      let x_search := search_points x0 s alpha (n_search settings) in
      f_search <- sample f x_search settings ;;
      let x_search := x0 :: x_search in
      let f_search := f0 :: f_search in
      when (verbose settings)
           (for_each (seq 0 (n_search settings + 1))
                     (fun _ => print "{0:5d}, {1:15.7E}")) ;;;
      if Np.any_isnan f_search then
        print "Found NaN in line search at the following design point:" ;;;
        list_at_array x_search (Np.nan_positions f_search) ;;;
        print "{x_search[...]}" ;;;
        raise (ValueError "Objective function returned a NaN")
      else if Np.min_of f_search =? Np.max_of f_search then
        when (verbose settings) (print "Objective function has plateaued") ;;;
        ret (Tuple3 x0 f0 alpha)
      else if (nth 0 f_search 0 <? nth 1 f_search 0)
              && (alpha <? termination_tol settings) then
        when (verbose settings) (print "Alpha within stopping tolerance: alpha = {0}") ;;;
        ret (Tuple4 x0 f0 alpha true)
      else
        match classify f_search (n_search settings) with
        | Reduce =>
            let multiplier :=
              if prev_increased then alpha_mult settings - 1 else alpha_mult settings in
            when (verbose settings) (print "Too big of a step. Reducing alpha by {0}") ;;;
            _line_search_from fuel' x0 f0 s del_f0 (alpha / multiplier)
              (if prev_increased then prev_reduced else true) false
        | Increase =>
            let multiplier :=
              if prev_reduced then alpha_mult settings - 1 else alpha_mult settings in
            when (verbose settings) (print "Too small of a step. Increasing alpha by {0}") ;;;
            _line_search_from fuel' x0 f0 s del_f0 (alpha * multiplier)
              false (if prev_reduced then prev_increased else true)
        | Interior min_ind =>
            let a := map (fun i => alpha * of_nat i) (seq 0 (n_search settings + 1)) in
            alpha_opt <- _find_opt_alpha ops quadratic a f_search (Z.of_nat min_ind) settings ;;
            when (verbose settings) (print "Final alpha = {0}") ;;;
            let x1 := Np.vadd x0 (Np.vscale s alpha_opt) in
            f1 <- f_f f x1 ;;
            let armijo := f0 + wolfe_armijo settings * alpha_opt * Np.inner s del_f0 in
            let wolfe_satis := if armijo <? f1 then false else true in
            ret (Tuple4 x1 f1 alpha_opt wolfe_satis)
        end
  end.

(** [_line_search(x0, f0, s, del_f0, f, alpha, settings)]. *)
Definition _line_search (fuel : nat) (x0 : vec) (f0 : float) (s del_f0 : vec)
  (alpha : float) : M search_result :=
  when (verbose settings)
       (print "Line Search ----------------------------------------------------------------------------" ;;;
        print "Search Direction: {0}") ;;;
  _line_search_from fuel x0 f0 s del_f0 alpha false false.

End LineSearch.

(** ** The BFGS driver *)

(** [_get_N(N0, delta_x0, del_f0, del_f1)]. *)
Definition _get_N (N0 : matrix) (delta_x0 del_f0 del_f1 : vec) : matrix :=
  let n := List.length delta_x0 in
  let y_k := Np.vsub del_f1 del_f0 in
  let sigma_k := 1 / Np.inner delta_x0 y_k in
  let A := Np.msub (Np.eye n) (Np.mscale (Np.outer delta_x0 y_k) sigma_k) in
  let B := Np.mscale (Np.outer delta_x0 delta_x0) sigma_k in
  Np.madd (Np.matmul n A (Np.matmul n N0 A)) B.

(** The local variables of [_bfgs] that live across the turns of its
    loops; [x2] and [f2] are not assigned before the inner loop has run
    a line search. *)
Record bfgs_locals : Type := {
  iter : Z;
  o_iter : Z;
  i_iter : Z;
  mag_dx : float;
  x0 : vec;
  alpha_guess : option float;
  x2 : option vec;
  f2 : option float
}.

(** The variables of the inner loop beside them. *)
Record bfgs_inner : Type := {
  f0 : float;
  del_f0 : vec;
  delta_x0 : vec;
  x1 : vec;
  f1 : float
}.

(** How a turn of a loop ends: the function returns, or the loop goes on
    (or is left) with the variables as they are. *)
Inductive flow (R St : Type) : Type :=
| Return (r : R)
| Next (st : St).
Arguments Return {R St} r.
Arguments Next {R St} st.

Section Bfgs.

Variable ops : Scalars.
Variable quadratic : vec -> vec -> QuadraticFit.
Variable array_as_index : list nat -> option nat.
Variable f : Objective.
Variable settings : Settings.

(** [iter < settings.max_iterations and mag_dx > settings.termination_tol]. *)
Definition bfgs_continues (l : bfgs_locals) : bool :=
  below_max_iterations (iter l) settings && (termination_tol settings <? mag_dx l).

(** The inner loop, which uses the BFGS update. *)
Fixpoint bfgs_inner_loop (fuel : nat) (N0 : matrix) (l : bfgs_locals)
  (v : bfgs_inner) : M (flow OptimizerResult bfgs_locals) :=
  match fuel with
  | O => out_of_fuel
  | S fuel' =>
      if negb (bfgs_continues l) then ret (Next l)
      else
        let i_iter' := (i_iter l + 1)%Z in
        let iter' := (iter l + 1)%Z in
        del_f1 <- del_f settings f (x1 v) ;;
        append_file settings ;;;
        if Np.norm del_f1 <? grad_tol settings then
          calls <- eval_calls f ;;
          ret (Return (OptimizerResult_ (f1 v) (x1 v) true
                         "Gradient tolerance reached." iter' calls []))
        else if Np.inner (delta_x0 v) del_f1
                <? wolfe_curv settings * Np.inner (delta_x0 v) (del_f0 v) then
          print "Wolfe condition ii not satisfied (step did not result in a sufficient decrease in objective function gradient)." ;;;
          ret (Next {| iter := iter'; o_iter := o_iter l; i_iter := i_iter';
                       mag_dx := mag_dx l; x0 := x1 v;
                       alpha_guess := alpha_guess l; x2 := x2 l; f2 := f2 l |})
        else
          let N1 := _get_N N0 (delta_x0 v) (del_f0 v) del_f1 in
          let s := Np.vneg (Np.matvec N1 del_f1) in
          let mag_s := Np.norm s in
          let s := Np.vdiv s mag_s in
          let guess := if alpha_reset settings then alpha_init settings else mag_dx l in
          t <- _line_search ops quadratic array_as_index f settings fuel (x1 v) (f1 v) s
                 del_f1 guess ;;
          r <- unpack4 t ;;
          let '(x2', f2', alpha, wolfe_satis) := r in
          if negb wolfe_satis then
            print "Wolfe condition i not satisfied (step did not result in a sufficient decrease in the objective function)." ;;;
            ret (Next {| iter := iter'; o_iter := o_iter l; i_iter := i_iter';
                         mag_dx := mag_dx l; x0 := x2';
                         alpha_guess := Some guess; x2 := Some x2'; f2 := Some f2' |})
          else
            let delta_x1 := Np.vsub x2' (x1 v) in
            bfgs_inner_loop fuel' N0
              {| iter := iter'; o_iter := o_iter l; i_iter := i_iter';
                 mag_dx := alpha; x0 := x1 v;
                 alpha_guess := Some guess; x2 := Some x2'; f2 := Some f2' |}
              {| f0 := f1 v; del_f0 := del_f1; delta_x0 := delta_x1;
                 x1 := x2'; f1 := f2' |}
  end.

(** The outer loop, which sets the inverse Hessian to the identity, and
    the return after it. *)
Fixpoint bfgs_outer_loop (fuel : nat) (n : nat) (l : bfgs_locals)
  : M OptimizerResult :=
  match fuel with
  | O => out_of_fuel
  | S fuel' =>
      if negb (bfgs_continues l) then
        f2' <- read_local "f2" (f2 l) ;;
        x2' <- read_local "x2" (x2 l) ;;
        calls <- eval_calls f ;;
        ret (OptimizerResult_ f2' x2' true "Step tolerance reached." (iter l) calls [])
      else
        when (verbose settings) (print "Setting Hessian to the identity matrix.") ;;;
        let o_iter' := (o_iter l + 1)%Z in
        let iter' := (iter l + 1)%Z in
        f0 <- f_f f (x0 l) ;;
        del_f0 <- del_f settings f (x0 l) ;;
        append_file settings ;;;
        let N0 := Np.mscale (Np.eye n) (hess_init settings) in
        let s := Np.vneg (Np.matvec N0 del_f0) in
        let guess :=
          match alpha_guess l with
          | None => alpha_init settings
          | Some _ => if alpha_reset settings then alpha_init settings else mag_dx l
          end in
        let mag_s := Np.norm s in
        let s := Np.vdiv s mag_s in
        t <- _line_search ops quadratic array_as_index f settings fuel (x0 l) f0 s del_f0
               guess ;;
        r <- unpack4 t ;;
        let '(x1, f1, alpha, wolfe_satis) := r in
        let delta_x0 := Np.vsub x1 (x0 l) in
        out <- bfgs_inner_loop fuel N0
                 {| iter := iter'; o_iter := o_iter'; i_iter := 0;
                    mag_dx := alpha; x0 := x0 l;
                    alpha_guess := Some guess; x2 := x2 l; f2 := f2 l |}
                 {| f0 := f0; del_f0 := del_f0; delta_x0 := delta_x0;
                    x1 := x1; f1 := f1 |} ;;
        match out with
        | Return r => ret r
        | Next l' => bfgs_outer_loop fuel' n l'
        end
  end.

(** [_bfgs(f, x_start, settings)]. *)
Definition _bfgs (fuel : nat) (x_start : vec) : M OptimizerResult :=
  bfgs_outer_loop fuel (List.length x_start)
    {| iter := (-1)%Z; o_iter := (-1)%Z; i_iter := 0; mag_dx := 1;
       x0 := x_start; alpha_guess := None; x2 := None; f2 := None |}.

End Bfgs.

(** ** The SQP step solver *)

(** [itertools.product] of the lists [opts]: the last position varies
    fastest. *)
Fixpoint product {A} (opts : list (list A)) : list (list A) :=
  match opts with
  | [] => [[]]
  | o :: rest => flat_map (fun a => map (cons a) (product rest)) o
  end.

(** [poss_combos]: every inequality constraint binding or not, every
    equality constraint binding. *)
Definition poss_combos (n_cstr n_ineq_cstr : nat) : list (list bool) :=
  product (repeat [true; false] n_ineq_cstr ++ repeat [true] (n_cstr - n_ineq_cstr)).

(** [np.asscalar(sum(mask))]: the built-in sum of an empty mask is the
    integer 0, which has no [item]. *)
Definition asscalar_sum (mask : list bool) : M nat :=
  match mask with
  | [] => raise (AttributeError "'int' object has no attribute 'item'")
  | _ => ret (Np.count_true mask)
  end.

(** [_eval_constr(g, x1)]. *)
Definition _eval_constr (g : list Constraint) (x1 : vec) : M vec :=
  map_m (fun ic => g_g (fst ic) (snd ic) x1) (combine (seq 0 (List.length g)) g).

(** The values a trial of one combination leaves in the local variables
    [cstr_b], [delta_x], [l], [x1] and [g1]. *)
Record trial : Type := {
  t_cstr_b : list bool;
  t_delta_x : vec;
  t_l : vec;
  t_x1 : vec;
  t_g1 : vec
}.

Section StepSolver.

(** [np.linalg.svd(m)[1]], the singular values, and [np.linalg.solve],
    [None] standing for its [LinAlgError]. *)
Variable svd : matrix -> vec.
Variable solve : matrix -> vec -> option vec.

Variable f : Objective.
Variable g : list Constraint.
Variable settings : Settings.
Variable x0 : vec.
Variables n_vars n_cstr n_ineq_cstr : nat.
Variable del_2_L0 : matrix.
Variable del_f0 : vec.
(** [del_g0] has one row per design variable, one column per constraint. *)
Variable del_g0 : matrix.
Variable g0 : vec.

(** [del_g0[:, cstr_b]]. *)
Definition binding_columns (cstr_b : list bool) : matrix :=
  map (Np.select cstr_b) del_g0.

(** [del_g0[:, cstr_b].T]: one row per binding constraint, its gradient. *)
Definition binding_jacobian (cstr_b : list bool) : matrix :=
  Np.transpose (Np.count_true cstr_b) (binding_columns cstr_b).

(** The linear system of [_get_x_lambda]. *)
Definition kkt_matrix (cstr_b : list bool) : matrix :=
  let n_bind := Np.count_true cstr_b in
  map (fun p => fst p ++ Np.vneg (snd p)) (combine del_2_L0 (binding_columns cstr_b))
  ++ map (fun r => r ++ Np.zeros n_bind) (binding_jacobian cstr_b).

Definition kkt_rhs (cstr_b : list bool) : vec :=
  Np.vneg del_f0 ++ Np.vneg (Np.select cstr_b g0).

(** [_get_x_lambda(n_vars, n_cstr, del_2_L0, del_g0, del_f0, g0, cstr_b)]. *)
Definition _get_x_lambda (cstr_b : list bool) : M (vec * vec) :=
  n_bind <- asscalar_sum cstr_b ;;
  match solve (kkt_matrix cstr_b) (kkt_rhs cstr_b) with
  | None => raise (LinAlgError "Singular matrix")
  | Some x_lambda =>
      let delta_x := firstn n_vars x_lambda in
      let l_sol := skipn n_vars x_lambda in
      let l := Np.scatter cstr_b l_sol (Np.zeros n_cstr) in
      ret (delta_x, l)
  end.

(** The two tests that skip a combination before it is solved. *)
Definition skipped (cstr_b : list bool) : bool :=
  (n_vars <? Np.count_true cstr_b)%nat
  || ((1 <? Np.count_true cstr_b)%nat
      && Np.any_abs_lt (svd (binding_jacobian cstr_b)) 1e-14).

(** Solving one combination and evaluating the constraints at the
    point it proposes. *)
Definition solve_trial (cstr_b : list bool) : M trial :=
  dl <- _get_x_lambda cstr_b ;;
  let x1 := Np.vadd x0 (fst dl) in
  g1 <- _eval_constr g x1 ;;
  ret {| t_cstr_b := cstr_b; t_delta_x := fst dl; t_l := snd dl;
         t_x1 := x1; t_g1 := g1 |}.

(** [(g1[cstr_b == False] < 0).any()]. *)
Definition nonbinding_violated (t : trial) : bool :=
  Np.any_lt (Np.select (map negb (t_cstr_b t)) (t_g1 t)) 0.

(** [(l[:n_ineq_cstr].flatten() < 0).any()]. *)
Definition multiplier_negative (t : trial) : bool :=
  Np.any_lt (firstn n_ineq_cstr (t_l t)) 0.

(** The first [for] loop: a [break] is reported by [true]; the variables
    keep the values of the last combination solved. *)
Fixpoint strict_loop (combos : list (list bool)) (last : option trial)
  : M (bool * option trial) :=
  match combos with
  | [] => ret (false, last)
  | cstr_b :: rest =>
      if skipped cstr_b then strict_loop rest last
      else
        t <- solve_trial cstr_b ;;
        if nonbinding_violated t then strict_loop rest (Some t)
        else if negb (multiplier_negative t) then
          when (verbose settings) (print "Optimal combination found.") ;;;
          ret (true, Some t)
        else strict_loop rest (Some t)
  end.

(** The loop of the [else] branch, which lets non-binding constraints be
    violated. *)
Fixpoint relaxed_loop (combos : list (list bool)) (last : option trial)
  : M (option trial) :=
  match combos with
  | [] => ret last
  | cstr_b :: rest =>
      if skipped cstr_b then relaxed_loop rest last
      else
        t <- solve_trial cstr_b ;;
        if negb (multiplier_negative t) then
          when (verbose settings) (print "Optimal combination found.") ;;;
          ret (Some t)
        else relaxed_loop rest (Some t)
  end.

(** The search for the combination of binding constraints, the first
    part of [_get_delta_x]. *)
Definition find_combination : M (option trial) :=
  when (verbose settings) (print "Penalty to beat: {0}") ;;;
  let combos := poss_combos n_cstr n_ineq_cstr in
  r <- strict_loop combos None ;;
  if fst r then ret (snd r)
  else
    when (verbose settings)
         (print "Optimal combination not found. Allowing non-binding constraints to be violated.") ;;;
    relaxed_loop combos (snd r).

(** The penalty of a halved step. *)
Definition halved_penalty (f1 : float) (l g1 : vec) : float :=
  fold_left
    (fun P1 i =>
       let g1i := nth i g1 0 in
       if (i <? n_ineq_cstr)%nat then
         if 0 <? g1i then P1
         else if (nth i l 0 =? 0) && (g1i <? 0) then P1 + abs g1i
         else P1 + abs g1i
       else P1 + abs g1i)
    (seq 0 n_cstr) f1.

(** The loop that cuts the step back while the penalty has increased. *)
Fixpoint cut_back (fuel : nat) (P0 : float) (delta_x l x1 : vec) (f1 : float)
  (g1 : vec) (P1 : float) : M (vec * vec * vec * float * vec * float) :=
  match fuel with
  | O => out_of_fuel
  | S fuel' =>
      if strict_penalty settings && (P0 <? P1)
         && (termination_tol settings <? Np.norm delta_x) then
        when (verbose settings) (print "Stepped too far! Cutting step in half.") ;;;
        let delta_x := Np.vdiv delta_x 2 in
        let x1 := Np.vadd x0 delta_x in
        f1 <- f_f f x1 ;;
        g1 <- _eval_constr g x1 ;;
        let P1 := halved_penalty f1 l g1 in
        when (verbose settings) (print "Point: {0}, Objective: {1}, Penalty: {2}") ;;;
        cut_back fuel' P0 delta_x l x1 f1 g1 P1
      else ret (delta_x, l, x1, f1, g1, P1)
  end.

(** [_get_delta_x(x0, f0, f, g, P0, n_vars, n_cstr, n_ineq_cstr,
    del_2_L0, del_f0, del_g0, g0, settings)]. *)
Definition _get_delta_x (fuel : nat) (P0 : float)
  : M (vec * vec * vec * float * vec * float) :=
  last <- find_combination ;;
  when (verbose settings) (print "Optimal combination of binding constraints: {0}") ;;;
  x1 <- read_local "x1" (option_map t_x1 last) ;;
  f1 <- f_f f x1 ;;
  l <- read_local "l" (option_map t_l last) ;;
  g1 <- read_local "g1" (option_map t_g1 last) ;;
  let P1 :=
    fold_left (fun P1 i => P1 + abs (nth i l 0) * abs (nth i g1 0)) (seq 0 n_cstr) f1 in
  when (verbose settings) (print "Point: {0}, Objective: {1}, Penalty: {2}") ;;;
  delta_x <- read_local "delta_x" (option_map t_delta_x last) ;;
  cut_back fuel P0 delta_x l x1 f1 g1 P1.

End StepSolver.

(** ** The GRG driver: binding constraints *)

(** [_eval_grad(x0, f, g, n_vars, n_cstr)]: the gradient of the
    objective and the array [del_g0], whose column [i] is the gradient
    of constraint [i]. *)
Definition _eval_grad (s : Settings) (x0 : vec) (f : Objective)
  (g : list Constraint) (n_vars n_cstr : nat) : M (vec * matrix) :=
  del_f0 <- del_f s f x0 ;;
  columns <- map_m (fun i =>
                      match nth_error g i with
                      | Some c => del_g s i c x0
                      | None => raise (IndexError "index out of bounds")
                      end)
                   (seq 0 n_cstr) ;;
  ret (del_f0, Np.transpose n_vars columns).

(** The marks before any is dropped: an inequality constraint is binding
    when its value is at most [cstr_tol], an equality constraint always. *)
Definition initial_binding (g0 : vec) (n_cstr n_ineq_cstr : nat) (s : Settings)
  : list bool :=
  map (fun v => v <=? cstr_tol s) (firstn n_ineq_cstr g0)
  ++ repeat true (n_cstr - n_ineq_cstr).

(** The loop that ignores binding constraints: position [i] is un-marked
    when it is marked and fewer than [excess] marks have been dropped. *)
Definition drop_step (excess : nat) (st : list bool * nat) (i : nat)
  : list bool * nat :=
  let '(cstr_b, unbound) := st in
  if nth i cstr_b false && (unbound <? excess)%nat
  then (Np.set_nth i false cstr_b, S unbound)
  else (cstr_b, unbound).

Definition drop_excess (n_cstr excess : nat) (cstr_b : list bool) : list bool :=
  fst (fold_left (drop_step excess) (seq 0 n_cstr) (cstr_b, 0%nat)).

(** The binding constraints of one iteration of [_grg], from
    [cstr_b = np.reshape(...)] to [n_binding = sum(cstr_b).item()]. *)
Definition binding_constraints (g0 : vec) (n_vars n_cstr n_ineq_cstr : nat)
  (s : Settings) : M (list bool * nat) :=
  let cstr_b := initial_binding g0 n_cstr n_ineq_cstr s in
  if negb (List.length cstr_b =? n_cstr)%nat
  then raise (ValueError "cannot reshape array")
  else
    n_binding <- asscalar_sum cstr_b ;;
    if (n_vars <? n_binding)%nat then
      when (verbose s) (print "Ignoring {0} binding constraints.") ;;;
      let cstr_b := drop_excess n_cstr (n_binding - n_vars) cstr_b in
      ret (cstr_b, Np.count_true cstr_b)
    else ret (cstr_b, Np.count_true cstr_b).

(** ** The GRG driver: partition of the variables *)

(** [m[:, j] = col] and [m[i, j] = v] on a matrix given by rows. *)
Definition set_column (j : nat) (col : vec) (m : matrix) : matrix :=
  map (fun p => Np.set_nth j (snd p) (fst p)) (combine m col).
Definition set_entry (i j : nat) (v : float) (m : matrix) : matrix :=
  Np.set_nth i (Np.set_nth j v (nth i m [])) m.

(** What [_partition_vars] returns. *)
Record partition : Type := {
  z0 : vec;
  del_f_z0 : vec;
  d_psi_d_z0 : matrix;
  z_ind0 : list nat;
  y0 : vec;
  del_f_y0 : vec;
  d_psi_d_y0 : matrix;
  y_ind0 : list nat
}.

Definition mem (i : nat) (l : list nat) : bool := existsb (Nat.eqb i) l.

Section Partition.

Variable svd : matrix -> vec.
Variable settings : Settings.
Variables n_vars n_binding : nat.
Variable variables0 : vec.
Variable del_f0 : vec.
Variable d_psi_d_x0 : matrix.

(** The search for the independent variables: turn [i] takes the
    variable [var_ind = i], a slack variable while [var_ind < n_binding]. *)
Definition independent_step (p : partition) (i : nat) : partition :=
  let var_ind := i in
  if (var_ind <? n_binding)%nat then
    {| z0 := Np.set_nth i (nth var_ind variables0 0) (z0 p);
       del_f_z0 := Np.set_nth i 0 (del_f_z0 p);
       d_psi_d_z0 := set_entry i i 1 (d_psi_d_z0 p);
       z_ind0 := z_ind0 p ++ [var_ind];
       y0 := y0 p; del_f_y0 := del_f_y0 p; d_psi_d_y0 := d_psi_d_y0 p;
       y_ind0 := y_ind0 p |}
  else
    {| z0 := Np.set_nth i (nth var_ind variables0 0) (z0 p);
       del_f_z0 := Np.set_nth i (nth (var_ind - n_binding) del_f0 0) (del_f_z0 p);
       d_psi_d_z0 := set_column i (Np.column d_psi_d_x0 (var_ind - n_binding))
                                (d_psi_d_z0 p);
       z_ind0 := z_ind0 p ++ [var_ind];
       y0 := y0 p; del_f_y0 := del_f_y0 p; d_psi_d_y0 := d_psi_d_y0 p;
       y_ind0 := y_ind0 p |}.

(** The search for the dependent variables: turn [i] takes the next
    variable after [var_ind] that is not independent. *)
Definition dependent_step (st : partition * Z) (i : nat) : partition * Z :=
  let '(p, var_ind) := st in
  let from := Z.to_nat (var_ind + 1) in
  match find (fun v => negb (mem v (z_ind0 p)))
             (seq from (List.length (z_ind0 p) + 1)) with
  | Some v =>
      ({| z0 := z0 p; del_f_z0 := del_f_z0 p; d_psi_d_z0 := d_psi_d_z0 p;
          z_ind0 := z_ind0 p;
          y0 := Np.set_nth i (nth v variables0 0) (y0 p);
          del_f_y0 := Np.set_nth i (nth (v - n_binding) del_f0 0) (del_f_y0 p);
          d_psi_d_y0 := set_column i (Np.column d_psi_d_x0 (v - n_binding))
                                   (d_psi_d_y0 p);
          y_ind0 := y_ind0 p ++ [v] |}, Z.of_nat v)
  | None => st
  end.

(** One exchange of an independent and a dependent variable. *)
Definition swap (p : partition) (swap_var : nat) : partition :=
  let zi := (n_binding + swap_var)%nat in
  {| z0 := Np.set_nth zi (nth swap_var (y0 p) 0) (z0 p);
     del_f_z0 := Np.set_nth zi (nth swap_var (del_f_y0 p) 0) (del_f_z0 p);
     d_psi_d_z0 := set_column zi (Np.column (d_psi_d_y0 p) swap_var) (d_psi_d_z0 p);
     z_ind0 := Np.set_nth zi (nth swap_var (y_ind0 p) 0%nat) (z_ind0 p);
     y0 := Np.set_nth swap_var (nth zi (z0 p) 0) (y0 p);
     del_f_y0 := Np.set_nth swap_var (nth zi (del_f_z0 p) 0) (del_f_y0 p);
     d_psi_d_y0 := set_column swap_var (Np.column (d_psi_d_z0 p) zi) (d_psi_d_y0 p);
     y_ind0 := Np.set_nth swap_var (nth zi (z_ind0 p) 0%nat) (y_ind0 p) |}.

(** The loop that swaps until the matrix of the dependent variables is
    not singular. *)
Fixpoint swap_loop (fuel : nat) (p : partition) (swap_var : nat) : M partition :=
  match fuel with
  | O => out_of_fuel
  | S fuel' =>
      if Np.any_abs_lt (svd (d_psi_d_y0 p)) 1e-14 then
        when (verbose settings) (print "Swapping independent and dependent variables.") ;;;
        if (n_vars <=? n_binding + swap_var)%nat || (n_binding <=? swap_var)%nat
        then raise (IndexError "list index out of range")
        else swap_loop fuel' (swap p swap_var) (S swap_var)
      else ret p
  end.

(** [_partition_vars(n_vars, n_binding, variables0, del_f0, d_psi_d_x0,
    settings)]. *)
Definition _partition_vars (fuel : nat) : M partition :=
  let start :=
    {| z0 := Np.zeros n_vars; del_f_z0 := Np.zeros n_vars;
       d_psi_d_z0 := repeat (Np.zeros n_vars) n_binding; z_ind0 := [];
       y0 := Np.zeros n_binding; del_f_y0 := Np.zeros n_binding;
       d_psi_d_y0 := repeat (Np.zeros n_binding) n_binding; y_ind0 := [] |} in
  let p := fold_left independent_step (seq 0 n_vars) start in
  let p := fst (fold_left dependent_step (seq 0 n_binding) (p, (-1)%Z)) in
  swap_loop fuel p 0.

End Partition.

(** ** The GRG driver: line search and main loop *)

(** The arrays one attempt of the line search leaves in [x_search],
    [f_search] and [g_search]. *)
Record grg_samples : Type := {
  xs_T : matrix;
  fs : vec;
  gs_T : matrix
}.

Section Grg.

Variable svd : matrix -> vec.
Variable solve : matrix -> vec -> option vec.

(** [_eval_search_point], the task the pool runs for one trial point:
    [None] when a warning was raised on the way, else the point with its
    objective and constraint values.  The task is an argument: its
    warnings are those of numpy and of the user's functions. *)
Variable _eval_search_point :
  Objective -> list Constraint -> vec -> vec -> float -> vec -> matrix -> matrix ->
  list nat -> list nat -> nat -> nat -> list bool -> Settings ->
  M (option (vec * float * vec)).

Variable f : Objective.
Variable g : list Constraint.
Variable settings : Settings.

(** The constraint test of the line search on the values [gk] of one
    sample: an inequality constraint below [-cstr_tol] or an equality
    constraint off by more than [cstr_tol]. *)
Definition infeasible (gk : vec) : bool :=
  Np.any_lt (firstn (n_ineq_cstr settings) gk) (- cstr_tol settings)
  || existsb (fun v => cstr_tol settings <? abs v) (skipn (n_ineq_cstr settings) gk).

(** [while min_ind > 0 and infeasible: min_ind -= 1]. *)
Fixpoint step_back (gs_T : matrix) (min_ind : nat) : nat :=
  match min_ind with
  | O => O
  | S k => if infeasible (Np.column gs_T min_ind) then step_back gs_T k else min_ind
  end.

Section LineSearch.

Variables s z0 y0 : vec.
Variables z_ind0 y_ind0 : list nat.
Variable f0 : float.
Variable g0 : vec.
Variable cstr_b : list bool.
Variables d_psi_d_z0 d_psi_d_y0 : matrix.
Variables n_vars n_cstr n_binding : nat.

(** One attempt: the starting point, then the trial points that came
    back, in the order of their steps. *)
Definition grg_attempt (alpha : float) : M (grg_samples * nat) :=
  let var_i :=
    if negb (n_binding =? 0)%nat
    then Np.assign_at y_ind0 y0 (Np.assign_at z_ind0 z0 (Np.zeros (n_vars + n_binding)))
    else z0 in
  point_evals <-
    map_m (fun i =>
             _eval_search_point f g z0 y0 (alpha * of_nat i) s d_psi_d_y0 d_psi_d_z0
               z_ind0 y_ind0 n_vars n_binding cstr_b settings)
          (seq 1 (n_search settings)) ;;
  let kept :=
    flat_map (fun point_vals =>
                match point_vals with
                | Some v => [v]
                | None => []
                end) point_evals in
  let x_search := skipn n_binding var_i :: map (fun v => fst (fst v)) kept in
  let f_search := f0 :: map (fun v => snd (fst v)) kept in
  let g_search := g0 :: map (fun v => snd v) kept in
  ret ({| xs_T := Np.array_T x_search; fs := f_search; gs_T := Np.array_T g_search |},
       List.length x_search).

(** The loop over the step size with its [else] branch. *)
Fixpoint grg_alpha_loop (fuel : nat) (alpha : float) (last : option grg_samples)
  : M (vec * float * vec * Z) :=
  match fuel with
  | O => out_of_fuel
  | S fuel' =>
      if termination_tol settings <? alpha then
        when (verbose settings) (print "Step size: {0}") ;;;
        r <- grg_attempt alpha ;;
        let '(a, count) := r in
        if (count =? 1)%nat then
          when (verbose settings) (print "Minimum not found. Decreasing step size.") ;;;
          grg_alpha_loop fuel' (alpha / alpha_mult settings) (Some a)
        else
          when (verbose settings)
               (for_each (seq 0 count) (fun _ => print "{0:>20E}")) ;;;
          let min_ind := Np.argmin (fs a) in
          let min_ind := step_back (gs_T a) min_ind in
          let min_ind :=
            if (min_ind =? 0)%nat && infeasible (Np.column (gs_T a) min_ind)
            then (min_ind + 1)%nat else min_ind in
          if (min_ind =? n_search settings)%nat then
            when (verbose settings) (print "Minimum not found. Increasing step size.") ;;;
            grg_alpha_loop fuel' (alpha * alpha_mult settings) (Some a)
          else if (min_ind =? 0)%nat then
            when (verbose settings) (print "Minimum not found. Decreasing step size.") ;;;
            grg_alpha_loop fuel' (alpha / alpha_mult settings) (Some a)
          else
            ret (Np.column (xs_T a) min_ind, nth min_ind (fs a) 0,
                 Np.column (gs_T a) min_ind, 1%Z)
      else
        a <- read_local "x_search" last ;;
        let x1 := Np.column (xs_T a) 0 in
        let f1 := nth 0 (fs a) 0 in
        let g1 := Np.column (gs_T a) 0 in
        if (List.length (xs_T a) =? 1)%nat
        then ret (x1, f1, g1, (-1)%Z)
        else ret (x1, f1, g1, 1%Z)
  end.

(** [_grg_line_search(s, z0, z_ind0, y0, y_ind0, f, f0, g, g0, cstr_b,
    alpha, d_psi_d_z0, d_psi_d_y0, n_vars, n_cstr, n_binding, settings)]. *)
Definition _grg_line_search (fuel : nat) (alpha : float) : M (vec * float * vec * Z) :=
  when (verbose settings)
       (print "Line Search------------------------------" ;;; print "{0:>20}") ;;;
  let alpha := if alpha_reset settings then alpha_init settings else alpha in
  grg_alpha_loop fuel alpha None.

End LineSearch.

(** [cstr_calls], one counter per constraint. *)
Definition read_cstr_calls (n_cstr : nat) : M (list nat) :=
  fun w =>
    (Ok (map (fun i => List.length (filter (is_constraint_call i) (skipn (o_born f) w)))
             (seq 0 n_cstr)), w).

(** The local variables of [_grg] across the turns of its loop; [x1] and
    [f1] are assigned by the first line search. *)
Record grg_locals : Type := {
  g_iter : Z;
  g_mag_dx : float;
  g_x0 : vec;
  g_f0 : float;
  g_g0 : vec;
  g_x1 : option vec;
  g_f1 : option float
}.

(** The loop of [_grg] and the return after it. *)
Fixpoint grg_loop (fuel : nat) (n_vars : nat) (l : grg_locals) : M OptimizerResult :=
  let n_cstr := n_cstr settings in
  let n_ineq_cstr := n_ineq_cstr settings in
  match fuel with
  | O => out_of_fuel
  | S fuel' =>
      if (termination_tol settings <? g_mag_dx l)
         && below_max_iterations (g_iter l) settings then
        let iter := (g_iter l + 1)%Z in
        grads <- _eval_grad settings (g_x0 l) f g n_vars n_cstr ;;
        let '(del_f0, del_g0) := grads in
        append_file settings ;;;
        b <- binding_constraints (g_g0 l) n_vars n_cstr n_ineq_cstr settings ;;
        let '(cstr_b, n_binding) := b in
        when (verbose settings) (print "{0} binding constraints") ;;;
        let d_psi_d_x0 := Np.mneg (Np.select cstr_b (Np.transpose n_cstr del_g0)) in
        let s0 := Np.select cstr_b (g_g0 l) in
        let variables0 := s0 ++ g_x0 l in
        p <- _partition_vars svd settings n_vars n_binding variables0 del_f0
               d_psi_d_x0 fuel ;;
        del_f_r0 <-
          (if negb (n_binding =? 0)%nat then
             match solve (d_psi_d_y0 p) (del_f_y0 p) with
             | None => raise (LinAlgError "Singular matrix")
             | Some x =>
                 ret (Np.vsub (del_f_z0 p)
                        (Np.matvec (Np.transpose n_vars (d_psi_d_z0 p)) x))
             end
           else ret (del_f_z0 p)) ;;
        if Np.norm del_f_r0 <? grad_tol settings then
          cstr_calls <- read_cstr_calls n_cstr ;;
          calls <- eval_calls f ;;
          ret (OptimizerResult_ (g_f0 l) (g_x0 l) true
                 "Gradient termination tolerance reached (magnitude = {0})."
                 iter calls cstr_calls)
        else
          let s := Np.vdiv (Np.vneg del_f_r0) (Np.norm del_f_r0) in
          when (verbose settings) (print "Search Direction: {0}") ;;;
          r <- _grg_line_search s (z0 p) (y0 p) (z_ind0 p) (y_ind0 p) (g_f0 l) (g_g0 l)
                 cstr_b (d_psi_d_z0 p) (d_psi_d_y0 p) n_vars n_binding fuel
                 (g_mag_dx l) ;;
          let '(x1, f1, g1, err) := r in
          if (err =? -1)%Z then
            cstr_calls <- read_cstr_calls n_cstr ;;
            calls <- eval_calls f ;;
            ret (OptimizerResult_ f1 x1 false
                   "Failed to converge to one or more constraint boundaries."
                   iter calls cstr_calls)
          else
            let delta_x := Np.vsub x1 (g_x0 l) in
            grg_loop fuel' n_vars
              {| g_iter := iter; g_mag_dx := Np.norm delta_x; g_x0 := x1;
                 g_f0 := f1; g_g0 := g1; g_x1 := Some x1; g_f1 := Some f1 |}
      else
        _eval_grad settings (g_x0 l) f g n_vars n_cstr ;;;
        append_file settings ;;;
        cstr_calls <- read_cstr_calls n_cstr ;;
        f1 <- read_local "f1" (g_f1 l) ;;
        x1 <- read_local "x1" (g_x1 l) ;;
        calls <- eval_calls f ;;
        ret (OptimizerResult_ f1 x1 true
               "Step termination tolerance reached (magnitude = {0})."
               (g_iter l) calls cstr_calls)
  end.

(** [_grg(f, g, x_start, settings)]. *)
Definition _grg (fuel : nat) (x_start : vec) : M OptimizerResult :=
  let n_vars := List.length x_start in
  f0 <- f_f f x_start ;;
  g0 <- _eval_constr g x_start ;;
  grg_loop fuel n_vars
    {| g_iter := 0; g_mag_dx := 1; g_x0 := x_start; g_f0 := f0; g_g0 := g0;
       g_x1 := None; g_f1 := None |}.

End Grg.

(** ** The SQP driver *)

(** [_get_del_2_L(del_2_L0, del_f0, del_f1, l, del_g0, del_g1, n_vars,
    n_cstr, delta_x)]. *)
Definition _get_del_2_L (del_2_L0 : matrix) (del_f0 del_f1 l : vec)
  (del_g0 del_g1 : matrix) (n_vars n_cstr : nat) (delta_x : vec) : matrix :=
  let lagrangian (del_f : vec) (del_g : matrix) :=
    fold_left (fun del_L i =>
                 Np.vsub del_L (map (fun v => nth i l 0 * v) (Np.column del_g i)))
              (seq 0 n_cstr) del_f in
  let del_L0 := lagrangian del_f0 del_g0 in
  let del_L1 := lagrangian del_f1 del_g1 in
  let gamma_0 := Np.vsub del_L1 del_L0 in
  let first := map (fun r => Np.vdiv r (Np.inner gamma_0 delta_x))
                   (Np.outer gamma_0 gamma_0) in
  let second :=
    map (fun r => Np.vdiv r (Np.inner delta_x (Np.matvec del_2_L0 delta_x)))
        (Np.matmul n_vars (Np.matmul n_vars del_2_L0 (Np.outer delta_x delta_x))
                   del_2_L0) in
  Np.msub (Np.madd del_2_L0 first) second.

(** The local variables of [_sqp] across the turns of its loops; [x1],
    [f1] and [g1] are assigned by the first step. *)
Record sqp_locals : Type := {
  s_iter : Z;
  s_o_iter : Z;
  s_mag_dx : float;
  s_x0 : vec;
  s_x1 : option vec;
  s_f1 : option float
}.

Record sqp_inner : Type := {
  i_del_2_L0 : matrix;
  i_del_f0 : vec;
  i_del_g0 : matrix;
  i_delta_x : vec;
  i_l : vec;
  i_x1 : vec;
  i_f1 : float;
  i_g1 : vec;
  i_P1 : float
}.

Section Sqp.

Variable svd : matrix -> vec.
Variable solve : matrix -> vec -> option vec.
Variable f : Objective.
Variable g : list Constraint.
Variable settings : Settings.

(** The inner iteration. *)
Fixpoint sqp_inner_loop (fuel : nat) (n_vars : nat) (l : sqp_locals) (v : sqp_inner)
  : M (flow OptimizerResult sqp_locals) :=
  let n_cstr := n_cstr settings in
  let n_ineq_cstr := n_ineq_cstr settings in
  match fuel with
  | O => out_of_fuel
  | S fuel' =>
      if termination_tol settings <? s_mag_dx l then
        let iter := (s_iter l + 1)%Z in
        grads <- _eval_grad settings (i_x1 v) f g n_vars n_cstr ;;
        let '(del_f1, del_g1) := grads in
        if Np.norm del_f1 <? grad_tol settings then
          cstr_calls <- read_cstr_calls f n_cstr ;;
          calls <- eval_calls f ;;
          ret (Return (OptimizerResult_ (i_f1 v) (i_x1 v) true
                         "Gradient termination tolerance reached." iter calls cstr_calls))
        else
          let del_2_L1 :=
            _get_del_2_L (i_del_2_L0 v) (i_del_f0 v) del_f1 (i_l v) (i_del_g0 v)
                         del_g1 n_vars n_cstr (i_delta_x v) in
          append_file settings ;;;
          step <- _get_delta_x svd solve f g settings (i_x1 v) n_vars n_cstr n_ineq_cstr
                    del_2_L1 del_f1 del_g1 (i_g1 v) fuel (i_P1 v) ;;
          let '(delta_x, l', x2, f2, g2, P2) := step in
          let mag_dx := Np.norm delta_x in
          let v' := {| i_del_2_L0 := del_2_L1; i_del_f0 := del_f1; i_del_g0 := del_g1;
                       i_delta_x := delta_x; i_l := l'; i_x1 := x2; i_f1 := f2;
                       i_g1 := g2; i_P1 := P2 |} in
          if (mag_dx <? termination_tol settings) && (f2 <? P2) then
            when (verbose settings)
                 (print "Stuck at optimum outside of feasible space. Resetting BFGS update.") ;;;
            ret (Next {| s_iter := iter; s_o_iter := s_o_iter l; s_mag_dx := 1;
                         s_x0 := i_x1 v; s_x1 := Some x2; s_f1 := Some f2 |})
          else
            sqp_inner_loop fuel' n_vars
              {| s_iter := iter; s_o_iter := s_o_iter l; s_mag_dx := mag_dx;
                 s_x0 := i_x1 v; s_x1 := Some x2; s_f1 := Some f2 |} v'
      else ret (Next l)
  end.

(** The outer iteration and the final case after it. *)
Fixpoint sqp_outer_loop (fuel : nat) (n_vars : nat) (l : sqp_locals)
  : M OptimizerResult :=
  let n_cstr := n_cstr settings in
  let n_ineq_cstr := n_ineq_cstr settings in
  match fuel with
  | O => out_of_fuel
  | S fuel' =>
      if below_max_iterations (s_iter l) settings
         && (termination_tol settings <? s_mag_dx l) then
        when (verbose settings) (print "Setting Lagrangian Hessian to the identity matrix.") ;;;
        let iter := (s_iter l + 1)%Z in
        f0 <- f_f f (s_x0 l) ;;
        g0 <- _eval_constr g (s_x0 l) ;;
        grads <- _eval_grad settings (s_x0 l) f g n_vars n_cstr ;;
        let '(del_f0, del_g0) := grads in
        let del_2_L0 := Np.mscale (Np.eye n_vars) (hess_init settings) in
        append_file settings ;;;
        let P0 := fold_left (fun P0 constr => if constr <? 0 then P0 - constr else P0)
                            g0 f0 in
        step <- _get_delta_x svd solve f g settings (s_x0 l) n_vars n_cstr n_ineq_cstr
                  del_2_L0 del_f0 del_g0 g0 fuel P0 ;;
        let '(delta_x, l', x1, f1, g1, P1) := step in
        out <- sqp_inner_loop fuel n_vars
                 {| s_iter := iter; s_o_iter := (s_o_iter l + 1)%Z;
                    s_mag_dx := Np.norm delta_x; s_x0 := s_x0 l;
                    s_x1 := Some x1; s_f1 := Some f1 |}
                 {| i_del_2_L0 := del_2_L0; i_del_f0 := del_f0; i_del_g0 := del_g0;
                    i_delta_x := delta_x; i_l := l'; i_x1 := x1; i_f1 := f1;
                    i_g1 := g1; i_P1 := P1 |} ;;
        match out with
        | Return r => ret r
        | Next l' => sqp_outer_loop fuel' n_vars l'
        end
      else
        let iter := (s_iter l + 1)%Z in
        x1 <- read_local "x1" (s_x1 l) ;;
        _eval_grad settings x1 f g n_vars n_cstr ;;;
        append_file settings ;;;
        cstr_calls <- read_cstr_calls f n_cstr ;;
        f1 <- read_local "f1" (s_f1 l) ;;
        calls <- eval_calls f ;;
        ret (OptimizerResult_ f1 x1 true "Step termination tolerance reached."
               iter calls cstr_calls)
  end.

(** [_sqp(f, g, x_start, settings)]. *)
Definition _sqp (fuel : nat) (x_start : vec) : M OptimizerResult :=
  sqp_outer_loop fuel (List.length x_start)
    {| s_iter := 0; s_o_iter := 0; s_mag_dx := 1; s_x0 := x_start;
       s_x1 := None; s_f1 := None |}.

End Sqp.

(** ** The orchestrator *)

Section Minimize.

Variable ops : Scalars.
Variable quadratic : vec -> vec -> QuadraticFit.
Variable array_as_index : list nat -> option nat.
Variable svd : matrix -> vec.
Variable solve : matrix -> vec -> option vec.
Variable _eval_search_point :
  Objective -> list Constraint -> vec -> vec -> float -> vec -> matrix -> matrix ->
  list nat -> list nat -> nat -> nat -> list bool -> Settings ->
  M (option (vec * float * vec)).

(** The constrained drivers take the length of [g] first. *)
Definition the_list (g : option (list Constraint)) : M (list Constraint) :=
  match g with
  | Some l => ret l
  | None => raise (TypeError "object of type 'NoneType' has no len()")
  end.

(** [_find_minimum(f, g, x_start, settings)]. *)
Definition _find_minimum (fuel : nat) (f : Objective) (g : option (list Constraint))
  (x_start : vec) (s : Settings) : M OptimizerResult :=
  if String.eqb (method s) "bfgs" then _bfgs ops quadratic array_as_index f s fuel x_start
  else if String.eqb (method s) "sqp" then
    l <- the_list g ;; _sqp svd solve f l s fuel x_start
  else if String.eqb (method s) "grg" then
    l <- the_list g ;; _grg svd solve _eval_search_point f l s fuel x_start
  else raise (ValueError "Method improperly specified.").

(** [if constraints == None: settings.method = "bfgs"]. *)
Definition override_method (settings : Settings)
  (constraints : option (list ConstraintSpec)) : Settings :=
  match constraints with
  | None => set_method "bfgs" settings
  | Some _ => settings
  end.

(** What [minimize] has at hand when it calls [_find_minimum]. *)
Record prepared : Type := {
  p_f : Objective;
  p_g : option (list Constraint);
  p_settings : Settings;
  p_writer : option unit
}.

(** [minimize], from the creation of the queue to the start of the
    writer for more than one process. *)
Definition prepare (fn : vec -> float) (n_vars : nat) (settings : Settings)
  (grad : option (vec -> vec)) (constraints : option (list ConstraintSpec))
  : M prepared :=
  emit QueueCreated ;;;
  f <- new_objective fn grad ;;
  let settings := override_method settings constraints in
  let '(g, n_cstr, n_ineq_cstr) := get_constraints constraints in
  let settings := set_counts n_cstr n_ineq_cstr settings in
  if (n_vars <? n_cstr - n_ineq_cstr)%nat
  then raise (IOError "There are too many equality constraints; the problem is overconstrained.")
  else
    print_setup settings ;;;
    settings <- format_output_files settings ;;
    writer <- (if (1 <? max_processes settings)%nat
               then start_writer settings ;;; ret (Some tt)
               else ret None) ;;
    ret {| p_f := f; p_g := g; p_settings := settings; p_writer := writer |}.

(** [minimize], after the driver has returned. *)
Definition conclude (p : prepared) (opt : OptimizerResult) : M OptimizerResult :=
  writer <- (if (max_processes (p_settings p) =? 1)%nat
             then start_writer (p_settings p) ;;; ret (Some tt)
             else ret (p_writer p)) ;;
  emit (QueuePut "kill") ;;;
  read_local "writer" writer ;;;
  ret opt.

(** [minimize(fun, x0, **kwargs)]: [settings] is what the keyword
    options give; [grad] and [constraints] are read from them. *)
Definition minimize (fuel : nat) (fn : vec -> float) (x0 : vec) (settings : Settings)
  (grad : option (vec -> vec)) (constraints : option (list ConstraintSpec))
  : M OptimizerResult :=
  let n_vars := List.length x0 in
  let x_start := x0 in
  emit (PoolOpened (max_processes settings)) ;;;
  finally
    (p <- prepare fn n_vars settings grad constraints ;;
     opt <- _find_minimum fuel (p_f p) (p_g p) x_start (p_settings p) ;;
     conclude p opt)
    (emit PoolExited).

End Minimize.

End Canonical.

(* ================================================================== *)
(** * Properties *)
(* ================================================================== *)

Import Py Model.

(** ** Computations, step by step *)

Lemma bind_Ok {A B} (m : M A) (k : A -> M B) (w w' : trace) (a : A) :
  m w = (Ok a, w') -> bind m k w = k a w'.
Proof. intros H. unfold bind. now rewrite H. Qed.

Lemma bind_Raise {A B} (m : M A) (k : A -> M B) (w w' : trace) (e : exn) :
  m w = (Raise e, w') -> bind m k w = (Raise e, w').
Proof. intros H. unfold bind. now rewrite H. Qed.

Lemma bind_OutOfFuel {A B} (m : M A) (k : A -> M B) (w w' : trace) :
  m w = (OutOfFuel, w') -> bind m k w = (OutOfFuel, w').
Proof. intros H. unfold bind. now rewrite H. Qed.

Lemma emit_run (e : event) (w : trace) : emit e w = (Ok tt, w ++ [e]).
Proof. reflexivity. Qed.

Lemma print_run (text : string) (w : trace) :
  print text w = (Ok tt, w ++ [Console text]).
Proof. reflexivity. Qed.

Lemma when_run (c : bool) (text : string) (w : trace) :
  when c (print text) w = (Ok tt, w ++ if c then [Console text] else []).
Proof. destruct c; simpl; [reflexivity | now rewrite app_nil_r]. Qed.

(** ** The constraint-list builder *)

Definition is_ineq (c : ConstraintSpec) : bool := String.eqb (spec_type c) "ineq".
Definition is_eq (c : ConstraintSpec) : bool := String.eqb (spec_type c) "eq".

Lemma ineq_pass_from (cs : list ConstraintSpec) (n : nat) (g : list Constraint) :
  fold_left
    (fun (st : nat * list Constraint) constraint =>
       if String.eqb (spec_type constraint) "ineq"
       then (S (fst st), snd st ++ [Legacy.Constraint_ constraint])
       else st)
    cs (n, g)
  = (n + List.length (filter is_ineq cs),
     g ++ map Legacy.Constraint_ (filter is_ineq cs))%nat.
Proof.
  revert n g.
  induction cs as [|c cs IH]; intros n g; simpl.
  - now rewrite Nat.add_0_r, app_nil_r.
  - change (String.eqb (spec_type c) "ineq") with (is_ineq c).
    destruct (is_ineq c); simpl.
    + rewrite IH. simpl. rewrite <- app_assoc. simpl.
      f_equal. lia.
    + apply IH.
Qed.

Lemma ineq_pass_filter (cs : list ConstraintSpec) :
  Legacy.ineq_pass cs
  = (List.length (filter is_ineq cs), map Legacy.Constraint_ (filter is_ineq cs)).
Proof. unfold Legacy.ineq_pass. now rewrite ineq_pass_from. Qed.

Lemma eq_pass_filter (cs : list ConstraintSpec) (g : list Constraint) :
  Legacy.eq_pass cs g = g ++ map Legacy.Constraint_ (filter is_eq cs).
Proof.
  unfold Legacy.eq_pass.
  revert g.
  induction cs as [|c cs IH]; intros g; simpl.
  - now rewrite app_nil_r.
  - change (String.eqb (spec_type c) "eq") with (is_eq c).
    destruct (is_eq c); simpl.
    + rewrite IH, <- app_assoc. reflexivity.
    + apply IH.
Qed.

(** With every tag one of the two, the two filters split the list. *)
Lemma tags_partition (cs : list ConstraintSpec) :
  (forall c, In c cs -> spec_type c = "eq"%string \/ spec_type c = "ineq"%string) ->
  (List.length (filter is_ineq cs) + List.length (filter is_eq cs) = List.length cs)%nat.
Proof.
  induction cs as [|c cs IH]; intros H; simpl; [reflexivity|].
  assert (Hc := H c (or_introl eq_refl)).
  assert (IH' := IH (fun c' Hin => H c' (or_intror Hin))).
  unfold is_ineq at 1, is_eq at 1.
  destruct Hc as [E | E]; rewrite E; simpl; lia.
Qed.

(** C1, as the code has it: for every list of specifications whose tags
    are "eq" or "ineq", in any mixture and order, [get_constraints]
    returns the adapters of the inequality entries in input order
    followed by those of the equality entries in input order, with
    [n_ineq_cstr] the number of "ineq" entries and [n_cstr] the number of
    entries, which is the length of the adapter list; an empty list
    gives an empty adapter list and zero counts; when no list is given
    ([None]) both counts are zero and the list returned is [None]. *)
Theorem C1_get_constraints_order (cs : list ConstraintSpec) :
  (forall c, In c cs -> spec_type c = "eq"%string \/ spec_type c = "ineq"%string) ->
  let g := map Legacy.Constraint_ (filter is_ineq cs)
           ++ map Legacy.Constraint_ (filter is_eq cs) in
  Legacy.get_constraints (Some cs)
  = (Some g, List.length cs, List.length (filter is_ineq cs))
  /\ List.length g = List.length cs
  /\ (forall i, (i < List.length (filter is_ineq cs))%nat ->
        option_map c_type (nth_error g i) = Some "ineq"%string)
  /\ (forall i, (List.length (filter is_ineq cs) <= i < List.length cs)%nat ->
        option_map c_type (nth_error g i) = Some "eq"%string)
  /\ Legacy.get_constraints (Some []) = (Some [], 0%nat, 0%nat)
  /\ Legacy.get_constraints None = (None, 0%nat, 0%nat).
Proof.
  intros Htags g.
  assert (Hlen := tags_partition cs Htags).
  repeat split.
  - unfold Legacy.get_constraints.
    rewrite ineq_pass_filter, eq_pass_filter. reflexivity.
  - unfold g. rewrite length_app, !length_map. exact Hlen.
  - intros i Hi. unfold g.
    rewrite nth_error_app1 by (now rewrite length_map).
    rewrite nth_error_map.
    destruct (nth_error (filter is_ineq cs) i) as [c|] eqn:E.
    + apply nth_error_In, filter_In in E. destruct E as [_ E].
      simpl. f_equal. now apply String.eqb_eq.
    + apply nth_error_None in E. lia.
  - intros i [Hlo Hhi]. unfold g.
    rewrite nth_error_app2 by (now rewrite length_map).
    rewrite length_map, nth_error_map.
    destruct (nth_error (filter is_eq cs) (i - List.length (filter is_ineq cs)))
      as [c|] eqn:E.
    + apply nth_error_In, filter_In in E. destruct E as [_ E].
      simpl. f_equal. now apply String.eqb_eq.
    + apply nth_error_None in E. lia.
Qed.

Definition sample_fun (x : vec) : float := nth 0 x 0%float.

Definition sample_specs : list ConstraintSpec :=
  [ {| spec_type := "eq"; spec_fun := sample_fun; spec_grad := None |};
    {| spec_type := "ineq"; spec_fun := sample_fun; spec_grad := None |};
    {| spec_type := "eq"; spec_fun := sample_fun; spec_grad := None |} ].

Lemma sample_specs_tags :
  forall c, In c sample_specs ->
            spec_type c = "eq"%string \/ spec_type c = "ineq"%string.
Proof.
  intros c [<- | [<- | [<- | []]]]; simpl; auto.
Qed.

Lemma C1_get_constraints_order_witness :
  Legacy.get_constraints (Some sample_specs)
  = (Some (map Legacy.Constraint_ (filter is_ineq sample_specs)
           ++ map Legacy.Constraint_ (filter is_eq sample_specs)),
     3%nat, 1%nat).
Proof.
  exact (proj1 (C1_get_constraints_order sample_specs sample_specs_tags)).
Defined.

(** C1 as stated does not hold where no list is given: the builder then
    returns [None], not an empty list. *)
Lemma C1_no_constraints_counterexample :
  Legacy.get_constraints None <> (Some [], 0%nat, 0%nat).
Proof. discriminate. Qed.

(** ** The binding constraints of a GRG iteration *)

(** The loop that ignores binding constraints, by recursion on the marks:
    [unbound] marks have been dropped so far. *)
Fixpoint unmark (excess unbound : nat) (cstr_b : list bool) : list bool :=
  match cstr_b with
  | [] => []
  | c :: rest =>
      if c && (unbound <? excess)%nat
      then false :: unmark excess (S unbound) rest
      else c :: unmark excess unbound rest
  end.

Lemma set_nth_middle {A} (pre : list A) (x v : A) (rest : list A) :
  Np.set_nth (List.length pre) v (pre ++ x :: rest) = pre ++ v :: rest.
Proof. induction pre as [|p pre IH]; simpl; [reflexivity | now rewrite IH]. Qed.

Lemma drop_loop_unmark (excess : nat) (rest pre : list bool) (unbound : nat) :
  fst (fold_left (Canonical.drop_step excess)
                 (seq (List.length pre) (List.length rest)) (pre ++ rest, unbound))
  = pre ++ unmark excess unbound rest.
Proof.
  revert pre unbound.
  induction rest as [|c rest IH]; intros pre unbound; simpl; [reflexivity|].
  rewrite nth_middle.
  destruct (c && (unbound <? excess)%nat) eqn:E.
  - rewrite set_nth_middle.
    specialize (IH (pre ++ [false]) (S unbound)).
    rewrite length_app, Nat.add_1_r, <- !app_assoc in IH. exact IH.
  - specialize (IH (pre ++ [c]) unbound).
    rewrite length_app, Nat.add_1_r, <- !app_assoc in IH. exact IH.
Qed.

Lemma drop_excess_unmark (excess : nat) (cstr_b : list bool) :
  Canonical.drop_excess (List.length cstr_b) excess cstr_b = unmark excess 0 cstr_b.
Proof.
  unfold Canonical.drop_excess.
  exact (drop_loop_unmark excess cstr_b [] 0).
Qed.

Lemma unmark_length (excess : nat) (b : list bool) (u : nat) :
  List.length (unmark excess u b) = List.length b.
Proof.
  revert u. induction b as [|c b IH]; intros u; simpl; [reflexivity|].
  destruct (c && (u <? excess)%nat); simpl; now rewrite IH.
Qed.

Lemma count_true_cons (c : bool) (b : list bool) :
  Np.count_true (c :: b) = ((if c then 1 else 0) + Np.count_true b)%nat.
Proof. unfold Np.count_true. simpl. destruct c; simpl; reflexivity. Qed.

Lemma count_true_app (a b : list bool) :
  Np.count_true (a ++ b) = (Np.count_true a + Np.count_true b)%nat.
Proof. unfold Np.count_true. apply count_occ_app. Qed.

Lemma count_true_repeat (n : nat) : Np.count_true (repeat true n) = n.
Proof.
  induction n as [|n IH]; [reflexivity|].
  simpl repeat. rewrite count_true_cons, IH. reflexivity.
Qed.

Lemma count_true_firstn_le (b : list bool) (i : nat) :
  (Np.count_true (firstn i b) <= Np.count_true b)%nat.
Proof.
  rewrite <- (firstn_skipn i b) at 2. rewrite count_true_app. lia.
Qed.

Lemma count_true_firstn_mono (b : list bool) (i j : nat) :
  (i <= j)%nat -> (Np.count_true (firstn i b) <= Np.count_true (firstn j b))%nat.
Proof.
  intros H.
  replace i with (Nat.min i j) by lia.
  rewrite <- firstn_firstn. apply count_true_firstn_le.
Qed.

(** Position [i] keeps its mark exactly when [excess] marks stand before it. *)
Lemma unmark_nth (excess : nat) (b : list bool) (u i : nat) :
  nth i (unmark excess u b) false
  = nth i b false && (excess <=? u + Np.count_true (firstn i b))%nat.
Proof.
  revert u i.
  induction b as [|c b IH]; intros u i.
  - simpl. destruct i; reflexivity.
  - simpl unmark.
    destruct c; simpl andb.
    + destruct (u <? excess)%nat eqn:E.
      * destruct i; simpl nth.
        -- simpl. rewrite Nat.add_0_r. symmetry. apply Nat.leb_gt.
           now apply Nat.ltb_lt.
        -- rewrite IH. simpl firstn. rewrite count_true_cons.
           do 2 f_equal. lia.
      * apply Nat.ltb_ge in E.
        destruct i; simpl nth.
        -- simpl. rewrite Nat.add_0_r. symmetry. now apply Nat.leb_le.
        -- rewrite IH. simpl firstn. rewrite count_true_cons.
           f_equal.
           transitivity true; [apply Nat.leb_le; lia | symmetry; apply Nat.leb_le; lia].
    + destruct i; simpl nth; [reflexivity|].
      rewrite IH. simpl firstn. rewrite count_true_cons. reflexivity.
Qed.

Lemma unmark_count (excess : nat) (b : list bool) (u : nat) :
  Np.count_true (unmark excess u b)
  = (Np.count_true b - Nat.min (excess - u) (Np.count_true b))%nat.
Proof.
  revert u.
  induction b as [|c b IH]; intros u; [reflexivity|].
  simpl unmark.
  destruct c; simpl andb.
  - destruct (u <? excess)%nat eqn:E.
    + apply Nat.ltb_lt in E.
      rewrite !count_true_cons, IH. lia.
    + apply Nat.ltb_ge in E.
      rewrite !count_true_cons, IH. lia.
  - rewrite !count_true_cons, IH. reflexivity.
Qed.

Lemma initial_binding_length (g0 : vec) (n_cstr n_ineq_cstr : nat) (s : Settings) :
  List.length g0 = n_cstr -> (n_ineq_cstr <= n_cstr)%nat ->
  List.length (Canonical.initial_binding g0 n_cstr n_ineq_cstr s) = n_cstr.
Proof.
  intros Hg Hle. unfold Canonical.initial_binding.
  rewrite length_app, length_map, length_firstn, repeat_length. lia.
Qed.

(** Before an equality position stand all the inequality marks. *)
Lemma marks_before_equality (g0 : vec) (n_cstr n_ineq_cstr : nat) (s : Settings) (i : nat) :
  List.length g0 = n_cstr -> (n_ineq_cstr <= n_cstr)%nat -> (n_ineq_cstr <= i)%nat ->
  let b0 := Canonical.initial_binding g0 n_cstr n_ineq_cstr s in
  (Np.count_true b0 - (n_cstr - n_ineq_cstr) <= Np.count_true (firstn i b0))%nat.
Proof.
  intros Hg Hle Hi b0.
  assert (Hpre : firstn n_ineq_cstr b0
                 = map (fun v => (v <=? cstr_tol s)%float) (firstn n_ineq_cstr g0)).
  { unfold b0, Canonical.initial_binding.
    rewrite firstn_app.
    rewrite length_map, length_firstn.
    replace (n_ineq_cstr - Nat.min n_ineq_cstr (List.length g0))%nat with 0%nat by lia.
    simpl. rewrite app_nil_r.
    apply firstn_all2. rewrite length_map, length_firstn. lia. }
  assert (Hall : Np.count_true b0
                 = (Np.count_true (firstn n_ineq_cstr b0) + (n_cstr - n_ineq_cstr))%nat).
  { rewrite Hpre. unfold b0, Canonical.initial_binding.
    now rewrite count_true_app, count_true_repeat. }
  pose proof (count_true_firstn_mono b0 Hi). lia.
Qed.

(** C4: in a GRG iteration where more constraints are binding than
    there are design variables, with the list ordered inequalities first
    and at most [n_vars] equality constraints, exactly the excess marks
    are dropped, the first ones in scan order; every dropped constraint
    is an inequality constraint, [n_vars] constraints stay binding and
    every equality constraint is among them. *)
Theorem C4_grg_drops_excess_inequalities
  (g0 : vec) (n_vars n_cstr n_ineq_cstr : nat) (s : Settings) (w : trace) :
  List.length g0 = n_cstr ->
  (n_ineq_cstr <= n_cstr)%nat ->
  (n_cstr - n_ineq_cstr <= n_vars)%nat ->
  let b0 := Canonical.initial_binding g0 n_cstr n_ineq_cstr s in
  let excess := (Np.count_true b0 - n_vars)%nat in
  (n_vars < Np.count_true b0)%nat ->
  exists b1,
    Canonical.binding_constraints g0 n_vars n_cstr n_ineq_cstr s w
    = (Ok (b1, n_vars),
       w ++ if verbose s then [Console "Ignoring {0} binding constraints."] else [])
    /\ List.length b1 = n_cstr
    /\ Np.count_true b1 = n_vars
    /\ (Np.count_true b0 - Np.count_true b1 = excess)%nat
    /\ (forall i, nth i b1 false
                  = nth i b0 false && (excess <=? Np.count_true (firstn i b0))%nat)
    /\ (forall i, nth i b0 false = true -> nth i b1 false = false ->
                  (i < n_ineq_cstr)%nat)
    /\ (forall i, (n_ineq_cstr <= i < n_cstr)%nat -> nth i b1 false = true).
Proof.
  intros Hg Hle Heq b0 excess Hover.
  assert (Hlen : List.length b0 = n_cstr) by now apply initial_binding_length.
  exists (unmark excess 0 b0).
  assert (Hcount : Np.count_true (unmark excess 0 b0) = n_vars).
  { rewrite unmark_count. unfold excess. lia. }
  assert (Hnth : forall i, nth i (unmark excess 0 b0) false
                   = nth i b0 false && (excess <=? Np.count_true (firstn i b0))%nat).
  { intros i. now rewrite unmark_nth. }
  repeat split.
  - unfold Canonical.binding_constraints. fold b0.
    rewrite Hlen, Nat.eqb_refl.
    change (negb true) with false. cbv iota.
    assert (Hne : forall b, (n_vars < Np.count_true b)%nat ->
                    Canonical.asscalar_sum b w = (Ok (Np.count_true b), w)).
    { intros [|c b'] Hb; [cbv in Hb; lia | reflexivity]. }
    rewrite (bind_Ok _ _ _ (Hne b0 Hover)).
    apply Nat.ltb_lt in Hover. rewrite Hover.
    fold excess.
    pose proof (drop_excess_unmark excess b0) as Hd. rewrite Hlen in Hd.
    rewrite Hd, Hcount.
    rewrite (bind_Ok _ _ _ (when_run _ _ _)). reflexivity.
  - now rewrite unmark_length.
  - exact Hcount.
  - rewrite Hcount. reflexivity.
  - exact Hnth.
  - intros i Hb0 Hb1.
    rewrite Hnth, Hb0 in Hb1. simpl in Hb1. apply Nat.leb_gt in Hb1.
    destruct (Nat.lt_ge_cases i n_ineq_cstr) as [Hi | Hi]; [exact Hi|].
    pose proof (@marks_before_equality g0 n_cstr n_ineq_cstr s i Hg Hle Hi) as Hm. cbv zeta in Hm. fold b0 in Hm.
    unfold excess in Hb1. lia.
  - intros i [Hlo Hhi].
    rewrite Hnth.
    assert (Hset : nth i b0 false = true).
    { unfold b0, Canonical.initial_binding.
      rewrite app_nth2; rewrite length_map, length_firstn; [|lia].
      apply nth_repeat_lt. lia. }
    rewrite Hset. simpl. apply Nat.leb_le.
    pose proof (@marks_before_equality g0 n_cstr n_ineq_cstr s i Hg Hle Hlo) as Hm. cbv zeta in Hm. fold b0 in Hm.
    unfold excess. lia.
Qed.

(** The settings with every option at its default (spec 3), for the
    examples. *)
Definition default_settings : Settings :=
  {| method := "bfgs"; termination_tol := 1e-12; grad_tol := 1e-12;
     verbose := false; central_diff := true; use_finite_diff := true;
     file_tag := ""; max_processes := 1; dx := 0.001; max_iterations := None;
     n_search := 8; alpha_init := 0.125; alpha_reset := false; alpha_mult := 7;
     alpha_d := None; search_type := "bracket"; rsq_tol := 0.8;
     wolfe_armijo := 1e-4; wolfe_curv := 0.9; hess_init := 1;
     strict_penalty := true; cstr_tol := 1e-4; n_cstr := 0; n_ineq_cstr := 0;
     opt_file := ""; grad_file := "" |}.

(** Two inequality constraints and one equality constraint, all three
    at zero, in two variables: one mark too many. *)
Lemma C4_grg_drops_excess_inequalities_witness :
  exists b1,
    Canonical.binding_constraints [0; 0; 0]%float 2 3 2 default_settings []
    = (Ok (b1, 2%nat), [])
    /\ b1 = [false; true; true].
Proof.
  destruct (@C4_grg_drops_excess_inequalities [0; 0; 0]%float 2 3 2
              default_settings [] eq_refl) as [b1 [Hrun _]];
    [lia | lia | vm_compute; lia |].
  exists b1. split; [exact Hrun|].
  vm_compute in Hrun. now inversion Hrun.
Defined.

(** ** The bracket fallback of the line search *)

Lemma index_nat {A} (l : list A) (i : nat) (x : A) (w : trace) :
  nth_error l i = Some x -> index l (Z.of_nat i) w = (Ok x, w).
Proof.
  intros H. unfold index.
  assert (Hlt : (i < List.length l)%nat) by (apply nth_error_Some; congruence).
  destruct (Z.ltb_spec (Z.of_nat i) 0) as [Hneg | _]; [lia|].
  destruct (Z.ltb_spec (Z.of_nat i) 0) as [Hneg | _]; [lia|].
  destruct (Z.leb_spec (Z.of_nat (List.length l)) (Z.of_nat i)) as [Hge | _]; [lia|].
  simpl. rewrite Nat2Z.id, H. reflexivity.
Qed.

(** A fit the quadratic method does not accept: no vertex, a negative
    vertex, a fit that is not convex, or an R2 below [rsq_tol]. *)
Definition fit_rejected (q : QuadraticFit) (s : Settings) : bool :=
  match vertex_alpha q with
  | None => true
  | Some alpha_opt =>
      (alpha_opt <? 0)%float || negb (convex q) || (rsq q <? rsq_tol s)%float
  end.

(** The quotient of the bracket method as C5 words it, with the literal
    first term [a2^2 - 2 a3]: its denominator, the quotient, which is an
    exception where a square or the division raises, and the step it
    gives: the quotient, or [a2] when the quotient is above [a3] or
    below [a1]. *)
Definition bracket_denominator (a1 a2 a3 f1 f2 f3 : float) : float :=
  (2 * (f1 * (a2 - a3) + f2 * (a3 - a1) + f3 * (a1 - a3)))%float.

Definition bracket_quotient (ops : Scalars) (a1 a2 a3 f1 f2 f3 : float)
  : outcome float :=
  match pow2 ops a1, pow2 ops a2, pow2 ops a3 with
  | Some a1_2, Some a2_2, Some a3_2 =>
      match truediv ops
              (f1 * (a2_2 - a3 * 2) + f2 * (a3_2 - a1_2) + f3 * (a1_2 - a2_2))%float
              (bracket_denominator a1 a2 a3 f1 f2 f3) with
      | Some q => Ok q
      | None => Raise (ZeroDivisionError "float division by zero")
      end
  | _, _, _ => Raise (OverflowError "(34, 'Numerical result out of range')")
  end.

Definition bracket_step (ops : Scalars) (a1 a2 a3 f1 f2 f3 : float)
  : outcome float :=
  match bracket_quotient ops a1 a2 a3 f1 f2 f3 with
  | Ok q => Ok (if ((a3 <? q) || (q <? a1))%float then a2 else q)
  | Raise e => Raise e
  | OutOfFuel => OutOfFuel
  end.

Lemma bind_ext {A B} (m : M A) (k1 k2 : A -> M B) (w : trace) :
  (forall x w', k1 x w' = k2 x w') -> bind m k1 w = bind m k2 w.
Proof.
  intros H. unfold bind. destruct (m w) as [[x| |] w']; auto.
Qed.

(** The formula and the test of the bracket, in the legacy function and
    in the canonical one. *)
Lemma legacy_bracket_run (ops : Scalars) (a1 a2 a3 f1 f2 f3 : float) (w : trace) :
  (alpha_opt <- Legacy.bracket_vertex ops a1 a2 a3 f1 f2 f3 ;;
   if ((a3 <? alpha_opt) || (alpha_opt <? a1))%float then ret a2 else ret alpha_opt) w
  = (bracket_step ops a1 a2 a3 f1 f2 f3, w).
Proof.
  unfold Legacy.bracket_vertex, bracket_step, bracket_quotient, bracket_denominator,
    square, divide, bind, ret, raise.
  destruct (pow2 ops a2) as [a2_2|];
    [|destruct (pow2 ops a1); reflexivity].
  destruct (pow2 ops a3) as [a3_2|];
    [|destruct (pow2 ops a1); reflexivity].
  destruct (pow2 ops a1) as [a1_2|]; [|reflexivity].
  destruct (truediv ops _ _) as [q|]; [|reflexivity].
  destruct ((a3 <? q) || (q <? a1))%float; reflexivity.
Qed.

Lemma canonical_bracket_run (ops : Scalars) (a1 a2 a3 f1 f2 f3 : float) (w : trace) :
  (a2_2 <- square ops a2 ;;
   a3_2 <- square ops a3 ;;
   a1_2 <- square ops a1 ;;
   a1_2' <- square ops a1 ;;
   a2_2' <- square ops a2 ;;
   alpha_opt <- divide ops
                  (f1 * (a2_2 - a3 * 2) + f2 * (a3_2 - a1_2) + f3 * (a1_2' - a2_2'))
                  (2 * (f1 * (a2 - a3) + f2 * (a3 - a1) + f3 * (a1 - a3))) ;;
   if ((a3 <? alpha_opt) || (alpha_opt <? a1))%float then ret a2 else ret alpha_opt) w
  = (bracket_step ops a1 a2 a3 f1 f2 f3, w).
Proof.
  unfold bracket_step, bracket_quotient, bracket_denominator,
    square, divide, bind, ret, raise.
  destruct (pow2 ops a2) as [a2_2|];
    [|destruct (pow2 ops a1); reflexivity].
  destruct (pow2 ops a3) as [a3_2|];
    [|destruct (pow2 ops a1); reflexivity].
  destruct (pow2 ops a1) as [a1_2|]; [|reflexivity].
  destruct (truediv ops _ _) as [q|]; [|reflexivity].
  destruct ((a3 <? q) || (q <? a1))%float; reflexivity.
Qed.

(** The two generations have the same function. *)
Lemma find_opt_alpha_generations (ops : Scalars) (quadratic : vec -> vec -> QuadraticFit)
  (a f_search : vec) (min_ind : Z) (s : Settings) (w : trace) :
  Canonical._find_opt_alpha ops quadratic a f_search min_ind s w
  = Legacy.find_opt_alpha ops quadratic a f_search min_ind s w.
Proof.
  assert (Hbracket : forall w0,
            (a1 <- index a (min_ind - 1) ;;
             a2 <- index a min_ind ;;
             a3 <- index a (min_ind + 1) ;;
             f1 <- index f_search (min_ind - 1) ;;
             f2 <- index f_search min_ind ;;
             f3 <- index f_search (min_ind + 1) ;;
             a2_2 <- square ops a2 ;;
             a3_2 <- square ops a3 ;;
             a1_2 <- square ops a1 ;;
             a1_2' <- square ops a1 ;;
             a2_2' <- square ops a2 ;;
             alpha_opt <- divide ops
                            (f1 * (a2_2 - a3 * 2) + f2 * (a3_2 - a1_2)
                             + f3 * (a1_2' - a2_2'))
                            (2 * (f1 * (a2 - a3) + f2 * (a3 - a1) + f3 * (a1 - a3))) ;;
             if ((a3 <? alpha_opt) || (alpha_opt <? a1))%float
             then ret a2 else ret alpha_opt) w0
            = (a1 <- index a (min_ind - 1) ;;
               a2 <- index a min_ind ;;
               a3 <- index a (min_ind + 1) ;;
               f1 <- index f_search (min_ind - 1) ;;
               f2 <- index f_search min_ind ;;
               f3 <- index f_search (min_ind + 1) ;;
               alpha_opt <- Legacy.bracket_vertex ops a1 a2 a3 f1 f2 f3 ;;
               if ((a3 <? alpha_opt) || (alpha_opt <? a1))%float
               then ret a2 else ret alpha_opt) w0).
  { intros w0.
    do 6 (apply bind_ext; intros ? ?).
    now rewrite canonical_bracket_run, legacy_bracket_run. }
  unfold Canonical._find_opt_alpha, Legacy.find_opt_alpha, Legacy.fit_accepted.
  destruct (String.eqb (search_type s) "quadratic"); [|apply Hbracket].
  destruct (vertex_alpha (quadratic a f_search)) as [alpha_opt|]; [|apply Hbracket].
  destruct ((alpha_opt <? 0)%float || negb (convex (quadratic a f_search))
            || (rsq (quadratic a f_search) <? rsq_tol s)%float);
    [apply Hbracket | reflexivity].
Qed.

Lemma bracket_fallback (ops : Scalars) (quadratic : vec -> vec -> QuadraticFit)
  (a f_search : vec) (min_ind : nat) (s : Settings) (w : trace)
  (a1 a2 a3 f1 f2 f3 : float) :
  String.eqb (search_type s) "quadratic" = false
  \/ fit_rejected (quadratic a f_search) s = true ->
  (1 <= min_ind)%nat ->
  nth_error a (min_ind - 1) = Some a1 ->
  nth_error a min_ind = Some a2 ->
  nth_error a (min_ind + 1) = Some a3 ->
  nth_error f_search (min_ind - 1) = Some f1 ->
  nth_error f_search min_ind = Some f2 ->
  nth_error f_search (min_ind + 1) = Some f3 ->
  Legacy.find_opt_alpha ops quadratic a f_search (Z.of_nat min_ind) s w
  = (bracket_step ops a1 a2 a3 f1 f2 f3, w).
Proof.
  intros Hfall Hpos Ha1 Ha2 Ha3 Hf1 Hf2 Hf3.
  assert (Hbracket :
            (a1 <- index a (Z.of_nat min_ind - 1) ;;
             a2 <- index a (Z.of_nat min_ind) ;;
             a3 <- index a (Z.of_nat min_ind + 1) ;;
             f1 <- index f_search (Z.of_nat min_ind - 1) ;;
             f2 <- index f_search (Z.of_nat min_ind) ;;
             f3 <- index f_search (Z.of_nat min_ind + 1) ;;
             alpha_opt <- Legacy.bracket_vertex ops a1 a2 a3 f1 f2 f3 ;;
             if ((a3 <? alpha_opt) || (alpha_opt <? a1))%float
             then ret a2 else ret alpha_opt) w
            = (bracket_step ops a1 a2 a3 f1 f2 f3, w)).
  { replace (Z.of_nat min_ind - 1)%Z with (Z.of_nat (min_ind - 1)) by lia.
    replace (Z.of_nat min_ind + 1)%Z with (Z.of_nat (min_ind + 1)) by lia.
    rewrite (bind_Ok _ _ _ (index_nat _ _ w Ha1)).
    rewrite (bind_Ok _ _ _ (index_nat _ _ w Ha2)).
    rewrite (bind_Ok _ _ _ (index_nat _ _ w Ha3)).
    rewrite (bind_Ok _ _ _ (index_nat _ _ w Hf1)).
    rewrite (bind_Ok _ _ _ (index_nat _ _ w Hf2)).
    rewrite (bind_Ok _ _ _ (index_nat _ _ w Hf3)).
    apply legacy_bracket_run. }
  unfold Legacy.find_opt_alpha.
  destruct Hfall as [Hother | Hrej].
  - rewrite Hother. exact Hbracket.
  - destruct (String.eqb (search_type s) "quadratic"); [|exact Hbracket].
    unfold Legacy.fit_accepted. unfold fit_rejected in Hrej.
    destruct (vertex_alpha (quadratic a f_search)) as [alpha_opt|]; [|exact Hbracket].
    rewrite Hrej. exact Hbracket.
Qed.

(** C5, as the code has it: when the bracket fallback is used (search
    type "bracket", or "quadratic" with a rejected fit), with [a1],
    [a2], [a3] the sample steps around the minimum index and [f1], [f2],
    [f3] their values, the call ends as the quotient with the literal
    [2 a3] first term does: where a square or the division raises
    (OverflowError, ZeroDivisionError on a zero denominator with
    Python's own floats) the call raises that exception and returns no
    step; otherwise the step returned is the quotient, replaced by [a2]
    when the quotient is above [a3] or below [a1].  The canonical and
    the legacy generation end the same way, and they do so on all
    inputs. *)
Theorem C5_bracket_fallback_step (ops : Scalars) (quadratic : vec -> vec -> QuadraticFit)
  (a f_search : vec) (min_ind : nat) (s : Settings) (w : trace)
  (a1 a2 a3 f1 f2 f3 : float) :
  search_type s = "bracket"%string
  \/ (search_type s = "quadratic"%string
      /\ fit_rejected (quadratic a f_search) s = true) ->
  (1 <= min_ind)%nat ->
  nth_error a (min_ind - 1) = Some a1 ->
  nth_error a min_ind = Some a2 ->
  nth_error a (min_ind + 1) = Some a3 ->
  nth_error f_search (min_ind - 1) = Some f1 ->
  nth_error f_search min_ind = Some f2 ->
  nth_error f_search (min_ind + 1) = Some f3 ->
  Canonical._find_opt_alpha ops quadratic a f_search (Z.of_nat min_ind) s w
  = (bracket_step ops a1 a2 a3 f1 f2 f3, w)
  /\ Legacy.find_opt_alpha ops quadratic a f_search (Z.of_nat min_ind) s w
     = (bracket_step ops a1 a2 a3 f1 f2 f3, w)
  /\ (forall a' f_search' min_ind' s' w',
        Canonical._find_opt_alpha ops quadratic a' f_search' min_ind' s' w'
        = Legacy.find_opt_alpha ops quadratic a' f_search' min_ind' s' w').
Proof.
  intros Hfall Hpos Ha1 Ha2 Ha3 Hf1 Hf2 Hf3.
  assert (Hfall' : String.eqb (search_type s) "quadratic" = false
                   \/ fit_rejected (quadratic a f_search) s = true).
  { destruct Hfall as [E | [_ E]]; [left; now rewrite E | now right]. }
  repeat split.
  - rewrite find_opt_alpha_generations.
    now apply bracket_fallback.
  - now apply bracket_fallback.
  - intros. apply find_opt_alpha_generations.
Qed.

(** A fit that stands for the absent utility in the examples: it has no
    vertex. *)
Definition no_fit (a f_search : vec) : QuadraticFit :=
  {| vertex_alpha := None; convex := false; rsq := 0 |}.

(** Two kinds of samples.  [ieee_scalars] raise nothing, as numpy's
    float64 scalars: the square is the correctly rounded product and a
    division by zero gives inf or nan.  [raising_floats] raise as
    Python's own floats do: ZeroDivisionError on a zero divisor,
    OverflowError where the square of a finite number is out of range;
    the product stands for the value of C's [pow], which it is wherever
    the square is itself a float. *)
Definition ieee_scalars : Scalars :=
  {| pow2 := fun x => Some (x * x)%float;
     truediv := fun x y => Some (x / y)%float |}.

Definition raising_floats : Scalars :=
  {| pow2 := fun x =>
       let y := (x * x)%float in
       if is_infinity y && negb (is_infinity x) then None else Some y;
     truediv := fun x y =>
       if (y =? 0)%float then None else Some (x / y)%float |}.

(** The two conventions of numpy for an array of positions used as a
    list index: no array with a dimension is converted (numpy of the
    last years), or an array of one position is (old versions). *)
Definition scalar_arrays_only (a : list nat) : option nat := None.
Definition one_position (a : list nat) : option nat :=
  match a with
  | [i] => Some i
  | _ => None
  end.

(** Steps 0, 1, 2, 3 with values 2, 1, 2, 5: the minimum is at index 1,
    the quotient -4/-8 lies in the bracket. *)
Lemma C5_bracket_fallback_step_witness :
  Canonical._find_opt_alpha ieee_scalars no_fit [0; 1; 2; 3]%float [2; 1; 2; 5]%float 1
    default_settings []
  = (Ok 0.5%float, []).
Proof.
  exact (proj1 (@C5_bracket_fallback_step ieee_scalars no_fit [0; 1; 2; 3]%float
                  [2; 1; 2; 5]%float 1 default_settings [] 0 1 2 2 1 2
                  (or_introl eq_refl) (le_n 1) eq_refl eq_refl eq_refl
                  eq_refl eq_refl eq_refl)).
Defined.

(** C5 as stated does not hold on Python's own floats: with the steps 0,
    1, 2 and the values -2, -3, -2, which the bracket search samples on
    [(x - 1)^2 - 3], the minimum is at index 1, the fallback is used and
    the denominator [2 (-2 (1 - 2) - 3 (2 - 0) - 2 (0 - 2))] is zero:
    both generations raise ZeroDivisionError and return no step. *)
Lemma C5_zero_denominator_counterexample :
  Canonical._find_opt_alpha raising_floats no_fit [0; 1; 2]%float
    [-2; -3; -2]%float 1 default_settings []
  = (Raise (ZeroDivisionError "float division by zero"), [])
  /\ Legacy.find_opt_alpha raising_floats no_fit [0; 1; 2]%float
       [-2; -3; -2]%float 1 default_settings []
     = (Raise (ZeroDivisionError "float division by zero"), [])
  /\ search_type default_settings = "bracket"%string
  /\ bracket_denominator 0 1 2 (-2) (-3) (-2) = 0%float.
Proof.
  repeat split; vm_compute; reflexivity.
Qed.

(** ** The overconstrained problem *)








(** ** The method when the list of constraints is empty *)

(** Two traces that differ in the grouping of their parts. *)
Ltac trace_eq :=
  repeat (progress (rewrite <- ?app_assoc; cbn [app]));
  reflexivity.

(** A computation that ends with [a], having added the events [evs],
    from whatever trace it starts. *)
Definition runs {A} (m : M A) (a : A) (evs : list event) : Prop :=
  forall w, m w = (Ok a, w ++ evs).

Lemma runs_ret {A} (a : A) : runs (ret a) a [].
Proof. intros w. unfold ret. now rewrite app_nil_r. Qed.

Lemma runs_emit (e : event) : runs (emit e) tt [e].
Proof. intros w. reflexivity. Qed.

Lemma runs_print (text : string) : runs (print text) tt [Console text].
Proof. intros w. reflexivity. Qed.

Lemma runs_bind {A B} (m : M A) (k : A -> M B) (a : A) (b : B)
  (evs1 evs2 : list event) :
  runs m a evs1 -> runs (k a) b evs2 -> runs (bind m k) b (evs1 ++ evs2).
Proof.
  intros Hm Hk w. rewrite (bind_Ok _ _ _ (Hm w)), Hk. now rewrite app_assoc.
Qed.

Lemma runs_when (c : bool) (m : M unit) (evs : list event) :
  runs m tt evs -> runs (when c m) tt (if c then evs else []).
Proof. intros Hm. destruct c; [exact Hm | apply runs_ret]. Qed.

Lemma runs_if {A} (c : bool) (m1 m2 : M A) (a1 a2 : A) (evs1 evs2 : list event) :
  runs m1 a1 evs1 -> runs m2 a2 evs2 ->
  runs (if c then m1 else m2) (if c then a1 else a2) (if c then evs1 else evs2).
Proof. intros H1 H2. destruct c; assumption. Qed.

Create HintDb runs.
#[local] Hint Resolve runs_ret runs_emit runs_print runs_bind runs_when runs_if : runs.

Lemma print_setup_runs (s : Settings) :
  exists evs, runs (Canonical.print_setup s) tt evs.
Proof.
  unfold Canonical.print_setup, Legacy.printSetup.
  eexists. eauto 40 with runs.
Qed.

Lemma format_output_files_runs (s : Settings) :
  runs (Canonical.format_output_files s)
       (set_files ("optimize" ++ file_tag s ++ ".txt")
                  ("gradient" ++ file_tag s ++ ".txt") s)
       [FileCreated ("optimize" ++ file_tag s ++ ".txt");
        FileCreated ("gradient" ++ file_tag s ++ ".txt");
        Console "opt_header"].
Proof. intros w. unfold Canonical.format_output_files, Legacy.format_output_files.
  unfold bind, emit, print, ret. simpl. now rewrite <- !app_assoc. Qed.

Lemma start_writer_runs (s : Settings) :
  exists evs, runs (Canonical.start_writer s) tt evs.
Proof.
  unfold Canonical.start_writer, Legacy.start_writer.
  eexists. eauto with runs.
Qed.

(** With an empty list of constraints [minimize] reaches the call of
    [_find_minimum] with the method as configured, both counts zero and
    an empty adapter list. *)
Lemma prepare_empty_list (fn : vec -> float) (n_vars : nat) (s : Settings)
  (grad : option (vec -> vec)) (w : trace) :
  exists p w',
    Canonical.prepare fn n_vars s grad (Some []) w = (Ok p, w')
    /\ method (Canonical.p_settings p) = method s
    /\ n_cstr (Canonical.p_settings p) = 0%nat
    /\ n_ineq_cstr (Canonical.p_settings p) = 0%nat
    /\ Canonical.p_g p = Some [].
Proof.
  unfold Canonical.prepare, Canonical.get_constraints, Canonical.override_method.
  simpl Legacy.get_constraints. cbv iota beta.
  replace (n_vars <? 0 - 0)%nat with false by (now destruct n_vars).
  rewrite (bind_Ok _ _ _ (emit_run _ _)).
  unfold bind at 1. unfold new_objective at 1.
  destruct (print_setup_runs (set_counts 0 0 s)) as [evs1 H1].
  rewrite (bind_Ok _ _ _ (H1 _)).
  rewrite (bind_Ok _ _ _ (format_output_files_runs _ _)).
  destruct (start_writer_runs
              (set_files ("optimize" ++ file_tag (set_counts 0 0 s) ++ ".txt")
                         ("gradient" ++ file_tag (set_counts 0 0 s) ++ ".txt")
                         (set_counts 0 0 s))) as [evs2 H2].
  match goal with
  | |- context [bind (if ?c then _ else _) _] => destruct c
  end.
  - rewrite (bind_Ok _ _ _ (bind_Ok _ _ _ (H2 _))).
    do 2 eexists. split; [reflexivity|]. simpl. auto.
  - do 2 eexists. split; [reflexivity|]. simpl. auto.
Qed.

(** Without the constraints option the method is "bfgs" whatever was
    configured, the counts are zero and there is no list. *)
Lemma prepare_none (fn : vec -> float) (n_vars : nat) (s : Settings)
  (grad : option (vec -> vec)) (w : trace) :
  exists p w',
    Canonical.prepare fn n_vars s grad None w = (Ok p, w')
    /\ method (Canonical.p_settings p) = "bfgs"%string
    /\ n_cstr (Canonical.p_settings p) = 0%nat
    /\ n_ineq_cstr (Canonical.p_settings p) = 0%nat
    /\ Canonical.p_g p = None.
Proof.
  unfold Canonical.prepare, Canonical.get_constraints, Canonical.override_method.
  simpl Legacy.get_constraints. cbv iota beta.
  replace (n_vars <? 0 - 0)%nat with false by (now destruct n_vars).
  rewrite (bind_Ok _ _ _ (emit_run _ _)).
  unfold bind at 1. unfold new_objective at 1.
  destruct (print_setup_runs (set_counts 0 0 (set_method "bfgs" s))) as [evs1 H1].
  rewrite (bind_Ok _ _ _ (H1 _)).
  rewrite (bind_Ok _ _ _ (format_output_files_runs _ _)).
  destruct (start_writer_runs
              (set_files ("optimize" ++ file_tag (set_counts 0 0 (set_method "bfgs" s))
                          ++ ".txt")
                         ("gradient" ++ file_tag (set_counts 0 0 (set_method "bfgs" s))
                          ++ ".txt")
                         (set_counts 0 0 (set_method "bfgs" s)))) as [evs2 H2].
  match goal with
  | |- context [bind (if ?c then _ else _) _] => destruct c
  end.
  - rewrite (bind_Ok _ _ _ (bind_Ok _ _ _ (H2 _))).
    do 2 eexists. split; [reflexivity|]. simpl. auto.
  - do 2 eexists. split; [reflexivity|]. simpl. auto.
Qed.

(** With a list of constraints, empty or not, the method is the
    configured one wherever the set-up goes through. *)
Lemma prepare_list (fn : vec -> float) (n_vars : nat) (s : Settings)
  (grad : option (vec -> vec)) (cs : list ConstraintSpec) (w w' : trace)
  (p : Canonical.prepared) :
  Canonical.prepare fn n_vars s grad (Some cs) w = (Ok p, w') ->
  method (Canonical.p_settings p) = method s.
Proof.
  unfold Canonical.prepare, Canonical.get_constraints, Canonical.override_method.
  destruct (Legacy.get_constraints (Some cs)) as [[g n_cstr] n_ineq_cstr].
  rewrite (bind_Ok _ _ _ (emit_run _ _)).
  unfold bind at 1. unfold new_objective at 1.
  destruct (n_vars <? n_cstr - n_ineq_cstr)%nat; [discriminate|].
  destruct (print_setup_runs (set_counts n_cstr n_ineq_cstr s)) as [evs1 H1].
  rewrite (bind_Ok _ _ _ (H1 _)).
  rewrite (bind_Ok _ _ _ (format_output_files_runs _ _)).
  destruct (start_writer_runs
              (set_files ("optimize" ++ file_tag (set_counts n_cstr n_ineq_cstr s)
                          ++ ".txt")
                         ("gradient" ++ file_tag (set_counts n_cstr n_ineq_cstr s)
                          ++ ".txt")
                         (set_counts n_cstr n_ineq_cstr s))) as [evs2 H2].
  match goal with
  | |- context [bind (if ?c then _ else _) _] => destruct c
  end.
  - rewrite (bind_Ok _ _ _ (bind_Ok _ _ _ (H2 _))).
    intros H. injection H as <- _. reflexivity.
  - intros H. injection H as <- _. reflexivity.
Qed.

Section Dispatch.

Variable ops : Scalars.
Variable quadratic : vec -> vec -> QuadraticFit.
Variable array_as_index : list nat -> option nat.
Variable svd : matrix -> vec.
Variable solve : matrix -> vec -> option vec.
Variable task :
  Objective -> list Constraint -> vec -> vec -> float -> vec -> matrix -> matrix ->
  list nat -> list nat -> nat -> nat -> list bool -> Settings ->
  M (option (vec * float * vec)).

(** [minimize] with the call of [_find_minimum] replaced by a call of
    the driver [driver]. *)
Definition minimize_calling
  (driver : Objective -> list Constraint -> Settings -> vec -> M OptimizerResult)
  (fn : vec -> float) (x0 : vec) (settings : Settings)
  (grad : option (vec -> vec)) : M OptimizerResult :=
  emit (PoolOpened (max_processes settings)) ;;;
  finally
    (p <- Canonical.prepare fn (List.length x0) settings grad (Some []) ;;
     opt <- driver (Canonical.p_f p) [] (Canonical.p_settings p) x0 ;;
     Canonical.conclude p opt)
    (emit PoolExited).

(** [minimize] without the constraints option, with the call of
    [_find_minimum] replaced by a call of the BFGS driver. *)
Definition minimize_calling_bfgs (fuel : nat)
  (fn : vec -> float) (x0 : vec) (settings : Settings)
  (grad : option (vec -> vec)) : M OptimizerResult :=
  emit (PoolOpened (max_processes settings)) ;;;
  finally
    (p <- Canonical.prepare fn (List.length x0) settings grad None ;;
     opt <- Canonical._bfgs ops quadratic array_as_index (Canonical.p_f p)
              (Canonical.p_settings p) fuel x0 ;;
     Canonical.conclude p opt)
    (emit PoolExited).

Lemma minimize_none (fuel : nat) (fn : vec -> float) (x0 : vec) (s : Settings)
  (grad : option (vec -> vec)) (w : trace) :
  Canonical.minimize ops quadratic array_as_index svd solve task fuel fn x0 s grad None w
  = minimize_calling_bfgs fuel fn x0 s grad w.
Proof.
  unfold Canonical.minimize, minimize_calling_bfgs.
  rewrite !(bind_Ok _ _ _ (emit_run _ _)).
  unfold finally.
  destruct (prepare_none fn (List.length x0) s grad
              (w ++ [PoolOpened (max_processes s)]))
    as (p & w' & Hp & Hmethod & _).
  rewrite !(bind_Ok _ _ _ Hp).
  unfold Canonical._find_minimum. rewrite Hmethod. reflexivity.
Qed.

Lemma find_minimum_sqp (fuel : nat) (f : Objective) (l : list Constraint)
  (x : vec) (s : Settings) :
  method s = "sqp"%string ->
  Canonical._find_minimum ops quadratic array_as_index svd solve task fuel f (Some l) x s
  = Canonical._sqp svd solve f l s fuel x.
Proof. intros E. unfold Canonical._find_minimum. rewrite E. reflexivity. Qed.

Lemma find_minimum_grg (fuel : nat) (f : Objective) (l : list Constraint)
  (x : vec) (s : Settings) :
  method s = "grg"%string ->
  Canonical._find_minimum ops quadratic array_as_index svd solve task fuel f (Some l) x s
  = Canonical._grg svd solve task f l s fuel x.
Proof. intros E. unfold Canonical._find_minimum. rewrite E. reflexivity. Qed.

Lemma minimize_empty_list (fuel : nat)
  (driver : Objective -> list Constraint -> Settings -> vec -> M OptimizerResult)
  (fn : vec -> float) (x0 : vec) (s : Settings) (grad : option (vec -> vec))
  (w : trace) :
  (forall f s', method s' = method s ->
     Canonical._find_minimum ops quadratic array_as_index svd solve task fuel f (Some []) x0 s'
     = driver f [] s' x0) ->
  Canonical.minimize ops quadratic array_as_index svd solve task fuel fn x0 s grad (Some []) w
  = minimize_calling driver fn x0 s grad w.
Proof.
  intros Hdispatch.
  unfold Canonical.minimize, minimize_calling.
  rewrite !(bind_Ok _ _ _ (emit_run _ _)).
  unfold finally.
  destruct (prepare_empty_list fn (List.length x0) s grad
              (w ++ [PoolOpened (max_processes s)]))
    as (p & w' & Hp & Hmethod & _ & _ & Hg).
  rewrite !(bind_Ok _ _ _ Hp).
  rewrite Hg, (Hdispatch _ _ Hmethod). reflexivity.
Qed.

(** C10: the method is overwritten with "bfgs" exactly when the
    constraints option is [None].  Without the option, the settings
    [minimize] hands to [_find_minimum] have the method "bfgs" whatever
    was configured, and [minimize] calls the BFGS driver; with a list,
    empty or not, they have the configured method wherever the set-up
    goes through.  With an empty list the settings keep the configured
    method, both constraint counts are zero, and [minimize] calls the
    driver of the configured method: the SQP driver for "sqp" and the
    GRG driver for "grg". *)
Theorem C10_empty_list_keeps_method (fuel : nat) (fn : vec -> float) (x0 : vec)
  (s : Settings) (grad : option (vec -> vec)) (w : trace) :
  (exists p w',
     Canonical.prepare fn (List.length x0) s grad None w = (Ok p, w')
     /\ method (Canonical.p_settings p) = "bfgs"%string
     /\ n_cstr (Canonical.p_settings p) = 0%nat
     /\ n_ineq_cstr (Canonical.p_settings p) = 0%nat
     /\ Canonical.p_g p = None)
  /\ Canonical.minimize ops quadratic array_as_index svd solve task fuel fn x0 s grad None w
     = minimize_calling_bfgs fuel fn x0 s grad w
  /\ (forall cs p w',
        Canonical.prepare fn (List.length x0) s grad (Some cs) w = (Ok p, w') ->
        method (Canonical.p_settings p) = method s)
  /\ method (Canonical.override_method s None) = "bfgs"%string
  /\ (forall cs, Canonical.override_method s (Some cs) = s)
  /\ Canonical.get_constraints (Some []) = (Some [], 0%nat, 0%nat)
  /\ (exists p w',
        Canonical.prepare fn (List.length x0) s grad (Some []) w = (Ok p, w')
        /\ method (Canonical.p_settings p) = method s
        /\ n_cstr (Canonical.p_settings p) = 0%nat
        /\ n_ineq_cstr (Canonical.p_settings p) = 0%nat
        /\ Canonical.p_g p = Some [])
  /\ (method s = "sqp"%string ->
      Canonical.minimize ops quadratic array_as_index svd solve task fuel fn x0 s grad (Some []) w
      = minimize_calling (fun f g s' x => Canonical._sqp svd solve f g s' fuel x)
          fn x0 s grad w)
  /\ (method s = "grg"%string ->
      Canonical.minimize ops quadratic array_as_index svd solve task fuel fn x0 s grad (Some []) w
      = minimize_calling (fun f g s' x => Canonical._grg svd solve task f g s' fuel x)
          fn x0 s grad w).
Proof.
  split; [apply prepare_none|].
  split; [apply minimize_none|].
  split; [intros cs p w' H; exact (prepare_list _ _ _ _ _ _ H)|].
  split; [reflexivity|].
  split; [reflexivity|].
  split; [reflexivity|].
  split; [apply prepare_empty_list|].
  split; intros E; apply minimize_empty_list; intros f s' Hs'.
  - apply find_minimum_sqp. congruence.
  - apply find_minimum_grg. congruence.
Qed.

End Dispatch.

Lemma C10_empty_list_keeps_method_witness :
  Canonical.minimize ieee_scalars no_fit scalar_arrays_only (fun _ => []) (fun _ _ => None)
    (fun _ _ _ _ _ _ _ _ _ _ _ _ _ _ => ret None) 10 sample_fun [0]%float
    (set_method "sqp" default_settings) None (Some []) []
  = minimize_calling
      (fun f g s' x => Canonical._sqp (fun _ => []) (fun _ _ => None) f g s' 10 x)
      sample_fun [0]%float (set_method "sqp" default_settings) None [].
Proof.
  exact (proj1 (proj2 (proj2 (proj2 (proj2 (proj2 (proj2 (proj2
           (@C10_empty_list_keeps_method ieee_scalars no_fit scalar_arrays_only (fun _ => [])
              (fun _ _ => None)
              (fun _ _ _ _ _ _ _ _ _ _ _ _ _ _ => ret None) 10 sample_fun [0]%float
              (set_method "sqp" default_settings) None []))))))))
          eq_refl).
Defined.

(** ** A not-a-number sample in the line search *)

Lemma f_f_run (f : Objective) (x : vec) (w : trace) :
  f_f f x w = (Ok (o_fun f x), w ++ [ObjectiveCall x]).
Proof. reflexivity. Qed.

Lemma runs_map_m_f_f (f : Objective) (points : list vec) :
  runs (map_m (f_f f) points) (map (o_fun f) points) (map ObjectiveCall points).
Proof.
  induction points as [|x points IH]; intros w; simpl.
  - unfold ret. now rewrite app_nil_r.
  - rewrite (bind_Ok _ _ _ (f_f_run f x w)).
    rewrite (bind_Ok _ _ _ (IH _)).
    unfold ret. now rewrite <- app_assoc.
Qed.

Lemma runs_finally {A} (body : M A) (a : A) (evs : list event) (e : event) :
  runs body a evs -> runs (finally body (emit e)) a (evs ++ [e]).
Proof.
  intros H w. unfold finally. rewrite H. simpl. now rewrite app_assoc.
Qed.

Lemma runs_sample (f : Objective) (points : list vec) (s : Settings) :
  runs (Canonical.sample f points s) (map (o_fun f) points)
       ([PoolOpened (max_processes s)] ++ map ObjectiveCall points ++ [PoolExited]).
Proof.
  unfold Canonical.sample.
  eapply runs_bind; [apply runs_emit|].
  apply runs_finally, runs_map_m_f_f.
Qed.

Lemma runs_for_each_print {A} (l : list A) (text : string) :
  runs (for_each l (fun _ => print text)) tt (map (fun _ => Console text) l).
Proof.
  induction l as [|x l IH]; intros w; simpl.
  - unfold ret. now rewrite app_nil_r.
  - rewrite (bind_Ok _ _ _ (print_run text w)).
    rewrite IH. now rewrite <- app_assoc.
Qed.

(** What an attempt of the line search adds to the trace up to the end
    of its batch of evaluations, and the lines it prints for the samples
    when it is verbose. *)
Definition attempt_events (s : Settings) (points : list vec) : list event :=
  (if verbose s then [Console "Step size: {0}"] else [])
  ++ [PoolOpened (max_processes s)] ++ map ObjectiveCall points ++ [PoolExited].

Definition sample_lines (s : Settings) : list event :=
  if verbose s
  then map (fun _ => Console "{0:5d}, {1:15.7E}") (seq 0 (n_search s + 1))
  else [].

Lemma attempt_run (f : Objective) (settings : Settings) (points : list vec)
  (w : trace) {B} (k : vec -> M B) :
  bind (when (verbose settings) (print "Step size: {0}"))
       (fun _ => bind (Canonical.sample f points settings) k) w
  = k (map (o_fun f) points) (w ++ attempt_events settings points).
Proof.
  rewrite (bind_Ok _ _ _ (when_run _ _ _)).
  rewrite (bind_Ok _ _ _ (runs_sample f points settings _)).
  unfold attempt_events. f_equal. trace_eq.
Qed.

Lemma sample_lines_run (settings : Settings) (w : trace) :
  when (verbose settings)
       (for_each (seq 0 (n_search settings + 1))
                 (fun _ => print "{0:5d}, {1:15.7E}")) w
  = (Ok tt, w ++ sample_lines settings).
Proof. apply runs_when, runs_for_each_print. Qed.

(** X8: in every attempt of the line search (any step size, any state
    of the loop) in which the starting value or a sampled value is not a
    number,
    the line search raises once the batch of the attempt is evaluated:
    the error [Objective function returned a NaN] when numpy turns the
    array of the offending positions into a list index, the [TypeError]
    of that conversion when it does not.  After the batch only console
    output follows, and no caller goes on. *)
Lemma nan_sample_stops_line_search (ops : Scalars) (quadratic : vec -> vec -> QuadraticFit)
  (array_as_index : list nat -> option nat)
  (f : Objective) (settings : Settings) (fuel : nat) (x0 : vec) (f0 : float)
  (s del_f0 : vec) (alpha : float) (prev_reduced prev_increased : bool)
  (w : trace) :
  let points := Canonical.search_points x0 s alpha (n_search settings) in
  let f_search := f0 :: map (o_fun f) points in
  Np.any_isnan f_search = true ->
  let w1 := ((w ++ attempt_events settings points) ++ sample_lines settings)
            ++ [Console "Found NaN in line search at the following design point:"] in
  let run := Canonical._line_search_from ops quadratic array_as_index f settings (S fuel)
               x0 f0 s del_f0 alpha prev_reduced prev_increased w in
  match array_as_index (Np.nan_positions f_search) with
  | None =>
      run = (Raise (TypeError "only integer scalar arrays can be converted to a scalar index"),
             w1)
  | Some i =>
      (i < List.length (x0 :: points))%nat ->
      run = (Raise (ValueError "Objective function returned a NaN"),
             w1 ++ [Console "{x_search[...]}"])
  end.
Proof.
  intros points f_search Hnan w1 run.
  assert (Hrun :
            run
            = bind (Canonical.list_at_array array_as_index (x0 :: points)
                      (Np.nan_positions f_search))
                (fun _ => print "{x_search[...]}" ;;;
                          raise (ValueError "Objective function returned a NaN")) w1).
  { unfold run. cbn [Canonical._line_search_from]. fold points.
    rewrite attempt_run.
    rewrite (bind_Ok _ _ _ (sample_lines_run _ _)).
    fold f_search. rewrite Hnan.
    rewrite (bind_Ok _ _ _ (print_run _ _)). reflexivity. }
  rewrite Hrun. unfold Canonical.list_at_array.
  destruct (array_as_index (Np.nan_positions f_search)) as [i|].
  - intros Hi.
    destruct (nth_error (x0 :: points) i) as [x|] eqn:E;
      [|apply nth_error_None in E; lia].
    rewrite (bind_Ok _ _ _ (index_nat _ _ _ E)).
    rewrite (bind_Ok _ _ _ (print_run _ _)). reflexivity.
  - reflexivity.
Qed.

(** ** A plateau in the line search *)

Lemma SFcompare_Eq_sym (x y : SpecFloat.spec_float) :
  SpecFloat.SFcompare x y = Some Eq -> SpecFloat.SFcompare y x = Some Eq.
Proof.
  destruct x as [sx|sx| |sx mx ex], y as [sy|sy| |sy my ey]; simpl; intros H;
    try reflexivity; try discriminate;
    try (destruct sx; discriminate); try (destruct sy; discriminate);
    try (destruct sx, sy; (discriminate || reflexivity)).
  destruct sx, sy; try discriminate;
    destruct (Z.compare_spec ex ey) as [E|E|E]; try discriminate;
    subst ey; rewrite Z.compare_refl; injection H as H.
  - destruct (Pos.compare_cont Eq mx my) eqn:C; try discriminate.
    apply (Pos.compare_eq mx my) in C. subst. now rewrite Pos.compare_cont_refl.
  - apply (Pos.compare_eq mx my) in H. subst. now rewrite Pos.compare_cont_refl.
Qed.

Lemma SFcompare_Eq_refl (x y : SpecFloat.spec_float) :
  SpecFloat.SFcompare x y = Some Eq -> SpecFloat.SFcompare x x = Some Eq.
Proof.
  destruct x as [sx|sx| |sx mx ex], y as [sy|sy| |sy my ey]; simpl; intros H;
    try reflexivity; try discriminate;
    try (destruct sx; reflexivity);
    destruct sx; rewrite Z.compare_refl, Pos.compare_cont_refl; reflexivity.
Qed.

(** Two floats that are equal: neither is below the other, neither is
    not a number. *)
Lemma float_eqb_facts (x y : float) :
  (x =? y)%float = true ->
  (x <? y)%float = false /\ (y <? x)%float = false
  /\ (x =? x)%float = true /\ (y =? y)%float = true.
Proof.
  rewrite !FloatAxioms.eqb_spec, !FloatAxioms.ltb_spec.
  unfold SpecFloat.SFeqb, SpecFloat.SFltb.
  destruct (SpecFloat.SFcompare (Prim2SF x) (Prim2SF y)) as [[| |]|] eqn:C;
    try discriminate.
  intros _.
  rewrite (SFcompare_Eq_sym _ _ C), (SFcompare_Eq_refl _ _ C),
    (SFcompare_Eq_refl _ _ (SFcompare_Eq_sym _ _ C)).
  repeat split.
Qed.

(** Every value of the list equals [f0]. *)
Definition all_equal (f0 : float) (values : vec) : bool :=
  forallb (fun v => (v =? f0)%float) values.

Lemma all_equal_min_max (f0 : float) (rest : vec) :
  all_equal f0 rest = true ->
  Np.min_from f0 rest = f0 /\ Np.max_from f0 rest = f0.
Proof.
  unfold Np.min_from, Np.max_from.
  induction rest as [|v rest IH]; simpl; intros H; [split; reflexivity|].
  apply andb_prop in H. destruct H as [Hv Hrest].
  destruct (float_eqb_facts Hv) as (Hlt & Hgt & _).
  rewrite Hlt, Hgt. now apply IH.
Qed.

Lemma all_equal_no_nan (f0 : float) (values : vec) :
  all_equal f0 values = true -> Np.any_isnan values = false.
Proof.
  unfold Np.any_isnan, Np.isnan, PrimFloat.is_nan.
  induction values as [|v values IH]; simpl; intros H; [reflexivity|].
  apply andb_prop in H. destruct H as [Hv Hrest].
  destruct (float_eqb_facts Hv) as (_ & _ & Hvv & _).
  rewrite Hvv. simpl. now apply IH.
Qed.

(** X7: in every attempt of the line search (any step size, any state
    of the loop) whose samples all equal the starting value, the line
    search hands the starting point and the starting value back as a
    tuple of three, and a caller that unpacks four values from it
    raises [ValueError]. *)
Lemma plateau_returns_start (ops : Scalars) (quadratic : vec -> vec -> QuadraticFit)
  (array_as_index : list nat -> option nat) (f : Objective) (settings : Settings) (fuel : nat) (x0 : vec) (f0 : float)
  (s del_f0 : vec) (alpha : float) (prev_reduced prev_increased : bool)
  (w : trace) :
  let points := Canonical.search_points x0 s alpha (n_search settings) in
  all_equal f0 (f0 :: map (o_fun f) points) = true ->
  exists w',
    Canonical._line_search_from ops quadratic array_as_index f settings (S fuel) x0 f0 s del_f0 alpha
      prev_reduced prev_increased w
    = (Ok (Tuple3 x0 f0 alpha), w')
    /\ forall (B : Type) (k : Py.vec * float * float * bool -> M B),
         bind (t <- Canonical._line_search_from ops quadratic array_as_index f settings (S fuel) x0 f0
                      s del_f0 alpha prev_reduced prev_increased ;;
               unpack4 t) k w
         = (Raise (ValueError "not enough values to unpack (expected 4, got 3)"), w').
Proof.
  intros points Hall.
  pose proof (all_equal_no_nan _ _ Hall) as Hnan.
  assert (Hrest : all_equal f0 (map (o_fun f) points) = true)
    by (simpl in Hall; now apply andb_prop in Hall).
  destruct (all_equal_min_max _ _ Hrest) as [Hmin Hmax].
  assert (Hself : (f0 =? f0)%float = true)
    by (simpl in Hall; now apply andb_prop in Hall).
  eexists.
  assert (Hrun :
            Canonical._line_search_from ops quadratic array_as_index f settings (S fuel) x0 f0 s del_f0
              alpha prev_reduced prev_increased w
            = (Ok (Tuple3 x0 f0 alpha),
               ((w ++ attempt_events settings points) ++ sample_lines settings)
               ++ if verbose settings
                  then [Console "Objective function has plateaued"] else [])).
  { cbn [Canonical._line_search_from]. fold points.
    rewrite attempt_run.
    rewrite (bind_Ok _ _ _ (sample_lines_run _ _)).
    rewrite Hnan.
    unfold Np.min_of, Np.max_of. rewrite Hmin, Hmax, Hself.
    rewrite (bind_Ok _ _ _ (when_run _ _ _)). reflexivity. }
  split; [exact Hrun|].
  intros B k.
  apply bind_Raise.
  rewrite (bind_Ok _ _ _ Hrun). reflexivity.
Qed.

(** ** Runs of the drivers on concrete problems *)

(** Stand-ins for numpy in the examples, which never get to a singular
    value or a linear system: no singular values, no solution. *)
Definition no_svd (m : matrix) : vec := [].
Definition no_solve (m : matrix) (b : vec) : option vec := None.

(** A trial-point task for the examples, which have no binding
    constraint: the point is [z0 + alpha*s]; the task gives up ([None])
    where the objective is not a number, the place where numpy raises
    its invalid-value warning. *)
Definition warning_task (f : Objective) (g : list Constraint) (z0 y0 : vec)
  (alpha : float) (s : vec) (d_psi_d_y0 d_psi_d_z0 : matrix)
  (z_ind0 y_ind0 : list nat) (n_vars n_binding : nat) (cstr_b : list bool)
  (settings : Settings) : M (option (vec * float * vec)) :=
  let x_search := Np.vadd z0 (map (fun v => (alpha * v)%float) s) in
  g_search <- Canonical._eval_constr g x_search ;;
  f_search <- f_f f x_search ;;
  if Np.isnan f_search then ret None else ret (Some (x_search, f_search, g_search)).

(** [minimize] with these stand-ins, samples whose square and division
    raise nothing, and the later convention of numpy for an array used
    as a list index. *)
Definition run_minimize (fuel : nat) (fn : vec -> float) (x0 : vec)
  (settings : Settings) (grad : option (vec -> vec))
  (constraints : option (list ConstraintSpec)) : outcome OptimizerResult :=
  fst (Canonical.minimize ieee_scalars no_fit scalar_arrays_only no_svd no_solve warning_task fuel
         fn x0 settings grad constraints []).

(** [max(-x[0], 0.0)]: flat to the right of zero. *)
Definition ramp (x : vec) : float :=
  let a := (- nth 0 x 0)%float in
  if (a <? 0)%float then 0%float else a.

(** [(x[0] - 3)**2] with its gradient, and [abs(x[0])] with the slope 1
    for a gradient. *)
Definition parabola (x : vec) : float :=
  ((nth 0 x 0 - 3) * (nth 0 x 0 - 3))%float.
Definition parabola_grad (x : vec) : vec := [(2 * (nth 0 x 0 - 3))%float].
Definition absolute (x : vec) : float := abs (nth 0 x 0%float).
Definition slope_one (x : vec) : vec := [1%float].

(** C8, on the run [minimize(lambda x: max(-x[0], 0.0), [0.0005])]: the
    first line search samples a plateau and hands the starting point and
    value back unchanged, as a tuple of three; the BFGS driver, which
    unpacks four values, does not go on with that point but raises
    [ValueError]. *)
Theorem C8_plateau_stops_bfgs :
  fst (Canonical._line_search ieee_scalars no_fit scalar_arrays_only
         {| o_fun := ramp; o_grad := None; o_born := 0 |} default_settings 5
         [0.0005%float] 0 [1%float] [(-0.25)%float] 0.125 [])
  = Ok (Tuple3 [0.0005%float] 0 0.125)
  /\ fst (Canonical._bfgs ieee_scalars no_fit scalar_arrays_only
            {| o_fun := ramp; o_grad := None; o_born := 0 |}
            default_settings 5 [0.0005%float] [])
     = Raise (ValueError "not enough values to unpack (expected 4, got 3)")
  /\ run_minimize 5 ramp [0.0005%float] default_settings None None
     = Raise (ValueError "not enough values to unpack (expected 4, got 3)").
Proof. repeat split; vm_compute; reflexivity. Qed.

(** C6, on two runs in which a stopping rule of the BFGS driver fires
    before its inner loop has run a line search: with
    [max_iterations = 0] on a parabola, and with the step tolerance
    reached by the first line search on [abs(x[0])] from its minimum.
    The driver reaches its last [return] with [f2] unassigned and
    raises. *)
Theorem C6_bfgs_stops_without_result :
  run_minimize 5 parabola [0%float] (set_max_iterations 0 default_settings)
    (Some parabola_grad) None
  = Raise (UnboundLocalError "f2")
  /\ run_minimize 20 absolute [0%float] default_settings (Some slope_one) None
     = Raise (UnboundLocalError "f2").
Proof. split; vm_compute; reflexivity. Qed.

(** [np.sqrt(1 - x[0])]: not a number beyond 1. *)
Definition root (x : vec) : float := PrimFloat.sqrt (1 - nth 0 x 0)%float.

(** C9, on the run [minimize(lambda x: np.sqrt(1 - x[0]), [0.0])]: the
    second attempt of the first line search samples seven values that
    are not numbers.  The run fails at once, but with the [TypeError] of
    the list indexed by the array of the offending positions, inside the
    print of the offending points: the error [Objective function
    returned a NaN] is not reached and the points are not reported,
    under either convention of numpy; and the last evaluation of the
    objective is the last sample of that attempt. *)
Theorem C9_nan_report_raises_type_error :
  run_minimize 5 root [0%float] default_settings None None
  = Raise (TypeError "only integer scalar arrays can be converted to a scalar index")
  /\ fst (Canonical.minimize ieee_scalars no_fit one_position no_svd no_solve warning_task 5 root
            [0%float] default_settings None None [])
     = Raise (TypeError "only integer scalar arrays can be converted to a scalar index")
  /\ Np.nan_positions
       (1%float :: map root (Canonical.search_points [0%float] [1%float] 0.875 8))
     = [2; 3; 4; 5; 6; 7; 8]%nat
  /\ skipn 50
       (snd (Canonical.minimize ieee_scalars no_fit scalar_arrays_only no_svd no_solve warning_task
               5 root [0%float] default_settings None None []))
     = [ObjectiveCall [7%float]; PoolExited;
        Console "Found NaN in line search at the following design point:";
        PoolExited].
Proof. repeat split; vm_compute; reflexivity. Qed.

(** The settings of the GRG examples: method "grg", forward differences. *)
Definition grg_settings : Settings :=
  {| method := "grg"; termination_tol := 1e-12; grad_tol := 1e-12;
     verbose := false; central_diff := false; use_finite_diff := true;
     file_tag := ""; max_processes := 1; dx := 0.001; max_iterations := None;
     n_search := 8; alpha_init := 0.125; alpha_reset := false; alpha_mult := 7;
     alpha_d := None; search_type := "bracket"; rsq_tol := 0.8;
     wolfe_armijo := 1e-4; wolfe_curv := 0.9; hess_init := 1;
     strict_penalty := true; cstr_tol := 1e-4; n_cstr := 0; n_ineq_cstr := 0;
     opt_file := ""; grad_file := "" |}.

(** An inequality constraint far from its boundary, on coordinate [i]. *)
Definition far_constraint (i : nat) : ConstraintSpec :=
  {| spec_type := "ineq"; spec_fun := fun x => (nth i x 0 + 10)%float;
     spec_grad := None |}.

(** [sqrt(x[0]) + x[1]]: not a number to the left of the start [0, 0],
    where the search direction points. *)
Definition root_plus (x : vec) : float :=
  (PrimFloat.sqrt (nth 0 x 0) + nth 1 x 0)%float.

(** C7, on two runs of the GRG driver.  In two variables, with every
    trial point of the line search lost, the step size decays below the
    tolerance with no surviving candidate, and the driver reports
    success: the length it tests is the number of rows of the transposed
    array of points, the number of variables.  In one variable, with all
    eight candidates of every attempt surviving, the same decay is
    reported as the failure. *)
Theorem C7_grg_failure_report :
  option_map (fun r => (success r, message r))
    (match run_minimize 40 root_plus [0; 0]%float grg_settings None
             (Some [far_constraint 1]) with
     | Ok r => Some r
     | _ => None
     end)
  = Some (true, "Step termination tolerance reached (magnitude = {0})."%string)
  /\ option_map (fun r => (success r, message r))
       (match run_minimize 40 absolute [0%float] grg_settings (Some slope_one)
                (Some [far_constraint 0]) with
        | Ok r => Some r
        | _ => None
        end)
     = Some (false, "Failed to converge to one or more constraint boundaries."%string).
Proof. split; vm_compute; reflexivity. Qed.

(** ** The combination of binding constraints of an SQP step *)

Lemma eval_constr_from (g : list Constraint) (x1 : vec) (k : nat) (w : trace) :
  map_m (fun ic => g_g (fst ic) (snd ic) x1) (combine (seq k (List.length g)) g) w
  = (Ok (map (fun c => c_fun c x1) g),
     w ++ map (fun i => ConstraintCall i x1) (seq k (List.length g))).
Proof.
  revert k w.
  induction g as [|c g IH]; intros k w; simpl.
  - unfold ret. now rewrite app_nil_r.
  - unfold g_g at 1. rewrite (bind_Ok _ _ _ (bind_Ok _ _ _ (emit_run _ _))).
    unfold ret at 1.
    rewrite (bind_Ok _ _ _ (IH _ _)).
    unfold ret. now rewrite <- app_assoc.
Qed.

Lemma eval_constr_run (g : list Constraint) (x1 : vec) (w : trace) :
  Canonical._eval_constr g x1 w
  = (Ok (map (fun c => c_fun c x1) g),
     w ++ map (fun i => ConstraintCall i x1) (seq 0 (List.length g))).
Proof. apply eval_constr_from. Qed.

Lemma scatter_unset (mask : list bool) (values : vec) (n i : nat) :
  nth i mask false = false ->
  nth i (Np.scatter mask values (Np.zeros n)) 0%float = 0%float.
Proof.
  unfold Np.zeros.
  revert values n i.
  induction mask as [|b mask IH]; intros values n i Hi.
  - simpl. destruct (repeat 0%float n) eqn:E; [now destruct i|].
    rewrite <- E. apply nth_repeat.
  - destruct n as [|n]; [now destruct i|].
    simpl repeat. simpl Np.scatter.
    destruct b.
    + destruct i as [|i]; [discriminate Hi|].
      destruct values as [|y values]; simpl; now apply IH.
    + destruct i as [|i]; [reflexivity|].
      simpl. now apply IH.
Qed.

Section Combination.

Variable svd : matrix -> vec.
Variable solve : matrix -> vec -> option vec.
Variable g : list Constraint.
Variable settings : Settings.
Variable x0 : vec.
Variables n_vars n_cstr n_ineq_cstr : nat.
Variable del_2_L0 : matrix.
Variable del_f0 : vec.
Variable del_g0 : matrix.
Variable g0 : vec.

Let skipped := Canonical.skipped svd n_vars del_g0.
Let combos := Canonical.poss_combos n_cstr n_ineq_cstr.
Let find_combination :=
  Canonical.find_combination svd solve g settings x0 n_vars n_cstr n_ineq_cstr
    del_2_L0 del_f0 del_g0 g0.

(** The values a combination leaves in the local variables when it is
    solved: the step and the multipliers of its linear system, the
    candidate point and the constraint values there. *)
Definition trial_of (cstr_b : list bool) : option Canonical.trial :=
  match cstr_b with
  | [] => None
  | _ =>
      match solve (Canonical.kkt_matrix del_2_L0 del_g0 cstr_b)
                  (Canonical.kkt_rhs del_f0 g0 cstr_b) with
      | None => None
      | Some x_lambda =>
          let delta_x := firstn n_vars x_lambda in
          let x1 := Np.vadd x0 delta_x in
          Some {| Canonical.t_cstr_b := cstr_b;
                  Canonical.t_delta_x := delta_x;
                  Canonical.t_l := Np.scatter cstr_b (skipn n_vars x_lambda)
                                     (Np.zeros n_cstr);
                  Canonical.t_x1 := x1;
                  Canonical.t_g1 := map (fun c => c_fun c x1) g |}
      end
  end.

(** (a): a combination that is not skipped and at whose candidate point
    no non-binding constraint is violated; (b): one that is not skipped
    and has no negative inequality multiplier. *)
Definition keeps_feasible (cstr_b : list bool) : bool :=
  negb (skipped cstr_b)
  && match trial_of cstr_b with
     | Some t => negb (Canonical.nonbinding_violated t)
     | None => false
     end.

Definition multipliers_fit (cstr_b : list bool) : bool :=
  negb (skipped cstr_b)
  && match trial_of cstr_b with
     | Some t => negb (Canonical.multiplier_negative n_ineq_cstr t)
     | None => false
     end.

Definition optimal (cstr_b : list bool) : bool :=
  keeps_feasible cstr_b && multipliers_fit cstr_b.

(** Every system that is set up has a solution: a combination before
    which no combination of the enumeration satisfies (a) and (b), the
    combinations the first loop comes to, has a system numpy solves when
    it is not skipped.  (The second loop, which runs when the first
    found nothing, sets up systems of the first loop again.) *)
Definition solvable : Prop :=
  forall pre cstr_b post,
    combos = pre ++ cstr_b :: post ->
    (forall c, In c pre -> optimal c = false) ->
    skipped cstr_b = false ->
    trial_of cstr_b <> None.

(** The same, walking the enumeration as the first loop does. *)
Fixpoint set_up_solvable (cs : list (list bool)) : bool :=
  match cs with
  | [] => true
  | c :: cs' =>
      (skipped c || match trial_of c with Some _ => true | None => false end)
      && (optimal c || set_up_solvable cs')
  end.

Lemma set_up_solvable_sound (cs : list (list bool)) :
  set_up_solvable cs = true ->
  forall pre c post,
    cs = pre ++ c :: post ->
    (forall c', In c' pre -> optimal c' = false) ->
    skipped c = false ->
    trial_of c <> None.
Proof.
  induction cs as [|c0 cs IH]; intros H pre c post E Hpre Hskip.
  - destruct pre; discriminate.
  - cbn [set_up_solvable] in H. apply andb_prop in H. destruct H as [Hhead Hrest].
    destruct pre as [|c1 pre]; cbn [app] in E; injection E as -> ->.
    + rewrite Hskip in Hhead. cbn [orb] in Hhead.
      destruct (trial_of c); [discriminate | discriminate].
    + rewrite (Hpre c1 (or_introl eq_refl)) in Hrest. cbn [orb] in Hrest.
      apply (IH Hrest pre c post eq_refl); [|exact Hskip].
      intros c' Hin. apply Hpre. now right.
Qed.

Lemma solve_trial_run (cstr_b : list bool) (t : Canonical.trial) (w : trace) :
  trial_of cstr_b = Some t ->
  Canonical.solve_trial solve g x0 n_vars n_cstr del_2_L0 del_f0 del_g0 g0 cstr_b w
  = (Ok t, w ++ map (fun i => ConstraintCall i (Canonical.t_x1 t))
                    (seq 0 (List.length g))).
Proof.
  unfold trial_of, Canonical.solve_trial, Canonical._get_x_lambda.
  destruct cstr_b as [|b cstr_b]; [discriminate|].
  set (c := b :: cstr_b).
  destruct (solve (Canonical.kkt_matrix del_2_L0 del_g0 c)
                  (Canonical.kkt_rhs del_f0 g0 c)) as [x_lambda|] eqn:E;
    [|discriminate].
  intros H. injection H as <-.
  subst c.
  match goal with
  | |- bind ?m _ _ = _ =>
      assert (Hx : m w
                   = (Ok (firstn n_vars x_lambda,
                          Np.scatter (b :: cstr_b) (skipn n_vars x_lambda)
                            (Np.zeros n_cstr)), w)) by reflexivity
  end.
  rewrite (bind_Ok _ _ _ Hx). simpl fst. simpl snd.
  rewrite (bind_Ok _ _ _ (eval_constr_run _ _ _)).
  reflexivity.
Qed.

Lemma strict_loop_finds (cs : list (list bool)) (last : option Canonical.trial)
  (w : trace) :
  (forall pre c post,
     cs = pre ++ c :: post ->
     (forall c', In c' pre -> optimal c' = false) ->
     skipped c = false ->
     trial_of c <> None) ->
  match find optimal cs with
  | Some c =>
      exists t w',
        Canonical.strict_loop svd solve g settings x0 n_vars n_cstr n_ineq_cstr
          del_2_L0 del_f0 del_g0 g0 cs last w
        = (Ok (true, Some t), w')
        /\ trial_of c = Some t
  | None =>
      exists last' w',
        Canonical.strict_loop svd solve g settings x0 n_vars n_cstr n_ineq_cstr
          del_2_L0 del_f0 del_g0 g0 cs last w
        = (Ok (false, last'), w')
  end.
Proof.
  revert last w.
  induction cs as [|c cs IH]; intros last w Hsolv.
  - simpl. do 2 eexists. reflexivity.
  - assert (Hrest : optimal c = false ->
                     forall pre c0 post,
                       cs = pre ++ c0 :: post ->
                       (forall c', In c' pre -> optimal c' = false) ->
                       skipped c0 = false ->
                       trial_of c0 <> None).
    { intros Hopt pre c0 post E Hpre.
      apply (Hsolv (c :: pre) c0 post); [now rewrite E|].
      intros c' [<- | Hin]; [exact Hopt | now apply Hpre]. }
    simpl find. simpl Canonical.strict_loop.
    unfold optimal at 1, keeps_feasible, multipliers_fit.
    fold (skipped c).
    destruct (skipped c) eqn:Hskip.
    + simpl. apply IH, Hrest.
      unfold optimal, keeps_feasible. now rewrite Hskip.
    + destruct (trial_of c) as [t|] eqn:Ht;
        [|exfalso;
          exact (Hsolv [] c cs eq_refl (fun c' F => match F with end) Hskip Ht)].
      rewrite (bind_Ok _ _ _ (solve_trial_run _ _ Ht)).
      simpl negb at 1. simpl andb.
      destruct (Canonical.nonbinding_violated t) eqn:Hviol.
      * simpl. apply IH, Hrest.
        unfold optimal, keeps_feasible. now rewrite Hskip, Ht, Hviol.
      * destruct (Canonical.multiplier_negative n_ineq_cstr t) eqn:Hneg; simpl.
        -- apply IH, Hrest.
           unfold optimal, keeps_feasible, multipliers_fit.
           now rewrite Hskip, Ht, Hviol, Hneg.
        -- rewrite (bind_Ok _ _ _ (when_run _ _ _)). unfold ret.
           do 2 eexists. split; [reflexivity | exact Ht].
Qed.

Lemma relaxed_loop_finds (cs : list (list bool)) (last : option Canonical.trial)
  (w : trace) :
  (forall c, In c cs -> skipped c = false -> trial_of c <> None) ->
  match find multipliers_fit cs with
  | Some c =>
      exists t w',
        Canonical.relaxed_loop svd solve g settings x0 n_vars n_cstr n_ineq_cstr
          del_2_L0 del_f0 del_g0 g0 cs last w
        = (Ok (Some t), w')
        /\ trial_of c = Some t
  | None =>
      exists last' w',
        Canonical.relaxed_loop svd solve g settings x0 n_vars n_cstr n_ineq_cstr
          del_2_L0 del_f0 del_g0 g0 cs last w
        = (Ok last', w')
  end.
Proof.
  revert last w.
  induction cs as [|c cs IH]; intros last w Hsolv.
  - simpl. do 2 eexists. reflexivity.
  - assert (Hrest : forall c', In c' cs -> skipped c' = false -> trial_of c' <> None)
      by (intros c' Hin; apply Hsolv; now right).
    simpl find. simpl Canonical.relaxed_loop.
    unfold multipliers_fit at 1.
    fold (skipped c).
    destruct (skipped c) eqn:Hskip.
    + simpl. apply IH, Hrest.
    + destruct (trial_of c) as [t|] eqn:Ht;
        [|exfalso; exact (Hsolv c (or_introl eq_refl) Hskip Ht)].
      rewrite (bind_Ok _ _ _ (solve_trial_run _ _ Ht)).
      simpl negb at 1. simpl andb.
      destruct (Canonical.multiplier_negative n_ineq_cstr t); simpl.
      * apply IH, Hrest.
      * rewrite (bind_Ok _ _ _ (when_run _ _ _)). unfold ret.
        do 2 eexists. split; [reflexivity | exact Ht].
Qed.

(** C3, as the code has it: the combinations are tried in the order of
    enumeration, skipping those with more binding constraints than
    design variables and those with more than one binding constraint
    whose Jacobian has a singular value below 1e-14; the step uses the
    first combination that satisfies (a) and (b); if no combination
    satisfies both, it uses the first that satisfies (b); the
    multipliers of non-binding constraints are zero.  (Every system that
    is set up is taken to have a solution, the error of the solver
    ending the call otherwise; of a combination the loops do not come
    to nothing is asked.) *)
Theorem C3_first_fitting_combination (w : trace) :
  solvable ->
  (forall c, find optimal combos = Some c ->
     exists t w', find_combination w = (Ok (Some t), w')
                  /\ trial_of c = Some t /\ Canonical.t_cstr_b t = c)
  /\ (find optimal combos = None ->
      forall c, find multipliers_fit combos = Some c ->
        exists t w', find_combination w = (Ok (Some t), w')
                     /\ trial_of c = Some t /\ Canonical.t_cstr_b t = c)
  /\ (forall c t, trial_of c = Some t ->
        forall i, nth i c false = false -> nth i (Canonical.t_l t) 0%float = 0%float).
Proof.
  intros Hsolv.
  assert (Hcstr : forall c t, trial_of c = Some t -> Canonical.t_cstr_b t = c).
  { intros c t. unfold trial_of.
    destruct c as [|b c]; [discriminate|].
    destruct (solve _ _); [|discriminate].
    intros H. now injection H as <-. }
  assert (Hstart : forall w0,
             Canonical.find_combination svd solve g settings x0 n_vars n_cstr
               n_ineq_cstr del_2_L0 del_f0 del_g0 g0 w0
             = bind (Canonical.strict_loop svd solve g settings x0 n_vars n_cstr
                       n_ineq_cstr del_2_L0 del_f0 del_g0 g0 combos None)
                 (fun r =>
                    if fst r then ret (snd r)
                    else
                      when (verbose settings)
                           (print "Optimal combination not found. Allowing non-binding constraints to be violated.") ;;;
                      Canonical.relaxed_loop svd solve g settings x0 n_vars n_cstr
                        n_ineq_cstr del_2_L0 del_f0 del_g0 g0 combos (snd r))
                 (w0 ++ if verbose settings
                        then [Console "Penalty to beat: {0}"] else [])).
  { intros w0. unfold Canonical.find_combination.
    now rewrite (bind_Ok _ _ _ (when_run _ _ _)). }
  repeat split.
  - intros c Hfind.
    pose proof (@strict_loop_finds combos None
                  (w ++ if verbose settings
                        then [Console "Penalty to beat: {0}"] else []) Hsolv) as H.
    rewrite Hfind in H. destruct H as (t & w' & Hrun & Ht).
    exists t, w'. unfold find_combination. rewrite Hstart.
    rewrite (bind_Ok _ _ _ Hrun). cbn [fst snd]. unfold ret. auto.
  - intros Hnone c Hfind.
    pose proof (@strict_loop_finds combos None
                  (w ++ if verbose settings
                        then [Console "Penalty to beat: {0}"] else []) Hsolv) as H.
    rewrite Hnone in H. destruct H as (last' & w1 & Hrun).
    assert (Hall : forall c0, In c0 combos -> skipped c0 = false ->
                              trial_of c0 <> None).
    { intros c0 Hin.
      destruct (in_split _ _ Hin) as (pre & post & E).
      apply (Hsolv pre c0 post E).
      intros c' Hin'. apply (@find_none _ _ _ Hnone).
      rewrite E. apply in_or_app. now left. }
    pose proof (relaxed_loop_finds combos last'
                  (w1 ++ if verbose settings
                         then [Console "Optimal combination not found. Allowing non-binding constraints to be violated."]
                         else []) Hall) as H.
    rewrite Hfind in H. destruct H as (t & w' & Hrun' & Ht).
    exists t, w'. unfold find_combination. rewrite Hstart.
    rewrite (bind_Ok _ _ _ Hrun). cbn [fst snd].
    rewrite (bind_Ok _ _ _ (when_run _ _ _)). auto.
  - intros c t. unfold trial_of.
    destruct c as [|b c]; [discriminate|].
    destruct (solve _ _) as [x_lambda|]; [|discriminate].
    intros H. injection H as <-.
    intros i Hi.
    exact (scatter_unset (b :: c) (skipn n_vars x_lambda) n_cstr i Hi).
Qed.

(** The combination C3 names, as the claim words it: the first that
    satisfies (a) and (b), or, when no combination satisfies (a), the
    first that satisfies (b). *)
Definition claimed_combination (c : list bool) : Prop :=
  find optimal combos = Some c
  \/ (forallb (fun c' => negb (keeps_feasible c')) combos = true
      /\ find multipliers_fit combos = Some c).

End Combination.

(** A direct solver for the systems of the examples, of one and of two
    unknowns. *)
Definition cramer_solve (m : matrix) (b : vec) : option vec :=
  match m, b with
  | [[a]], [e] => if (a =? 0)%float then None else Some [(e / a)%float]
  | [[a; b']; [c; d]], [e; f] =>
      let det := (a * d - b' * c)%float in
      if (det =? 0)%float then None
      else Some [((e * d - b' * f) / det)%float; ((a * f - e * c) / det)%float]
  | _, _ => None
  end.

(** The first step of SQP on [0.5 (x - 1)^2] under the inequality
    constraints [0.5 - x >= 0] and [1 - x^2 >= 0] from [x = 0]: gradient
    -1, Hessian 1, constraint values 0.5 and 1, constraint gradients -1
    and 0.  Binding both constraints is skipped, there being one design
    variable; binding the first gives the point 0.5 and the multiplier
    0.5 and is accepted.  The system that binds the second alone is
    singular, and is not set up. *)
Definition half_bound : Constraint :=
  {| c_type := "ineq";
     c_fun := fun x => (0.5 - nth 0 x 0)%float;
     c_grad := None |}.

Definition unit_interval : Constraint :=
  {| c_type := "ineq";
     c_fun := fun x => (1 - nth 0 x 0 * nth 0 x 0)%float;
     c_grad := None |}.

Lemma half_bound_solvable :
  solvable no_svd cramer_solve [half_bound; unit_interval] [0%float] 1 2 2
    [[1%float]] [(-1)%float] [[(-1)%float; 0%float]] [0.5%float; 1%float].
Proof.
  unfold solvable. apply set_up_solvable_sound. vm_compute. reflexivity.
Qed.

Lemma C3_first_fitting_combination_witness :
  (exists t w',
     Canonical.find_combination no_svd cramer_solve [half_bound; unit_interval]
       default_settings [0%float] 1 2 2 [[1%float]] [(-1)%float]
       [[(-1)%float; 0%float]] [0.5%float; 1%float] []
     = (Ok (Some t), w')
     /\ trial_of cramer_solve [half_bound; unit_interval] [0%float] 1 2 [[1%float]]
          [(-1)%float] [[(-1)%float; 0%float]] [0.5%float; 1%float] [true; false]
        = Some t
     /\ Canonical.t_cstr_b t = [true; false])
  /\ trial_of cramer_solve [half_bound; unit_interval] [0%float] 1 2 [[1%float]]
       [(-1)%float] [[(-1)%float; 0%float]] [0.5%float; 1%float] [false; true]
     = None.
Proof.
  split; [|reflexivity].
  exact (proj1 (@C3_first_fitting_combination no_svd cramer_solve
                  [half_bound; unit_interval] default_settings [0%float] 1 2 2
                  [[1%float]] [(-1)%float] [[(-1)%float; 0%float]]
                  [0.5%float; 1%float] [] half_bound_solvable)
               [true; false] eq_refl).
Defined.

(** The first step of SQP on [0.5 (x - 1)^2] under the inequality
    constraint [1 + x - 3 x^2 >= 0] from [x = 0]: gradient -1, Hessian
    1, constraint value 1 and constraint gradient 1.  Binding the
    constraint gives the multiplier -2; leaving it out gives the point
    1, where the constraint is violated. *)
Definition bowed_constraint : Constraint :=
  {| c_type := "ineq";
     c_fun := fun x => (1 + nth 0 x 0 - 3 * (nth 0 x 0 * nth 0 x 0))%float;
     c_grad := None |}.

(** C3 as stated does not hold on this step: the combination that binds
    the constraint satisfies (a), so some combination satisfies (a), and
    none satisfies (a) and (b); the step is taken with the constraint
    not binding, a combination that satisfies only (b). *)
Lemma C3_fallback_counterexample :
  option_map Canonical.t_cstr_b
    (match fst (Canonical.find_combination no_svd cramer_solve [bowed_constraint]
                  default_settings [0%float] 1 1 1 [[1%float]] [(-1)%float]
                  [[1%float]] [1%float] []) with
     | Ok last => last
     | _ => None
     end)
  = Some [false]
  /\ ~ claimed_combination no_svd cramer_solve [bowed_constraint] [0%float] 1 1 1
         [[1%float]] [(-1)%float] [[1%float]] [1%float] [false].
Proof.
  split; [vm_compute; reflexivity|].
  intros [H | [H _]]; vm_compute in H; discriminate.
Qed.

(** ** What the drivers return *)

Lemma bind_Ok_inv {A B} (m : M A) (k : A -> M B) (w w' : trace) (b : B) :
  bind m k w = (Ok b, w') ->
  exists a w1, m w = (Ok a, w1) /\ k a w1 = (Ok b, w').
Proof.
  unfold bind. destruct (m w) as [[a| |] w1]; intros H; try discriminate.
  now exists a, w1.
Qed.

(** Splits a run of [x <- m ;; k] that ended with a value into the run
    of [m] and the run of [k]. *)
Ltac split_run H :=
  let a := fresh "a" in
  let w1 := fresh "w" in
  let Hm := fresh "Hm" in
  apply bind_Ok_inv in H; destruct H as (a & w1 & Hm & H).

Section BfgsReturns.

Variable ops : Scalars.
Variable quadratic : vec -> vec -> QuadraticFit.
Variable array_as_index : list nat -> option nat.
Variable f : Objective.
Variable settings : Settings.

Lemma bfgs_inner_returns (fuel : nat) (N0 : matrix) (l : Canonical.bfgs_locals)
  (v : Canonical.bfgs_inner) (w w' : trace) (r : OptimizerResult) :
  Canonical.bfgs_inner_loop ops quadratic array_as_index f settings fuel N0 l v w
  = (Ok (Canonical.Return r), w') ->
  success r = true /\ message r = "Gradient tolerance reached."%string.
Proof.
  revert l v w.
  induction fuel as [|fuel IH]; intros l v w H; [discriminate|].
  cbn [Canonical.bfgs_inner_loop] in H.
  destruct (negb (Canonical.bfgs_continues settings l)); [discriminate|].
  split_run H. split_run H.
  destruct (Np.norm a <? grad_tol settings)%float.
  - split_run H. injection H as <- _. split; reflexivity.
  - match type of H with
    | (if ?c then _ else _) _ = _ => destruct c
    end.
    + split_run H. discriminate.
    + split_run H. split_run H.
      destruct a2 as [[[x2' f2'] alpha] wolfe_satis].
      destruct (negb wolfe_satis).
      * split_run H. discriminate.
      * exact (IH _ _ _ H).
Qed.

(** X5: every result the BFGS driver returns has [success = True] and
    one of its two messages: the driver has no failure result. *)
Lemma bfgs_returns_success (fuel : nat) (x_start : vec) (w w' : trace)
  (r : OptimizerResult) :
  Canonical._bfgs ops quadratic array_as_index f settings fuel x_start w = (Ok r, w') ->
  success r = true
  /\ (message r = "Gradient tolerance reached."%string
      \/ message r = "Step tolerance reached."%string).
Proof.
  unfold Canonical._bfgs.
  generalize (List.length x_start) as n.
  generalize {| Canonical.iter := (-1)%Z; Canonical.o_iter := (-1)%Z;
                Canonical.i_iter := 0; Canonical.mag_dx := 1;
                Canonical.x0 := x_start; Canonical.alpha_guess := None;
                Canonical.x2 := None; Canonical.f2 := None |} as l.
  revert w.
  induction fuel as [|fuel IH]; intros w l n H; [discriminate|].
  cbn [Canonical.bfgs_outer_loop] in H.
  destruct (negb (Canonical.bfgs_continues settings l)).
  - split_run H. split_run H. split_run H.
    injection H as <- _. split; [reflexivity | now right].
  - split_run H. split_run H. split_run H. split_run H. split_run H. split_run H.
    destruct a4 as [[[x1 f1] alpha] wolfe_satis].
    split_run H.
    destruct a4 as [r' | l'].
    + injection H as <- _.
      destruct (bfgs_inner_returns _ _ _ _ _ Hm5) as [Hs Hmsg].
      split; [exact Hs | now left].
    + exact (IH _ _ _ H).
Qed.

(** The last [return] of the driver, reached with [f2] not assigned. *)
Lemma bfgs_unassigned_result (fuel n : nat) (l : Canonical.bfgs_locals) (w : trace) :
  Canonical.bfgs_continues settings l = false ->
  Canonical.f2 l = None ->
  Canonical.bfgs_outer_loop ops quadratic array_as_index f settings (S fuel) n l w
  = (Raise (UnboundLocalError "f2"), w).
Proof.
  intros Hstop Hf2. cbn [Canonical.bfgs_outer_loop].
  rewrite Hstop, Hf2. reflexivity.
Qed.

End BfgsReturns.

Section GrgCode.

Variable task :
  Objective -> list Constraint -> vec -> vec -> float -> vec -> matrix -> matrix ->
  list nat -> list nat -> nat -> nat -> list bool -> Settings ->
  M (option (vec * float * vec)).
Variable f : Objective.
Variable g : list Constraint.
Variable settings : Settings.
Variables s z0 y0 : vec.
Variables z_ind0 y_ind0 : list nat.
Variable f0 : float.
Variable g0 : vec.
Variable cstr_b : list bool.
Variables d_psi_d_z0 d_psi_d_y0 : matrix.
Variables n_vars n_binding : nat.

(** The starting point of the line search, in design variables. *)
Definition grg_start : vec :=
  skipn n_binding
    (if negb (n_binding =? 0)%nat
     then Np.assign_at y_ind0 y0 (Np.assign_at z_ind0 z0 (Np.zeros (n_vars + n_binding)))
     else z0).

(** The transposed array of points of an attempt has one row per
    coordinate of the starting point, however many points came back. *)
Lemma grg_attempt_rows (alpha : float) (w w' : trace)
  (a : Canonical.grg_samples) (count : nat) :
  Canonical.grg_attempt task f g settings s z0 y0 z_ind0 y_ind0 f0 g0 cstr_b
    d_psi_d_z0 d_psi_d_y0 n_vars n_binding alpha w = (Ok (a, count), w') ->
  List.length (Canonical.xs_T a) = List.length grg_start.
Proof.
  unfold Canonical.grg_attempt. intros H. split_run H.
  injection H as <- _ _. cbn [Canonical.xs_T].
  unfold Np.array_T, Np.transpose. cbn [hd].
  rewrite length_map, length_seq. reflexivity.
Qed.

(** The code of the line search: it is -1 only when the starting point
    has one coordinate, whatever the number of points that came back. *)
Lemma grg_code_of_rows (fuel : nat) (alpha : float)
  (last : option Canonical.grg_samples) (w w' : trace)
  (r : vec * float * vec * Z) :
  (forall smp, last = Some smp ->
     List.length (Canonical.xs_T smp) = List.length grg_start) ->
  Canonical.grg_alpha_loop task f g settings s z0 y0 z_ind0 y_ind0 f0 g0 cstr_b
    d_psi_d_z0 d_psi_d_y0 n_vars n_binding fuel alpha last w = (Ok r, w') ->
  snd r = 1%Z \/ (snd r = (-1)%Z /\ List.length grg_start = 1%nat).
Proof.
  revert alpha last w.
  induction fuel as [|fuel IH]; intros alpha last w Hlast H; [discriminate|].
  cbn [Canonical.grg_alpha_loop] in H.
  destruct (termination_tol settings <? alpha)%float.
  - split_run H. split_run H.
    match type of Hm0 with
    | _ = (Ok ?p, _) => destruct p as [smp count]
    end.
    pose proof (grg_attempt_rows _ _ Hm0) as Hrows.
    assert (Hnext : forall smp', Some smp = Some smp' ->
                      List.length (Canonical.xs_T smp') = List.length grg_start)
      by (intros smp' [= <-]; exact Hrows).
    destruct (count =? 1)%nat.
    + split_run H. exact (IH _ _ _ Hnext H).
    + split_run H.
      match type of H with
      | (if ?c then _ else _) _ = _ => destruct c
      end; [split_run H; exact (IH _ _ _ Hnext H)|].
      match type of H with
      | (if ?c then _ else _) _ = _ => destruct c
      end; [split_run H; exact (IH _ _ _ Hnext H)|].
      injection H as <- _. now left.
  - split_run H. destruct last as [smp|]; [|discriminate].
    injection Hm as <- _.
    specialize (Hlast _ eq_refl).
    destruct (List.length (Canonical.xs_T smp) =? 1)%nat eqn:Hone.
    + injection H as <- _. right. split; [reflexivity|].
      apply Nat.eqb_eq in Hone. congruence.
    + injection H as <- _. now left.
Qed.

(** [_grg_line_search] from a point of more than one coordinate never
    gives the code -1. *)
Lemma grg_line_search_no_failure_code (fuel : nat) (alpha : float) (w w' : trace)
  (r : vec * float * vec * Z) :
  List.length grg_start <> 1%nat ->
  Canonical._grg_line_search task f g settings s z0 y0 z_ind0 y_ind0 f0 g0 cstr_b
    d_psi_d_z0 d_psi_d_y0 n_vars n_binding fuel alpha w = (Ok r, w') ->
  snd r = 1%Z.
Proof.
  intros Hrows H. unfold Canonical._grg_line_search in H.
  split_run H.
  apply grg_code_of_rows in H; [|discriminate].
  destruct H as [H | [_ H]]; [exact H | contradiction].
Qed.

End GrgCode.

(* ================================================================== *)
(** * Further properties of the helpers and the drivers *)
(* ================================================================== *)

(** ** The enumeration of the binding sets *)

Lemma product_cons_In {A} (o : list A) (rest : list (list A)) (c : list A) :
  In c (Canonical.product (o :: rest))
  <-> exists a c', c = a :: c' /\ In a o /\ In c' (Canonical.product rest).
Proof.
  cbn [Canonical.product]. rewrite in_flat_map. split.
  - intros (a & Ha & Hc). apply in_map_iff in Hc. destruct Hc as (c' & <- & Hc').
    now exists a, c'.
  - intros (a & c' & -> & Ha & Hc'). exists a. split; [exact Ha|].
    now apply in_map.
Qed.

Lemma product_all_true (k : nat) :
  Canonical.product (repeat [true] k) = [repeat true k].
Proof.
  induction k as [|k IH]; [reflexivity|].
  cbn [repeat Canonical.product flat_map]. rewrite IH. reflexivity.
Qed.

Lemma product_choices (m : nat) (rest : list (list bool)) :
  Canonical.product (repeat [true; false] (S m) ++ rest)
  = map (cons true) (Canonical.product (repeat [true; false] m ++ rest))
    ++ map (cons false) (Canonical.product (repeat [true; false] m ++ rest)).
Proof.
  cbn [repeat app Canonical.product flat_map]. now rewrite app_nil_r.
Qed.

Lemma poss_combos_In (m k : nat) (c : list bool) :
  In c (Canonical.product (repeat [true; false] m ++ repeat [true] k))
  <-> List.length c = (m + k)%nat /\ skipn m c = repeat true k.
Proof.
  revert c. induction m as [|m IH]; intros c.
  - cbn [repeat app]. rewrite product_all_true. cbn [In skipn Nat.add]. split.
    + intros [<- | []]. split; [apply repeat_length | reflexivity].
    + intros [_ ->]. now left.
  - rewrite product_choices, in_app_iff, !in_map_iff. split.
    + intros [(c' & <- & Hc') | (c' & <- & Hc')]; apply IH in Hc';
        destruct Hc' as [Hlen Hskip]; cbn [List.length skipn]; split;
        solve [lia | exact Hskip].
    + intros [Hlen Hskip]. destruct c as [|b c']; [discriminate|].
      cbn [List.length skipn] in Hlen, Hskip.
      assert (Hc' : In c' (Canonical.product (repeat [true; false] m ++ repeat [true] k)))
        by (apply IH; split; [lia | exact Hskip]).
      destruct b; [left | right]; now exists c'.
Qed.

Lemma poss_combos_count (m k : nat) :
  List.length (Canonical.product (repeat [true; false] m ++ repeat [true] k))
  = (2 ^ m)%nat.
Proof.
  induction m as [|m IH].
  - cbn [repeat app]. now rewrite product_all_true.
  - rewrite product_choices, length_app, !length_map, IH.
    cbn [Nat.pow]. lia.
Qed.

Lemma NoDup_map_cons {A} (a : A) (l : list (list A)) :
  NoDup l -> NoDup (map (cons a) l).
Proof.
  induction 1 as [|c l Hc Hl IH]; cbn [map]; constructor; [|exact IH].
  intros Hin. apply in_map_iff in Hin. destruct Hin as (c' & [= ->] & Hc').
  contradiction.
Qed.

Lemma poss_combos_NoDup (m k : nat) :
  NoDup (Canonical.product (repeat [true; false] m ++ repeat [true] k)).
Proof.
  induction m as [|m IH].
  - cbn [repeat app]. rewrite product_all_true.
    constructor; [intros [] | constructor].
  - rewrite product_choices.
    apply NoDup_app; [now apply NoDup_map_cons | now apply NoDup_map_cons |].
    intros c H1 H2. apply in_map_iff in H1. apply in_map_iff in H2.
    destruct H1 as (c1 & <- & _). destruct H2 as (c2 & [=] & _).
Qed.

Lemma poss_combos_first (m k : nat) :
  hd_error (Canonical.product (repeat [true; false] m ++ repeat [true] k))
  = Some (repeat true (m + k)).
Proof.
  induction m as [|m IH].
  - cbn [repeat app]. now rewrite product_all_true.
  - rewrite product_choices.
    destruct (Canonical.product (repeat [true; false] m ++ repeat [true] k)) as [|c l];
      [discriminate|].
    cbn in IH |- *. injection IH as ->. reflexivity.
Qed.

Lemma last_app_nonempty {A} (l1 l2 : list A) (d : A) :
  l2 <> [] -> last (l1 ++ l2) d = last l2 d.
Proof.
  intros H2. induction l1 as [|a l1 IH]; [reflexivity|].
  cbn [app]. destruct (l1 ++ l2) eqn:E.
  - apply app_eq_nil in E. destruct E as [_ E]. contradiction.
  - rewrite <- IH. reflexivity.
Qed.

Lemma last_map_nonempty {A B} (f : A -> B) (l : list A) (d : A) (d' : B) :
  l <> [] -> last (map f l) d' = f (last l d).
Proof.
  induction l as [|a l IH]; intros Hl; [contradiction|].
  destruct l as [|b l]; [reflexivity|].
  change (last (map f (a :: b :: l)) d') with (last (map f (b :: l)) d').
  change (last (a :: b :: l) d) with (last (b :: l) d).
  apply IH. discriminate.
Qed.

Lemma poss_combos_last (m k : nat) :
  last (Canonical.product (repeat [true; false] m ++ repeat [true] k)) []
  = repeat false m ++ repeat true k.
Proof.
  induction m as [|m IH].
  - cbn [repeat app]. now rewrite product_all_true.
  - rewrite product_choices.
    assert (Hne : Canonical.product (repeat [true; false] m ++ repeat [true] k) <> []).
    { intros E. pose proof (poss_combos_count m k) as Hn. rewrite E in Hn.
      cbn in Hn. pose proof (Nat.pow_nonzero 2 m). lia. }
    rewrite last_app_nonempty.
    + rewrite (@last_map_nonempty _ _ (cons false)
                 (Canonical.product (repeat [true; false] m ++ repeat [true] k))
                 [] [] Hne).
      rewrite IH. reflexivity.
    + intros E. apply map_eq_nil in E. contradiction.
Qed.

(** X1: the combinations [_get_delta_x] goes through, for [n_ineq_cstr]
    inequality constraints among [n_cstr] constraints: there are
    [2^n_ineq_cstr] of them, no one twice; they are the masks of length
    [n_cstr] that mark every equality constraint as binding, and all of
    those; the first to be tried marks every constraint as binding, the
    last only the equality constraints. *)
Theorem poss_combos_enumeration (n_cstr n_ineq_cstr : nat) :
  (n_ineq_cstr <= n_cstr)%nat ->
  let combos := Canonical.poss_combos n_cstr n_ineq_cstr in
  List.length combos = (2 ^ n_ineq_cstr)%nat
  /\ NoDup combos
  /\ (forall c, In c combos
                <-> List.length c = n_cstr
                    /\ skipn n_ineq_cstr c = repeat true (n_cstr - n_ineq_cstr))
  /\ hd_error combos = Some (repeat true n_cstr)
  /\ last combos [] = repeat false n_ineq_cstr ++ repeat true (n_cstr - n_ineq_cstr).
Proof.
  intros Hle combos. unfold combos, Canonical.poss_combos.
  split; [apply poss_combos_count|].
  split; [apply poss_combos_NoDup|].
  split.
  - intros c. rewrite poss_combos_In.
    replace (n_ineq_cstr + (n_cstr - n_ineq_cstr))%nat with n_cstr by lia.
    reflexivity.
  - rewrite poss_combos_first, poss_combos_last.
    replace (n_ineq_cstr + (n_cstr - n_ineq_cstr))%nat with n_cstr by lia.
    split; reflexivity.
Qed.

(** Two inequality constraints and one equality constraint. *)
Lemma poss_combos_enumeration_witness :
  List.length (Canonical.poss_combos 3 2) = 4%nat
  /\ hd_error (Canonical.poss_combos 3 2) = Some [true; true; true]
  /\ last (Canonical.poss_combos 3 2) [] = [false; false; true].
Proof.
  destruct (@poss_combos_enumeration 3 2 (le_S _ _ (le_n 2)))
    as (Hcount & _ & _ & Hfirst & Hlast).
  repeat split; assumption.
Defined.

(** ** Entries of the constraint list with another type *)

Lemma filter_tags_length (cs : list ConstraintSpec) :
  (List.length (filter is_ineq cs) + List.length (filter is_eq cs)
   = List.length (filter (fun c => is_ineq c || is_eq c) cs))%nat.
Proof.
  induction cs as [|c cs IH]; [reflexivity|].
  cbn [filter].
  destruct (is_ineq c) eqn:Ei; destruct (is_eq c) eqn:Ee; cbn [orb List.length]; try lia.
  unfold is_ineq in Ei. unfold is_eq in Ee.
  apply String.eqb_eq in Ei. apply String.eqb_eq in Ee. congruence.
Qed.

Lemma filter_length_lt {A} (p : A -> bool) (l : list A) (a : A) :
  In a l -> p a = false -> (List.length (filter p l) < List.length l)%nat.
Proof.
  induction l as [|b l IH]; intros Hin Hp; [contradiction|].
  pose proof (filter_length_le p l) as Hle.
  cbn [filter]. destruct Hin as [-> | Hin].
  - rewrite Hp. cbn. lia.
  - specialize (IH Hin Hp). destruct (p b); cbn; lia.
Qed.

(** X2: [get_constraints] builds an adapter for the entries of type
    "ineq" and for those of type "eq" only, while [n_cstr] is the length
    of the caller's list: an entry of any other type gets no adapter and
    is still counted, so the adapter list is shorter than [n_cstr], and
    [n_cstr - n_ineq_cstr], which [minimize] compares with the number of
    design variables, counts that entry with the equality constraints. *)
Theorem get_constraints_other_tags (cs : list ConstraintSpec) :
  exists g,
    Legacy.get_constraints (Some cs)
    = (Some g, List.length cs, List.length (filter is_ineq cs))
    /\ List.length g = List.length (filter (fun c => is_ineq c || is_eq c) cs)
    /\ (List.length cs - List.length (filter is_ineq cs)
        = List.length (filter (fun c => negb (is_ineq c)) cs))%nat
    /\ (forall c, In c cs -> is_ineq c = false -> is_eq c = false ->
          (List.length g < List.length cs)%nat).
Proof.
  exists (map Legacy.Constraint_ (filter is_ineq cs)
          ++ map Legacy.Constraint_ (filter is_eq cs)).
  split; [|split; [|split]].
  - unfold Legacy.get_constraints. rewrite ineq_pass_filter, eq_pass_filter.
    reflexivity.
  - rewrite length_app, !length_map. apply filter_tags_length.
  - pose proof (filter_length is_ineq cs). lia.
  - intros c Hin Hi He.
    rewrite length_app, !length_map, filter_tags_length.
    apply (filter_length_lt _ _ c Hin). now rewrite Hi, He.
Qed.

(** ** The indices of the bracket *)

Lemma float_eqb_self (x : float) : Np.isnan x = false -> (x =? x)%float = true.
Proof.
  unfold Np.isnan, PrimFloat.is_nan. intros H.
  now destruct (x =? x)%float.
Qed.

Lemma min_from_In (x : float) (rest : list float) :
  In (Np.min_from x rest) (x :: rest).
Proof.
  unfold Np.min_from. revert x.
  induction rest as [|y rest IH]; intros x; cbn [fold_left]; [now left|].
  destruct (y <? x)%float.
  - right. apply IH.
  - destruct (IH x) as [E | Hin]; [now left | right; now right].
Qed.

Lemma index_of_In (v : float) (l : list float) :
  In v l -> (v =? v)%float = true ->
  exists i, Np.index_of v l = Some i /\ (i < List.length l)%nat.
Proof.
  intros Hin Hv.
  induction l as [|x l IH]; [contradiction|].
  cbn [Np.index_of List.length].
  destruct (x =? v)%float eqn:E.
  - exists 0%nat. split; [reflexivity | lia].
  - destruct Hin as [-> | Hin]; [congruence|].
    destruct (IH Hin) as (i & -> & Hi).
    exists (S i). split; [reflexivity | lia].
Qed.

Lemma any_isnan_In (v : vec) (x : float) :
  Np.any_isnan v = false -> In x v -> Np.isnan x = false.
Proof.
  unfold Np.any_isnan. intros H Hin.
  destruct (Np.isnan x) eqn:E; [|reflexivity].
  assert (existsb Np.isnan v = true) by (apply existsb_exists; now exists x).
  congruence.
Qed.

Lemma index_in_range {A} (l : list A) (i : nat) :
  (i < List.length l)%nat -> exists x, forall w, index l (Z.of_nat i) w = (Ok x, w).
Proof.
  intros Hi. destruct (nth_error l i) as [x|] eqn:E.
  - exists x. intros w. now apply index_nat.
  - apply nth_error_None in E. lia.
Qed.

(** What a read of the bracket in range can end with: a step, or the
    exception of a square or of the division. *)
Definition step_or_arithmetic_error (r : outcome float) : bool :=
  match r with
  | Ok _ => true
  | Raise (ZeroDivisionError _) => true
  | Raise (OverflowError _) => true
  | _ => false
  end.

(** Scalars whose square and division raise nothing. *)
Definition never_raise (ops : Scalars) : Prop :=
  (forall x, pow2 ops x <> None) /\ (forall x y, truediv ops x y <> None).

Lemma bracket_step_outcome (ops : Scalars) (a1 a2 a3 f1 f2 f3 : float) :
  step_or_arithmetic_error (bracket_step ops a1 a2 a3 f1 f2 f3) = true
  /\ (never_raise ops -> exists v, bracket_step ops a1 a2 a3 f1 f2 f3 = Ok v).
Proof.
  unfold bracket_step, bracket_quotient, never_raise.
  split.
  - destruct (pow2 ops a1); [|reflexivity].
    destruct (pow2 ops a2); [|reflexivity].
    destruct (pow2 ops a3); [|reflexivity].
    destruct (truediv ops _ _); reflexivity.
  - intros [Hpow Hdiv].
    destruct (pow2 ops a1) eqn:E1; [|now apply Hpow in E1].
    destruct (pow2 ops a2) eqn:E2; [|now apply Hpow in E2].
    destruct (pow2 ops a3) eqn:E3; [|now apply Hpow in E3].
    destruct (truediv ops _ _) eqn:E4; [|now apply Hdiv in E4].
    eexists. reflexivity.
Qed.

(** X3: in an attempt of the line search whose samples hold no
    not-a-number, a minimum that is neither the first nor the last
    sample has an index strictly between 0 and [n_search]; and with such
    an index [_find_opt_alpha] reads its six list entries in range:
    whatever the fit, the call leaves the trace as it is and ends with a
    step or with the exception of a square or of the division, never
    with IndexError; it ends with a step when the squares and the
    division raise nothing. *)
Theorem bracket_indices_in_range (ops : Scalars) (quadratic : vec -> vec -> QuadraticFit)
  (a f_search : vec) (n_search min_ind : nat) (s : Settings) :
  List.length f_search = S n_search ->
  List.length a = S n_search ->
  Np.any_isnan f_search = false ->
  Canonical.classify f_search n_search = Canonical.Interior min_ind ->
  (0 < min_ind < n_search)%nat
  /\ exists r,
       (forall w,
          Canonical._find_opt_alpha ops quadratic a f_search (Z.of_nat min_ind) s w
          = (r, w))
       /\ step_or_arithmetic_error r = true
       /\ (never_raise ops -> exists alpha_opt, r = Ok alpha_opt).
Proof.
  intros Hf Ha Hnan Hclass.
  assert (Hrange : (0 < min_ind < n_search)%nat).
  { unfold Canonical.classify in Hclass.
    destruct f_search as [|f0 rest]; [discriminate|].
    cbn [Np.min_of] in Hclass.
    pose proof (min_from_In f0 rest) as Hin.
    pose proof (@float_eqb_self _ (@any_isnan_In _ _ Hnan Hin)) as Hself.
    destruct (@index_of_In _ _ Hin Hself) as (i & Hi & Hlt).
    rewrite Hi in Hclass. rewrite Hf in Hlt.
    destruct i as [|i]; [discriminate|].
    destruct (Nat.eqb_spec (S i) n_search) as [E | E]; [discriminate|].
    injection Hclass as <-. lia. }
  split; [exact Hrange|].
  destruct (nth_error a (min_ind - 1)) as [a1|] eqn:Ha1;
    [|apply nth_error_None in Ha1; lia].
  destruct (nth_error a min_ind) as [a2|] eqn:Ha2;
    [|apply nth_error_None in Ha2; lia].
  destruct (nth_error a (min_ind + 1)) as [a3|] eqn:Ha3;
    [|apply nth_error_None in Ha3; lia].
  destruct (nth_error f_search (min_ind - 1)) as [f1|] eqn:Hf1;
    [|apply nth_error_None in Hf1; lia].
  destruct (nth_error f_search min_ind) as [f2|] eqn:Hf2;
    [|apply nth_error_None in Hf2; lia].
  destruct (nth_error f_search (min_ind + 1)) as [f3|] eqn:Hf3;
    [|apply nth_error_None in Hf3; lia].
  destruct (bracket_step_outcome ops a1 a2 a3 f1 f2 f3) as [Hkind Hstep].
  destruct (String.eqb (search_type s) "quadratic") eqn:Hs.
  - destruct (fit_rejected (quadratic a f_search) s) eqn:Hrej.
    + exists (bracket_step ops a1 a2 a3 f1 f2 f3).
      split; [|split; assumption].
      intros w. rewrite find_opt_alpha_generations.
      apply bracket_fallback; auto; lia.
    + unfold fit_rejected in Hrej.
      destruct (vertex_alpha (quadratic a f_search)) as [alpha_opt|] eqn:Hv;
        [|discriminate].
      exists (Ok alpha_opt).
      split; [|split; [reflexivity | now exists alpha_opt]].
      intros w. unfold Canonical._find_opt_alpha.
      rewrite Hs. cbv zeta. rewrite Hv, Hrej. reflexivity.
  - exists (bracket_step ops a1 a2 a3 f1 f2 f3).
    split; [|split; assumption].
    intros w. rewrite find_opt_alpha_generations.
    apply bracket_fallback; auto; lia.
Qed.

Lemma ieee_scalars_never_raise : never_raise ieee_scalars.
Proof. split; intros; discriminate. Qed.

(** Samples 2, 1, 2, 5 at the steps 0, 1, 2, 3. *)
Lemma bracket_indices_in_range_witness :
  (0 < 1 < 3)%nat
  /\ exists r,
       (forall w,
          Canonical._find_opt_alpha ieee_scalars no_fit [0; 1; 2; 3]%float
            [2; 1; 2; 5]%float 1 default_settings w
          = (r, w))
       /\ step_or_arithmetic_error r = true
       /\ (never_raise ieee_scalars -> exists alpha_opt, r = Ok alpha_opt).
Proof.
  exact (@bracket_indices_in_range ieee_scalars no_fit [0; 1; 2; 3]%float
           [2; 1; 2; 5]%float 3 1 default_settings eq_refl eq_refl eq_refl eq_refl).
Defined.

Lemma nth_error_last {A} (l : list A) (d : A) :
  l <> [] -> nth_error l (List.length l - 1) = Some (last l d).
Proof.
  induction l as [|x l IH]; intros Hl; [contradiction|].
  destruct l as [|y l]; [reflexivity|].
  change (last (x :: y :: l) d) with (last (y :: l) d).
  rewrite <- IH by discriminate.
  cbn [List.length].
  replace (S (S (List.length l)) - 1)%nat with (S (S (List.length l) - 1)) by lia.
  reflexivity.
Qed.

Lemma index_minus_one {A} (l : list A) (d : A) (w : trace) :
  l <> [] -> index l (-1) w = (Ok (last l d), w).
Proof.
  intros Hl. unfold index.
  assert (Hlen : (0 < List.length l)%nat) by (destruct l; [contradiction | cbn; lia]).
  change (-1 <? 0)%Z with true. cbv iota.
  destruct (Z.ltb_spec (-1 + Z.of_nat (List.length l)) 0) as [Hneg | _]; [lia|].
  destruct (Z.leb_spec (Z.of_nat (List.length l)) (-1 + Z.of_nat (List.length l)))
    as [Hge | _]; [lia|].
  cbn [orb].
  replace (Z.to_nat (-1 + Z.of_nat (List.length l))) with (List.length l - 1)%nat by lia.
  now rewrite (nth_error_last d Hl).
Qed.

Lemma index_past_end {A} (l : list A) (w : trace) :
  index l (Z.of_nat (List.length l)) w
  = (Raise (IndexError "list index out of range"), w).
Proof.
  unfold index.
  destruct (Z.ltb_spec (Z.of_nat (List.length l)) 0) as [Hneg | _]; [lia|].
  destruct (Z.ltb_spec (Z.of_nat (List.length l)) 0) as [Hneg | _]; [lia|].
  destruct (Z.leb_spec (Z.of_nat (List.length l)) (Z.of_nat (List.length l)))
    as [_ | Hlt]; [reflexivity | lia].
Qed.

(** X4: [find_opt_alpha] at the two ends of the samples, with the
    bracket method and [n + 1] samples, [n >= 1].  With the minimum
    index at the last sample the read of [a[min_ind + 1]] raises
    [IndexError].  With the minimum index 0 no read raises: the reads at
    [min_ind - 1 = -1] take the last step and the last value, so the
    call ends as the bracket made of the last, the first and the second
    sample does.  Both generations do the same. *)
Theorem find_opt_alpha_edges (ops : Scalars) (quadratic : vec -> vec -> QuadraticFit)
  (a f_search : vec) (n : nat) (s : Settings) (w : trace) :
  List.length a = S n ->
  List.length f_search = S n ->
  (1 <= n)%nat ->
  search_type s = "bracket"%string ->
  Legacy.find_opt_alpha ops quadratic a f_search (Z.of_nat n) s w
  = (Raise (IndexError "list index out of range"), w)
  /\ Legacy.find_opt_alpha ops quadratic a f_search 0 s w
     = (bracket_step ops (last a 0%float) (nth 0 a 0%float) (nth 1 a 0%float)
          (last f_search 0%float) (nth 0 f_search 0%float)
          (nth 1 f_search 0%float), w)
  /\ Canonical._find_opt_alpha ops quadratic a f_search (Z.of_nat n) s w
     = Legacy.find_opt_alpha ops quadratic a f_search (Z.of_nat n) s w
  /\ Canonical._find_opt_alpha ops quadratic a f_search 0 s w
     = Legacy.find_opt_alpha ops quadratic a f_search 0 s w.
Proof.
  intros Ha Hf Hn Hs.
  split; [|split; [|split; apply find_opt_alpha_generations]].
  - unfold Legacy.find_opt_alpha. rewrite Hs. cbn [String.eqb Ascii.eqb Bool.eqb].
    destruct (@index_in_range _ a (n - 1)) as [a1 Ha1]; [lia|].
    destruct (@index_in_range _ a n) as [a2 Ha2]; [lia|].
    replace (Z.of_nat (n - 1)) with (Z.of_nat n - 1)%Z in Ha1 by lia.
    rewrite (bind_Ok _ _ _ (Ha1 w)), (bind_Ok _ _ _ (Ha2 w)).
    apply bind_Raise.
    replace (Z.of_nat n + 1)%Z with (Z.of_nat (List.length a)) by lia.
    apply index_past_end.
  - destruct a as [|x0 [|x1 a]]; try (cbn in Ha; lia).
    destruct f_search as [|y0 [|y1 f_search]]; try (cbn in Hf; lia).
    unfold Legacy.find_opt_alpha. rewrite Hs. cbn [String.eqb Ascii.eqb Bool.eqb].
    change (0 - 1)%Z with (-1)%Z. change (0 + 1)%Z with 1%Z.
    pose proof (@index_minus_one _ (x0 :: x1 :: a) 0%float w ltac:(discriminate)) as Ha1.
    pose proof (@index_nat _ (x0 :: x1 :: a) 0 x0 w eq_refl) as Ha2.
    pose proof (@index_nat _ (x0 :: x1 :: a) 1 x1 w eq_refl) as Ha3.
    pose proof (@index_minus_one _ (y0 :: y1 :: f_search) 0%float w
                  ltac:(discriminate)) as Hf1.
    pose proof (@index_nat _ (y0 :: y1 :: f_search) 0 y0 w eq_refl) as Hf2.
    pose proof (@index_nat _ (y0 :: y1 :: f_search) 1 y1 w eq_refl) as Hf3.
    change (Z.of_nat 0) with 0%Z in Ha2, Hf2.
    change (Z.of_nat 1) with 1%Z in Ha3, Hf3.
    rewrite (bind_Ok _ _ _ Ha1), (bind_Ok _ _ _ Ha2), (bind_Ok _ _ _ Ha3),
      (bind_Ok _ _ _ Hf1), (bind_Ok _ _ _ Hf2), (bind_Ok _ _ _ Hf3).
    cbn [nth]. apply legacy_bracket_run.
Qed.

(** Samples 1, 2, 5, 3 at the steps 0, 1, 2, 3: at index 3 the reads
    leave the list; at index 0 the bracket is made of the steps 3, 0, 1
    with the values 3, 1, 2. *)
Lemma find_opt_alpha_edges_witness :
  Legacy.find_opt_alpha ieee_scalars no_fit [0; 1; 2; 3]%float [1; 2; 5; 3]%float 3
    default_settings []
  = (Raise (IndexError "list index out of range"), [])
  /\ Legacy.find_opt_alpha ieee_scalars no_fit [0; 1; 2; 3]%float [1; 2; 5; 3]%float 0
       default_settings []
     = (bracket_step ieee_scalars 3 0 1 3 1 2, []).
Proof.
  destruct (@find_opt_alpha_edges ieee_scalars no_fit [0; 1; 2; 3]%float [1; 2; 5; 3]%float 3
              default_settings [] eq_refl eq_refl (le_S _ _ (le_S _ _ (le_n 1)))
              eq_refl) as (Hlast & Hfirst & _).
  split; [exact Hlast | exact Hfirst].
Defined.

(** ** Runs of the BFGS driver that return, and runs that cannot *)

(** Whether a run ended with a value. *)
Definition returned {A} (r : outcome A * trace) : bool :=
  match fst r with
  | Ok _ => true
  | _ => false
  end.

(** The parabola, its gradient supplied, from 0: the driver stops on
    the gradient tolerance. *)
Lemma bfgs_returns_success_witness :
  match fst (Canonical._bfgs ieee_scalars no_fit scalar_arrays_only
               {| o_fun := parabola; o_grad := Some parabola_grad; o_born := 0 |}
               default_settings 50 [0%float] []) with
  | Ok r => success r = true
            /\ (message r = "Gradient tolerance reached."%string
                \/ message r = "Step tolerance reached."%string)
  | _ => False
  end.
Proof.
  destruct (Canonical._bfgs ieee_scalars no_fit scalar_arrays_only
              {| o_fun := parabola; o_grad := Some parabola_grad; o_born := 0 |}
              default_settings 50 [0%float] []) as [[r| |] w'] eqn:E.
  - exact (@bfgs_returns_success ieee_scalars no_fit scalar_arrays_only _ _ _ _ _ _ _ E).
  - vm_compute in E. discriminate.
  - vm_compute in E. discriminate.
Defined.

Section BfgsBudget.

Variable ops : Scalars.
Variable quadratic : vec -> vec -> QuadraticFit.
Variable array_as_index : list nat -> option nat.
Variable f : Objective.
Variable settings : Settings.
Variable m : Z.
Hypothesis Hmax : max_iterations settings = Some m.

Lemma bfgs_stops_at_budget (l : Canonical.bfgs_locals) :
  (m <= Canonical.iter l)%Z -> Canonical.bfgs_continues settings l = false.
Proof.
  intros Hle. unfold Canonical.bfgs_continues, below_max_iterations.
  rewrite Hmax. destruct (Z.ltb_spec (Canonical.iter l) m); [lia | reflexivity].
Qed.

Lemma bfgs_inner_at_budget (fuel : nat) (N0 : matrix) (l : Canonical.bfgs_locals)
  (v : Canonical.bfgs_inner) (w w' : trace)
  (out : Canonical.flow OptimizerResult Canonical.bfgs_locals) :
  (m <= Canonical.iter l)%Z ->
  Canonical.bfgs_inner_loop ops quadratic array_as_index f settings fuel N0 l v w
  = (Ok out, w') ->
  out = Canonical.Next l.
Proof.
  intros Hle H. destruct fuel as [|fuel]; [discriminate|].
  cbn [Canonical.bfgs_inner_loop] in H.
  rewrite (bfgs_stops_at_budget l Hle) in H. cbn [negb] in H.
  now injection H as <- _.
Qed.

Lemma bfgs_outer_at_budget (fuel n : nat) (l : Canonical.bfgs_locals) (w : trace) :
  Canonical.f2 l = None ->
  (m <= Canonical.iter l + 1)%Z ->
  returned (Canonical.bfgs_outer_loop ops quadratic array_as_index f settings fuel n l w)
  = false.
Proof.
  revert l w.
  induction fuel as [|fuel IH]; intros l w Hf2 Hle; [reflexivity|].
  destruct (Canonical.bfgs_outer_loop ops quadratic array_as_index f settings (S fuel) n l w)
    as [[r| |] w'] eqn:H; try reflexivity.
  exfalso.
  cbn [Canonical.bfgs_outer_loop] in H.
  destruct (negb (Canonical.bfgs_continues settings l)).
  - rewrite Hf2 in H. discriminate.
  - split_run H. split_run H. split_run H. split_run H. split_run H. split_run H.
    destruct a4 as [[[x1 f1] alpha] wolfe_satis].
    split_run H.
    apply bfgs_inner_at_budget in Hm5; [|cbn [Canonical.iter]; lia].
    subst a4.
    match type of H with
    | Canonical.bfgs_outer_loop _ _ _ _ _ _ _ ?l' ?w1 = _ =>
        assert (IH' := IH l' w1 Hf2 ltac:(cbn [Canonical.iter]; lia))
    end.
    unfold returned in IH'. rewrite H in IH'. discriminate.
Qed.

End BfgsBudget.

(** X6: with [max_iterations] zero or negative the BFGS driver returns
    no result, for any objective and any starting point: the budget is
    used up before the inner loop runs a line search, so [f2] is not
    assigned when the last [return] reads it, and every run that gets
    that far ends in an exception. *)
Theorem bfgs_without_budget_never_returns (ops : Scalars) (quadratic : vec -> vec -> QuadraticFit)
  (array_as_index : list nat -> option nat) (f : Objective) (settings : Settings)
  (m : Z) (fuel : nat) (x_start : vec) (w : trace) :
  max_iterations settings = Some m ->
  (m <= 0)%Z ->
  returned (Canonical._bfgs ops quadratic array_as_index f settings fuel x_start w) = false.
Proof.
  intros Hmax Hle. unfold Canonical._bfgs.
  apply (@bfgs_outer_at_budget ops quadratic array_as_index f settings m Hmax);
    [reflexivity|].
  cbn [Canonical.iter]. lia.
Qed.

Lemma bfgs_without_budget_never_returns_witness :
  returned (Canonical._bfgs ieee_scalars no_fit scalar_arrays_only
              {| o_fun := parabola; o_grad := Some parabola_grad; o_born := 0 |}
              (set_max_iterations 0 default_settings) 50 [0%float] [])
  = false.
Proof.
  exact (@bfgs_without_budget_never_returns ieee_scalars no_fit scalar_arrays_only
           {| o_fun := parabola; o_grad := Some parabola_grad; o_born := 0 |}
           (set_max_iterations 0 default_settings) 0 50 [0%float] []
           eq_refl (Z.le_refl 0)).
Defined.

(** ** Attempts of the line searches on concrete samples *)

(** The first attempt of the line search on [max(-x[0], 0.0)] from
    0.0005 with the step 0.125: all nine values are 0. *)
Lemma plateau_returns_start_witness :
  exists w',
    Canonical._line_search_from ieee_scalars no_fit scalar_arrays_only
      {| o_fun := ramp; o_grad := None; o_born := 0 |} default_settings 1
      [0.0005%float] 0 [1%float] [(-0.25)%float] 0.125 false false []
    = (Ok (Tuple3 [0.0005%float] 0 0.125), w')
    /\ forall (B : Type) (k : Py.vec * float * float * bool -> M B),
         bind (t <- Canonical._line_search_from ieee_scalars no_fit scalar_arrays_only
                      {| o_fun := ramp; o_grad := None; o_born := 0 |}
                      default_settings 1 [0.0005%float] 0 [1%float] [(-0.25)%float]
                      0.125 false false ;;
               unpack4 t) k []
         = (Raise (ValueError "not enough values to unpack (expected 4, got 3)"), w').
Proof.
  exact (@plateau_returns_start ieee_scalars no_fit scalar_arrays_only
           {| o_fun := ramp; o_grad := None; o_born := 0 |} default_settings 0
           [0.0005%float] 0%float [1%float] [(-0.25)%float] 0.125%float false false []
           ltac:(vm_compute; reflexivity)).
Defined.

(** An attempt of the line search on [np.sqrt(1 - x[0])] from 0 with the
    step 0.875: seven of the eight samples are not numbers. *)
Lemma nan_sample_stops_line_search_witness :
  Canonical._line_search_from ieee_scalars no_fit scalar_arrays_only
    {| o_fun := root; o_grad := None; o_born := 0 |} default_settings 1
    [0%float] 1 [1%float] [(-0.5)%float] 0.875 true false []
  = (Raise (TypeError "only integer scalar arrays can be converted to a scalar index"),
     (([] ++ attempt_events default_settings
               (Canonical.search_points [0%float] [1%float] 0.875 8))
      ++ sample_lines default_settings)
     ++ [Console "Found NaN in line search at the following design point:"]).
Proof.
  exact (@nan_sample_stops_line_search ieee_scalars no_fit scalar_arrays_only
           {| o_fun := root; o_grad := None; o_born := 0 |} default_settings 0
           [0%float] 1%float [1%float] [(-0.5)%float] 0.875%float true false []
           ltac:(vm_compute; reflexivity)).
Defined.

(** The line search of the GRG driver on [sqrt(x[0]) + x[1]] from
    (0, 0) towards negative [x[0]], where every trial point is lost: the
    step size decays below the tolerance and the code is 1. *)
Lemma grg_line_search_no_failure_code_witness :
  match fst (Canonical._grg_line_search warning_task
               {| o_fun := root_plus; o_grad := None; o_born := 0 |}
               [Legacy.Constraint_ (far_constraint 1)]
               (set_counts 1 1 grg_settings)
               [(-1)%float; 0%float] [0%float; 0%float] [] [0; 1]%nat [] 0%float
               [10%float] [false] [] [] 2 0 40 1%float []) with
  | Ok r => snd r = 1%Z
  | _ => False
  end.
Proof.
  destruct (Canonical._grg_line_search warning_task
              {| o_fun := root_plus; o_grad := None; o_born := 0 |}
              [Legacy.Constraint_ (far_constraint 1)]
              (set_counts 1 1 grg_settings)
              [(-1)%float; 0%float] [0%float; 0%float] [] [0; 1]%nat [] 0%float
              [10%float] [false] [] [] 2 0 40 1%float []) as [[r| |] w'] eqn:E.
  - refine (@grg_line_search_no_failure_code warning_task _ _ _ _ _ _ _ _ _ _ _ _ _
              _ _ _ _ _ _ _ _ E).
    vm_compute. discriminate.
  - vm_compute in E. discriminate.
  - vm_compute in E. discriminate.
Defined.

(** ** The partition of the variables of the GRG driver *)

From Stdlib Require Import Permutation.

Lemma set_nth_length {A} (i : nat) (v : A) (l : list A) :
  List.length (Np.set_nth i v l) = List.length l.
Proof.
  revert i. induction l as [|x l IH]; intros [|i]; cbn; [reflexivity ..|].
  now rewrite IH.
Qed.

Lemma set_nth_firstn {A} (i k : nat) (v : A) (l : list A) :
  (k <= i)%nat -> firstn k (Np.set_nth i v l) = firstn k l.
Proof.
  revert i k. induction l as [|x l IH]; intros [|i] [|k] Hk; cbn;
    try reflexivity; try lia.
  f_equal. apply IH. lia.
Qed.

Lemma split_at {A} (l : list A) (i : nat) (d : A) :
  (i < List.length l)%nat ->
  exists pre rest, l = pre ++ nth i l d :: rest /\ List.length pre = i.
Proof.
  intros Hi.
  destruct (nth_split l d Hi) as (pre & rest & Hl & Hlen).
  now exists pre, rest.
Qed.

(** Exchanging an entry of one list with an entry of another keeps the
    entries of the two lists together. *)
Lemma exchange_Permutation {A} (l1 l2 : list A) (i j : nat) (d : A) :
  (i < List.length l1)%nat -> (j < List.length l2)%nat ->
  Permutation (Np.set_nth i (nth j l2 d) l1 ++ Np.set_nth j (nth i l1 d) l2)
              (l1 ++ l2).
Proof.
  intros Hi Hj.
  destruct (split_at l1 d Hi) as (a & b & H1 & Ha).
  destruct (split_at l2 d Hj) as (c & e & H2 & Hc).
  set (x := nth i l1 d) in *. set (y := nth j l2 d) in *.
  rewrite H1, H2. rewrite <- Ha at 1. rewrite <- Hc at 1.
  rewrite !set_nth_middle.
  rewrite <- !app_assoc. apply Permutation_app_head.
  cbn [app].
  transitivity (y :: x :: b ++ c ++ e).
  - constructor. symmetry.
    rewrite (app_assoc b c e), (app_assoc b c (x :: e)).
    apply Permutation_middle.
  - transitivity (x :: y :: b ++ c ++ e); [apply perm_swap|].
    constructor.
    rewrite (app_assoc b c e), (app_assoc b c (y :: e)).
    apply Permutation_middle.
Qed.

Lemma firstn_seq_le (a k n : nat) : (k <= n)%nat -> firstn k (seq a n) = seq a k.
Proof.
  revert a n. induction k as [|k IH]; intros a [|n] Hk; cbn; try reflexivity; try lia.
  f_equal. apply IH. lia.
Qed.

Section PartitionIndices.

Variable svd : matrix -> vec.
Variable settings : Settings.
Variables n_vars n_binding : nat.
Variable variables0 : vec.
Variable del_f0 : vec.
Variable d_psi_d_x0 : matrix.

Lemma independent_indices (k a : nat) (p : Canonical.partition) :
  let p' := fold_left (Canonical.independent_step n_binding variables0 del_f0 d_psi_d_x0)
                      (seq a k) p in
  Canonical.z_ind0 p' = Canonical.z_ind0 p ++ seq a k
  /\ Canonical.y_ind0 p' = Canonical.y_ind0 p.
Proof.
  revert a p. induction k as [|k IH]; intros a p; cbn [seq fold_left].
  - now rewrite app_nil_r.
  - destruct (IH (S a)
                (Canonical.independent_step n_binding variables0 del_f0 d_psi_d_x0 p a))
      as [Hz Hy].
    cbv zeta in Hz, Hy. rewrite Hz, Hy.
    unfold Canonical.independent_step.
    destruct (a <? n_binding)%nat; cbn [Canonical.z_ind0 Canonical.y_ind0];
      rewrite <- app_assoc; split; reflexivity.
Qed.

Lemma find_next_dependent (n from : nat) :
  find (fun v => negb (Canonical.mem v (seq 0 n))) (seq from (n + 1))
  = Some (Nat.max from n).
Proof.
  assert (Hmem : forall v, Canonical.mem v (seq 0 n) = (v <? n)%nat).
  { intros v. unfold Canonical.mem.
    destruct (Nat.ltb_spec v n) as [Hlt | Hge].
    - apply existsb_exists. exists v. split; [apply in_seq; lia | apply Nat.eqb_refl].
    - destruct (existsb (Nat.eqb v) (seq 0 n)) eqn:E; [|reflexivity].
      apply existsb_exists in E. destruct E as (u & Hu & E).
      apply in_seq in Hu. apply Nat.eqb_eq in E. lia. }
  assert (Hgen : forall len from', (0 < len)%nat -> (from' + len > n)%nat ->
            find (fun v => negb (Canonical.mem v (seq 0 n))) (seq from' len)
            = Some (Nat.max from' n)).
  { induction len as [|len IH]; intros from' Hpos Hlen.
    - lia.
    - cbn [seq find]. rewrite Hmem.
      destruct (Nat.ltb_spec from' n) as [Hlt | Hge]; cbn [negb].
      + rewrite IH by lia. f_equal. lia.
      + f_equal. lia. }
  apply Hgen; lia.
Qed.

Lemma dependent_indices (k i : nat) (p : Canonical.partition) (var_ind : Z) :
  Canonical.z_ind0 p = seq 0 n_vars ->
  Nat.max (Z.to_nat (var_ind + 1)) n_vars = (n_vars + i)%nat ->
  let st := fold_left (Canonical.dependent_step n_binding variables0 del_f0 d_psi_d_x0)
                      (seq i k) (p, var_ind) in
  Canonical.z_ind0 (fst st) = seq 0 n_vars
  /\ Canonical.y_ind0 (fst st) = Canonical.y_ind0 p ++ seq (n_vars + i) k.
Proof.
  revert i p var_ind. induction k as [|k IH]; intros i p var_ind Hz Hvar;
    cbv zeta; cbn [seq fold_left].
  - cbn [fst]. now rewrite app_nil_r.
  - assert (Hstep :
              Canonical.dependent_step n_binding variables0 del_f0 d_psi_d_x0
                (p, var_ind) i
              = ({| Canonical.z0 := Canonical.z0 p;
                    Canonical.del_f_z0 := Canonical.del_f_z0 p;
                    Canonical.d_psi_d_z0 := Canonical.d_psi_d_z0 p;
                    Canonical.z_ind0 := Canonical.z_ind0 p;
                    Canonical.y0 :=
                      Np.set_nth i (nth (n_vars + i) variables0 0%float)
                        (Canonical.y0 p);
                    Canonical.del_f_y0 :=
                      Np.set_nth i (nth (n_vars + i - n_binding) del_f0 0%float)
                        (Canonical.del_f_y0 p);
                    Canonical.d_psi_d_y0 :=
                      Canonical.set_column i
                        (Np.column d_psi_d_x0 (n_vars + i - n_binding))
                        (Canonical.d_psi_d_y0 p);
                    Canonical.y_ind0 := Canonical.y_ind0 p ++ [(n_vars + i)%nat] |},
                 Z.of_nat (n_vars + i))).
    { unfold Canonical.dependent_step.
      rewrite Hz, length_seq, find_next_dependent, Hvar. reflexivity. }
    rewrite Hstep.
    match goal with
    | |- context [fold_left _ _ (?p', ?v')] =>
        destruct (IH (S i) p' v') as [Hz' Hy']
    end.
    + exact Hz.
    + lia.
    + cbv zeta in Hz', Hy'. rewrite Hz', Hy'.
      cbn [Canonical.y_ind0]. rewrite <- app_assoc. cbn [app].
      replace (n_vars + S i)%nat with (S (n_vars + i)) by lia.
      split; reflexivity.
Qed.

(** The index lists of a partition: [n_vars] independent and [n_binding]
    dependent variables, every variable in exactly one of the lists, the
    slack variables at the head of the independent ones. *)
Definition indices_partitioned (p : Canonical.partition) : Prop :=
  List.length (Canonical.z_ind0 p) = n_vars
  /\ List.length (Canonical.y_ind0 p) = n_binding
  /\ Permutation (Canonical.z_ind0 p ++ Canonical.y_ind0 p)
                 (seq 0 (n_vars + n_binding))
  /\ firstn n_binding (Canonical.z_ind0 p) = seq 0 n_binding.

Lemma swap_keeps_indices (p : Canonical.partition) (swap_var : nat) :
  (n_binding + swap_var < n_vars)%nat -> (swap_var < n_binding)%nat ->
  indices_partitioned p ->
  indices_partitioned (Canonical.swap n_binding p swap_var).
Proof.
  intros Hz Hy (Hlz & Hly & Hperm & Hhead).
  unfold indices_partitioned, Canonical.swap.
  cbn [Canonical.z_ind0 Canonical.y_ind0].
  rewrite !set_nth_length.
  split; [exact Hlz|]. split; [exact Hly|]. split.
  - rewrite <- Hperm. apply exchange_Permutation; lia.
  - rewrite set_nth_firstn by lia. exact Hhead.
Qed.

Lemma swap_loop_ends (fuel : nat) (p : Canonical.partition) (swap_var : nat)
  (w : trace) :
  indices_partitioned p ->
  (n_binding - swap_var < fuel)%nat ->
  match Canonical.swap_loop svd settings n_vars n_binding fuel p swap_var w with
  | (Ok p', _) => indices_partitioned p'
  | (Raise e, _) => e = IndexError "list index out of range"
  | (OutOfFuel, _) => False
  end.
Proof.
  revert p swap_var w.
  induction fuel as [|fuel IH]; intros p swap_var w Hp Hfuel; [lia|].
  cbn [Canonical.swap_loop].
  destruct (Np.any_abs_lt (svd (Canonical.d_psi_d_y0 p)) 1e-14); [|exact Hp].
  rewrite (bind_Ok _ _ _ (when_run _ _ _)).
  destruct (Nat.leb_spec n_vars (n_binding + swap_var)) as [Hz | Hz];
    [reflexivity|].
  destruct (Nat.leb_spec n_binding swap_var) as [Hy | Hy]; [reflexivity|].
  cbn [orb]. apply IH; [now apply swap_keeps_indices | lia].
Qed.

(** X9: the index lists [_partition_vars] gives, with at most as many
    binding constraints as design variables.  Whatever the singular
    values are, the function ends within [n_binding] exchanges: it
    returns, or it raises [IndexError] when an exchange would leave one
    of the lists.  When it returns, there are [n_vars] independent and
    [n_binding] dependent variables, every one of the
    [n_vars + n_binding] variables is in exactly one of the two lists,
    and the slack variables are the first [n_binding] independent
    variables: no exchange makes a slack variable dependent. *)
Theorem partition_vars_indices (fuel : nat) (w : trace) :
  (n_binding <= n_vars)%nat ->
  (n_binding < fuel)%nat ->
  match Canonical._partition_vars svd settings n_vars n_binding variables0 del_f0
          d_psi_d_x0 fuel w with
  | (Ok p, _) => indices_partitioned p
  | (Raise e, _) => e = IndexError "list index out of range"
  | (OutOfFuel, _) => False
  end.
Proof.
  intros Hle Hfuel. unfold Canonical._partition_vars.
  apply swap_loop_ends; [|lia].
  match goal with
  | |- indices_partitioned
         (fst (fold_left _ _ (fold_left _ _ ?start, _))) =>
      destruct (independent_indices n_vars 0 start) as [Hz Hy];
      cbv zeta in Hz, Hy; cbn [Canonical.z_ind0 Canonical.y_ind0 app] in Hz, Hy;
      destruct (dependent_indices n_binding 0
                  (fold_left
                     (Canonical.independent_step n_binding variables0 del_f0 d_psi_d_x0)
                     (seq 0 n_vars) start) (-1)%Z Hz ltac:(cbn; lia))
        as [Hz' Hy']
  end.
  cbv zeta in Hz', Hy'. rewrite Hy in Hy'. cbn [app] in Hy'.
  unfold indices_partitioned. rewrite Hz', Hy', !length_seq, Nat.add_0_r.
  split; [reflexivity|]. split; [reflexivity|]. split.
  - rewrite <- seq_app. reflexivity.
  - now apply firstn_seq_le.
Qed.

End PartitionIndices.

(** Three design variables and one binding constraint, the matrix of the
    dependent variable singular once. *)
Lemma partition_vars_indices_witness :
  match Canonical._partition_vars
          (fun m => match m with [[v]] => [v] | _ => [] end)
          default_settings 3 1 [0; 1; 2; 3]%float [1; 1; 1]%float
          [[1; 1; 0]]%float 5 [] with
  | (Ok p, _) => indices_partitioned 3 1 p
  | (Raise e, _) => e = IndexError "list index out of range"
  | (OutOfFuel, _) => False
  end.
Proof.
  exact (@partition_vars_indices (fun m => match m with [[v]] => [v] | _ => [] end)
           default_settings 3 1 [0; 1; 2; 3]%float [1; 1; 1]%float
           [[1; 1; 0]]%float 5 [] (le_S _ _ (le_S _ _ (le_n 1)))
           (le_S _ _ (le_S _ _ (le_S _ _ (le_n 2))))).
Defined.

(** ** The constrained drivers without constraints, and without a turn *)

(** A computation that ends with a value from every trace. *)
Definition succeeds {A} (m : M A) : Prop :=
  forall w, exists a w', m w = (Ok a, w').

Lemma succeeds_ret {A} (a : A) : succeeds (ret a).
Proof. intros w. now exists a, w. Qed.

Lemma succeeds_emit (e : event) : succeeds (emit e).
Proof. intros w. now exists tt, (w ++ [e]). Qed.

Lemma succeeds_bind {A B} (m : M A) (k : A -> M B) :
  succeeds m -> (forall a, succeeds (k a)) -> succeeds (bind m k).
Proof.
  intros Hm Hk w. destruct (Hm w) as (a & w1 & H1).
  rewrite (bind_Ok _ _ _ H1). apply Hk.
Qed.

Lemma succeeds_when (c : bool) (m : M unit) : succeeds m -> succeeds (when c m).
Proof. intros Hm. destruct c; [exact Hm | apply succeeds_ret]. Qed.

Lemma succeeds_map_m {A B} (body : A -> M B) (xs : list A) :
  (forall x, succeeds (body x)) -> succeeds (map_m body xs).
Proof.
  intros Hbody. induction xs as [|x xs IH]; cbn [map_m]; [apply succeeds_ret|].
  apply succeeds_bind; [apply Hbody|]. intros y.
  apply succeeds_bind; [exact IH|]. intros ys. apply succeeds_ret.
Qed.

Lemma succeeds_f_f (f : Objective) (x : vec) : succeeds (f_f f x).
Proof.
  unfold f_f. apply succeeds_bind; [apply succeeds_emit|]. intros _. apply succeeds_ret.
Qed.

Lemma succeeds_g_g (i : nat) (c : Constraint) (x : vec) : succeeds (g_g i c x).
Proof.
  unfold g_g. apply succeeds_bind; [apply succeeds_emit|]. intros _. apply succeeds_ret.
Qed.

Lemma succeeds_finite_difference (eval : vec -> M float) (s : Settings) (x : vec) :
  (forall y, succeeds (eval y)) -> succeeds (finite_difference eval s x).
Proof.
  intros Heval. unfold finite_difference. apply succeeds_map_m. intros i.
  destruct (central_diff s);
    (apply succeeds_bind; [apply Heval|]; intros up;
     apply succeeds_bind; [apply Heval|]; intros other; apply succeeds_ret).
Qed.

Lemma succeeds_del_f (s : Settings) (f : Objective) (x : vec) : succeeds (del_f s f x).
Proof.
  unfold del_f. destruct (o_grad f).
  - apply succeeds_bind; [apply succeeds_emit|]. intros _. apply succeeds_ret.
  - apply succeeds_finite_difference. intros y. apply succeeds_f_f.
Qed.

Lemma succeeds_del_g (s : Settings) (i : nat) (c : Constraint) (x : vec) :
  succeeds (del_g s i c x).
Proof.
  unfold del_g. destruct (c_grad c).
  - apply succeeds_bind; [apply succeeds_emit|]. intros _. apply succeeds_ret.
  - apply succeeds_finite_difference. intros y. apply succeeds_g_g.
Qed.

Lemma succeeds_append_file (s : Settings) : succeeds (Canonical.append_file s).
Proof.
  unfold Canonical.append_file, Legacy.append_file, print.
  repeat (apply succeeds_bind; [apply succeeds_emit|]; intros _).
  apply succeeds_emit.
Qed.

Lemma succeeds_eval_constr (g : list Constraint) (x : vec) :
  succeeds (Canonical._eval_constr g x).
Proof. intros w. rewrite eval_constr_run. eauto. Qed.

(** The gradients are there when every constraint counted has an
    adapter. *)
Lemma succeeds_eval_grad (s : Settings) (x : vec) (f : Objective)
  (g : list Constraint) (n_vars n_cstr : nat) :
  (n_cstr <= List.length g)%nat ->
  succeeds (Canonical._eval_grad s x f g n_vars n_cstr).
Proof.
  intros Hlen. unfold Canonical._eval_grad.
  apply succeeds_bind; [apply succeeds_del_f|]. intros del_f0.
  apply succeeds_bind; [|intros cols; apply succeeds_ret].
  assert (Hall : forall l, (forall i, In i l -> (i < List.length g)%nat) ->
            succeeds (map_m (fun i => match nth_error g i with
                                      | Some c => del_g s i c x
                                      | None => raise (IndexError "index out of bounds")
                                      end) l)).
  { induction l as [|i l IH]; intros Hl; cbn [map_m]; [apply succeeds_ret|].
    apply succeeds_bind.
    - destruct (nth_error g i) as [c|] eqn:E; [apply succeeds_del_g|].
      apply nth_error_None in E. specialize (Hl i (or_introl eq_refl)). lia.
    - intros y. apply succeeds_bind; [|intros ys; apply succeeds_ret].
      apply IH. intros j Hj. apply Hl. now right. }
  apply Hall. intros i Hi. apply in_seq in Hi. lia.
Qed.

Lemma eval_constr_none (x : vec) (w : trace) :
  Canonical._eval_constr [] x w = (Ok [], w).
Proof. reflexivity. Qed.

(** Runs the first computation of a sequence that is known to end with
    a value. *)
Ltac run_ok H :=
  match goal with
  | |- context [bind ?m _ ?w] =>
      let a := fresh "a" in
      let w1 := fresh "w" in
      let Hrun := fresh "Hrun" in
      destruct (H w) as (a & w1 & Hrun); rewrite (bind_Ok _ _ _ Hrun)
  end.

Section NoConstraints.

Variable svd : matrix -> vec.
Variable solve : matrix -> vec -> option vec.
Variable task :
  Objective -> list Constraint -> vec -> vec -> float -> vec -> matrix -> matrix ->
  list nat -> list nat -> nat -> nat -> list bool -> Settings ->
  M (option (vec * float * vec)).
Variable f : Objective.
Variable settings : Settings.

Hypothesis Hn : n_cstr settings = 0%nat.
Hypothesis Hi : n_ineq_cstr settings = 0%nat.

Lemma find_combination_without_constraints (x0 : vec) (n_vars : nat)
  (del_2_L0 : matrix) (del_f0 : vec) (del_g0 : matrix) (g0 : vec) (w : trace) :
  fst (Canonical.find_combination svd solve [] settings x0 n_vars 0 0 del_2_L0
         del_f0 del_g0 g0 w)
  = Raise (AttributeError "'int' object has no attribute 'item'").
Proof.
  unfold Canonical.find_combination.
  rewrite (bind_Ok _ _ _ (when_run _ _ _)).
  change (Canonical.poss_combos 0 0) with [@nil bool].
  cbn [Canonical.strict_loop].
  replace (Canonical.skipped svd n_vars del_g0 []) with false
    by (unfold Canonical.skipped; cbn; now destruct n_vars).
  unfold Canonical.solve_trial, Canonical._get_x_lambda. reflexivity.
Qed.

Lemma sqp_without_constraints (fuel : nat) (x_start : vec) (w : trace) :
  (termination_tol settings <? 1)%float = true ->
  below_max_iterations 0 settings = true ->
  fst (Canonical._sqp svd solve f [] settings (S fuel) x_start w)
  = Raise (AttributeError "'int' object has no attribute 'item'").
Proof.
  intros Htol Hmax.
  unfold Canonical._sqp. cbn [Canonical.sqp_outer_loop].
  cbn [Canonical.s_iter Canonical.s_mag_dx Canonical.s_x0 Canonical.s_o_iter].
  rewrite Hmax, Htol, Hn, Hi. cbn [andb].
  rewrite (bind_Ok _ _ _ (when_run _ _ _)).
  run_ok (succeeds_f_f f x_start).
  rewrite (bind_Ok _ _ _ (eval_constr_none _ _)).
  run_ok (@succeeds_eval_grad settings x_start f [] (List.length x_start) 0 (le_n 0)).
  destruct a0 as [del_f0 del_g0].
  run_ok (succeeds_append_file settings).
  unfold Canonical._get_delta_x.
  match goal with
  | |- fst (bind (bind ?m _) _ ?w0) = _ =>
      pose proof (find_combination_without_constraints x_start (List.length x_start)
                    (Np.mscale (Np.eye (List.length x_start)) (hess_init settings))
                    del_f0 del_g0 [] w0) as Hfind;
      destruct (m w0) as [[last| |] w'] eqn:E; cbn [fst] in Hfind;
      try discriminate
  end.
  injection Hfind as ->.
  rewrite (bind_Raise _ _ _ (bind_Raise _ _ _ E)). reflexivity.
Qed.

Lemma grg_without_constraints (fuel : nat) (x_start : vec) (w : trace) :
  (termination_tol settings <? 1)%float = true ->
  below_max_iterations 0 settings = true ->
  fst (Canonical._grg svd solve task f [] settings (S fuel) x_start w)
  = Raise (AttributeError "'int' object has no attribute 'item'").
Proof.
  intros Htol Hmax.
  unfold Canonical._grg.
  run_ok (succeeds_f_f f x_start).
  rewrite (bind_Ok _ _ _ (eval_constr_none _ _)).
  cbn [Canonical.grg_loop].
  cbn [Canonical.g_iter Canonical.g_mag_dx Canonical.g_x0 Canonical.g_g0].
  rewrite Hmax, Htol, Hn, Hi. cbn [andb].
  run_ok (@succeeds_eval_grad settings x_start f [] (List.length x_start) 0 (le_n 0)).
  destruct a0 as [del_f0 del_g0].
  run_ok (succeeds_append_file settings).
  reflexivity.
Qed.

End NoConstraints.

(** X10: the two constrained drivers called with no constraint (an
    empty list, both counts zero) and entering their loop: each raises
    [AttributeError] in its first turn, the SQP driver when it solves
    the one combination there is, the empty one, the GRG driver when it
    counts the binding constraints.  In both places the built-in [sum]
    of an empty array is the integer 0, which [np.asscalar] cannot
    convert. *)
Theorem constrained_drivers_without_constraints
  (svd : matrix -> vec) (solve : matrix -> vec -> option vec)
  (task : Objective -> list Constraint -> vec -> vec -> float -> vec -> matrix ->
          matrix -> list nat -> list nat -> nat -> nat -> list bool -> Settings ->
          M (option (vec * float * vec)))
  (f : Objective) (settings : Settings) (fuel : nat) (x_start : vec) (w : trace) :
  n_cstr settings = 0%nat ->
  n_ineq_cstr settings = 0%nat ->
  (termination_tol settings <? 1)%float = true ->
  below_max_iterations 0 settings = true ->
  fst (Canonical._sqp svd solve f [] settings (S fuel) x_start w)
  = Raise (AttributeError "'int' object has no attribute 'item'")
  /\ fst (Canonical._grg svd solve task f [] settings (S fuel) x_start w)
     = Raise (AttributeError "'int' object has no attribute 'item'").
Proof.
  intros Hn Hi Htol Hmax. split.
  - now apply sqp_without_constraints.
  - now apply grg_without_constraints.
Qed.

Lemma constrained_drivers_without_constraints_witness :
  fst (Canonical._sqp no_svd no_solve
         {| o_fun := parabola; o_grad := None; o_born := 0 |} []
         default_settings 1 [0%float] [])
  = Raise (AttributeError "'int' object has no attribute 'item'")
  /\ fst (Canonical._grg no_svd no_solve warning_task
            {| o_fun := parabola; o_grad := None; o_born := 0 |} []
            default_settings 1 [0%float] [])
     = Raise (AttributeError "'int' object has no attribute 'item'").
Proof.
  exact (@constrained_drivers_without_constraints no_svd no_solve warning_task
           {| o_fun := parabola; o_grad := None; o_born := 0 |}
           default_settings 0 [0%float] [] eq_refl eq_refl eq_refl eq_refl).
Defined.

(** ** What [minimize] has done when it calls the driver *)

(** The lines of [print_setup]. *)
Definition banner (s : Settings) : list event := snd (Canonical.print_setup s []).

Lemma print_setup_run (s : Settings) (w : trace) :
  Canonical.print_setup s w = (Ok tt, w ++ banner s).
Proof.
  destruct (print_setup_runs s) as [evs H].
  unfold banner. rewrite (H []), (H w). reflexivity.
Qed.



(** The events of [prepare] when the problem is not overconstrained. *)
Definition setup_events (s : Settings) : list event :=
  [QueueCreated] ++ banner s
  ++ [FileCreated ("optimize" ++ file_tag s ++ ".txt");
      FileCreated ("gradient" ++ file_tag s ++ ".txt");
      Console "opt_header"]
  ++ (if (1 <? max_processes s)%nat
      then [WriterStarted ("evaluations" ++ file_tag s ++ ".txt");
            FileCreated ("evaluations" ++ file_tag s ++ ".txt")]
      else []).


Lemma prepare_run (fn : vec -> float) (n_vars : nat) (s : Settings)
  (grad : option (vec -> vec)) (constraints : option (list ConstraintSpec))
  (g : option (list Constraint)) (n_cstr n_ineq_cstr : nat) (w : trace) :
  Legacy.get_constraints constraints = (g, n_cstr, n_ineq_cstr) ->
  (n_vars <? n_cstr - n_ineq_cstr)%nat = false ->
  let s1 := set_counts n_cstr n_ineq_cstr (Canonical.override_method s constraints) in
  Canonical.prepare fn n_vars s grad constraints w
  = (Ok {| Canonical.p_f := {| o_fun := fn; o_grad := grad;
                               o_born := List.length (w ++ [QueueCreated]) |};
           Canonical.p_g := g;
           Canonical.p_settings :=
             set_files ("optimize" ++ file_tag s1 ++ ".txt")
                       ("gradient" ++ file_tag s1 ++ ".txt") s1;
           Canonical.p_writer := if (1 <? max_processes s1)%nat then Some tt else None |},
     w ++ setup_events s1).
Proof.
  intros Hg Hcheck s1.
  unfold Canonical.prepare, Canonical.get_constraints.
  rewrite (bind_Ok _ _ _ (emit_run _ _)).
  unfold bind at 1. unfold new_objective at 1.
  rewrite Hg, Hcheck. fold s1.
  rewrite (bind_Ok _ _ _ (print_setup_run _ _)).
  rewrite (bind_Ok _ _ _ (format_output_files_runs _ _)).
  unfold setup_events.
  change (max_processes (set_files ("optimize" ++ file_tag s1 ++ ".txt")
                                   ("gradient" ++ file_tag s1 ++ ".txt") s1))
    with (max_processes s1).
  change (file_tag (set_files ("optimize" ++ file_tag s1 ++ ".txt")
                              ("gradient" ++ file_tag s1 ++ ".txt") s1))
    with (file_tag s1).
  destruct (1 <? max_processes s1)%nat.
  - unfold Canonical.start_writer, Legacy.start_writer.
    unfold bind, emit, ret. cbn [fst snd]. f_equal.
    change (file_tag (set_files ("optimize" ++ file_tag s1 ++ ".txt")
                                ("gradient" ++ file_tag s1 ++ ".txt") s1))
      with (file_tag s1).
    trace_eq.
  - unfold bind, ret. f_equal. trace_eq.
Qed.

Lemma minimize_run (ops : Scalars) (quadratic : vec -> vec -> QuadraticFit)
  (array_as_index : list nat -> option nat)
  (svd : matrix -> vec) (solve : matrix -> vec -> option vec)
  (task : Objective -> list Constraint -> vec -> vec -> float -> vec -> matrix ->
          matrix -> list nat -> list nat -> nat -> nat -> list bool -> Settings ->
          M (option (vec * float * vec)))
  (fuel : nat) (fn : vec -> float) (x0 : vec) (s : Settings)
  (grad : option (vec -> vec)) (constraints : option (list ConstraintSpec))
  (g : option (list Constraint)) (n_cstr n_ineq_cstr : nat) (w : trace) :
  Legacy.get_constraints constraints = (g, n_cstr, n_ineq_cstr) ->
  (List.length x0 <? n_cstr - n_ineq_cstr)%nat = false ->
  let s1 := set_counts n_cstr n_ineq_cstr (Canonical.override_method s constraints) in
  let p := {| Canonical.p_f :=
                {| o_fun := fn; o_grad := grad;
                   o_born := List.length ((w ++ [PoolOpened (max_processes s)])
                                          ++ [QueueCreated]) |};
              Canonical.p_g := g;
              Canonical.p_settings :=
                set_files ("optimize" ++ file_tag s1 ++ ".txt")
                          ("gradient" ++ file_tag s1 ++ ".txt") s1;
              Canonical.p_writer :=
                if (1 <? max_processes s1)%nat then Some tt else None |} in
  Canonical.minimize ops quadratic array_as_index svd solve task fuel fn x0 s grad
    constraints w
  = finally
      (opt <- Canonical._find_minimum ops quadratic array_as_index svd solve task fuel
                (Canonical.p_f p) g x0 (Canonical.p_settings p) ;;
       Canonical.conclude p opt)
      (emit PoolExited)
      ((w ++ [PoolOpened (max_processes s)]) ++ setup_events s1).
Proof.
  intros Hg Hcheck s1 p.
  unfold Canonical.minimize.
  rewrite (bind_Ok _ _ _ (emit_run _ _)).
  unfold finally.
  rewrite (bind_Ok _ _ _ (@prepare_run fn (List.length x0) s grad constraints g n_cstr
                            n_ineq_cstr _ Hg Hcheck)).
  reflexivity.
Qed.






Lemma bind_fst_Raise {A B} (m : M A) (k : A -> M B) (w : trace) (e : exn) :
  fst (m w) = Raise e -> fst (bind m k w) = Raise e.
Proof.
  unfold bind. destruct (m w) as [[a| |] w']; cbn [fst]; intros H;
    try discriminate. now injection H as ->.
Qed.



(** ** The results of the constrained drivers *)



Section SqpReturns.

Variable svd : matrix -> vec.
Variable solve : matrix -> vec -> option vec.
Variable f : Objective.
Variable g : list Constraint.
Variable settings : Settings.

Lemma sqp_inner_returns (fuel n_vars : nat) (l : Canonical.sqp_locals)
  (v : Canonical.sqp_inner) (w w' : trace) (r : OptimizerResult) :
  Canonical.sqp_inner_loop svd solve f g settings fuel n_vars l v w
  = (Ok (Canonical.Return r), w') ->
  success r = true /\ message r = "Gradient termination tolerance reached."%string.
Proof.
  revert l v w.
  induction fuel as [|fuel IH]; intros l v w H; [discriminate|].
  cbn [Canonical.sqp_inner_loop] in H.
  destruct (termination_tol settings <? Canonical.s_mag_dx l)%float; [|discriminate].
  split_run H. destruct a as [del_f1 del_g1].
  destruct (Np.norm del_f1 <? grad_tol settings)%float.
  - split_run H. split_run H. injection H as <- _. split; reflexivity.
  - split_run H. split_run H.
    destruct a0 as [[[[[delta_x l'] x2] f2] g2] P2].
    match type of H with
    | (if ?c then _ else _) _ = _ => destruct c
    end.
    + split_run H. discriminate.
    + exact (IH _ _ _ H).
Qed.

Lemma sqp_outer_returns (fuel n_vars : nat) (l : Canonical.sqp_locals)
  (w w' : trace) (r : OptimizerResult) :
  Canonical.sqp_outer_loop svd solve f g settings fuel n_vars l w = (Ok r, w') ->
  success r = true
  /\ (message r = "Gradient termination tolerance reached."%string
      \/ message r = "Step termination tolerance reached."%string).
Proof.
  revert l w.
  induction fuel as [|fuel IH]; intros l w H; [discriminate|].
  cbn [Canonical.sqp_outer_loop] in H.
  match type of H with
  | (if ?c then _ else _) _ = _ => destruct c
  end.
  - split_run H. split_run H. split_run H. split_run H.
    destruct a2 as [del_f0 del_g0].
    split_run H. split_run H.
    destruct a3 as [[[[[delta_x l'] x1] f1] g1] P1].
    split_run H.
    destruct a3 as [r' | l''].
    + injection H as <- _.
      destruct (sqp_inner_returns _ _ _ _ _ Hm5) as [Hs Hmsg].
      split; [exact Hs | now left].
    + exact (IH _ _ H).
  - split_run H. split_run H. split_run H. split_run H. split_run H. split_run H.
    injection H as <- _. split; [reflexivity | now right].
Qed.

End SqpReturns.

(** X14: every result the SQP driver returns has [success = True] and
    one of its two messages, gradient or step termination: the driver
    has no failure result, whatever the constraints do. *)
Theorem sqp_returns_success (svd : matrix -> vec)
  (solve : matrix -> vec -> option vec) (f : Objective) (g : list Constraint)
  (settings : Settings) (fuel : nat) (x_start : vec) (w w' : trace)
  (r : OptimizerResult) :
  Canonical._sqp svd solve f g settings fuel x_start w = (Ok r, w') ->
  success r = true
  /\ (message r = "Gradient termination tolerance reached."%string
      \/ message r = "Step termination tolerance reached."%string).
Proof. unfold Canonical._sqp. apply sqp_outer_returns. Qed.

(** The SQP driver on [(x - 3)^2] under the inequality constraint
    [2 - x >= 0] from 0: it stops at 2 on the step tolerance. *)
Definition shifted (x : vec) : float :=
  ((nth 0 x 0 - 3) * (nth 0 x 0 - 3))%float.
Definition cap : Constraint :=
  {| c_type := "ineq"; c_fun := fun x => (2 - nth 0 x 0)%float; c_grad := None |}.

Lemma sqp_returns_success_witness :
  match fst (Canonical._sqp no_svd cramer_solve
               {| o_fun := shifted; o_grad := None; o_born := 0 |} [cap]
               (set_counts 1 1 (set_method "sqp" default_settings)) 60
               [0%float] []) with
  | Ok r => success r = true
            /\ (message r = "Gradient termination tolerance reached."%string
                \/ message r = "Step termination tolerance reached."%string)
  | _ => False
  end.
Proof.
  destruct (Canonical._sqp no_svd cramer_solve
              {| o_fun := shifted; o_grad := None; o_born := 0 |} [cap]
              (set_counts 1 1 (set_method "sqp" default_settings)) 60
              [0%float] []) as [[r| |] w'] eqn:E.
  - exact (@sqp_returns_success no_svd cramer_solve _ _ _ _ _ _ _ _ E).
  - vm_compute in E. discriminate.
  - vm_compute in E. discriminate.
Defined.

Lemma assign_at_length (idx : list nat) (values out : vec) :
  List.length (Np.assign_at idx values out) = List.length out.
Proof.
  unfold Np.assign_at.
  generalize (combine idx values) as ps. intros ps. revert out.
  induction ps as [|p ps IH]; intros out; cbn [fold_left]; [reflexivity|].
  now rewrite IH, set_nth_length.
Qed.

Section PartitionLengths.

Variable svd : matrix -> vec.
Variable settings : Settings.
Variables n_vars n_binding : nat.
Variable variables0 : vec.
Variable del_f0 : vec.
Variable d_psi_d_x0 : matrix.

Lemma independent_z0_length (l : list nat) (p : Canonical.partition) :
  List.length
    (Canonical.z0 (fold_left
                     (Canonical.independent_step n_binding variables0 del_f0 d_psi_d_x0)
                     l p))
  = List.length (Canonical.z0 p).
Proof.
  revert p. induction l as [|i l IH]; intros p; cbn [fold_left]; [reflexivity|].
  rewrite IH. unfold Canonical.independent_step.
  destruct (i <? n_binding)%nat; cbn [Canonical.z0]; apply set_nth_length.
Qed.

Lemma dependent_z0 (l : list nat) (p : Canonical.partition) (v : Z) :
  Canonical.z0 (fst (fold_left
                       (Canonical.dependent_step n_binding variables0 del_f0 d_psi_d_x0)
                       l (p, v)))
  = Canonical.z0 p.
Proof.
  revert p v. induction l as [|i l IH]; intros p v; cbn [fold_left]; [reflexivity|].
  unfold Canonical.dependent_step at 2.
  destruct (find _ _); [rewrite IH; reflexivity | apply IH].
Qed.

Lemma swap_loop_z0_length (fuel : nat) (p p' : Canonical.partition) (swap_var : nat)
  (w w' : trace) :
  Canonical.swap_loop svd settings n_vars n_binding fuel p swap_var w = (Ok p', w') ->
  List.length (Canonical.z0 p') = List.length (Canonical.z0 p).
Proof.
  revert p swap_var w.
  induction fuel as [|fuel IH]; intros p swap_var w H; [discriminate|].
  cbn [Canonical.swap_loop] in H.
  destruct (Np.any_abs_lt (svd (Canonical.d_psi_d_y0 p)) 1e-14).
  - split_run H.
    destruct ((n_vars <=? n_binding + swap_var)%nat || (n_binding <=? swap_var)%nat);
      [discriminate|].
    rewrite (IH _ _ _ H). unfold Canonical.swap. cbn [Canonical.z0].
    apply set_nth_length.
  - now injection H as <- _.
Qed.

Lemma partition_z0_length (fuel : nat) (p : Canonical.partition) (w w' : trace) :
  Canonical._partition_vars svd settings n_vars n_binding variables0 del_f0
    d_psi_d_x0 fuel w = (Ok p, w') ->
  List.length (Canonical.z0 p) = n_vars.
Proof.
  unfold Canonical._partition_vars. intros H.
  rewrite (swap_loop_z0_length _ _ _ _ H), dependent_z0, independent_z0_length.
  cbn [Canonical.z0]. apply repeat_length.
Qed.

End PartitionLengths.

Section GrgReturns.

Variable svd : matrix -> vec.
Variable solve : matrix -> vec -> option vec.
Variable task :
  Objective -> list Constraint -> vec -> vec -> float -> vec -> matrix -> matrix ->
  list nat -> list nat -> nat -> nat -> list bool -> Settings ->
  M (option (vec * float * vec)).
Variable f : Objective.
Variable g : list Constraint.
Variable settings : Settings.

(** What the GRG driver can return: success with one of its two
    messages, or the failure, and the failure only in one variable. *)
Definition grg_result (n_vars : nat) (r : OptimizerResult) : Prop :=
  (success r = true
   /\ (message r = "Gradient termination tolerance reached (magnitude = {0})."%string
       \/ message r = "Step termination tolerance reached (magnitude = {0})."%string))
  \/ (success r = false
      /\ message r = "Failed to converge to one or more constraint boundaries."%string
      /\ n_vars = 1%nat).

Lemma grg_loop_returns (fuel n_vars : nat) (l : Canonical.grg_locals)
  (w w' : trace) (r : OptimizerResult) :
  Canonical.grg_loop svd solve task f g settings fuel n_vars l w = (Ok r, w') ->
  grg_result n_vars r.
Proof.
  revert l w.
  induction fuel as [|fuel IH]; intros l w H; [discriminate|].
  cbn [Canonical.grg_loop] in H.
  match type of H with
  | (if ?c then _ else _) _ = _ => destruct c
  end.
  - split_run H. destruct a as [del_f0 del_g0].
    split_run H. split_run H. destruct a0 as [cstr_b n_binding].
    split_run H. split_run H. split_run H.
    match type of H with
    | (if ?c then _ else _) _ = _ => destruct c
    end.
    + split_run H. split_run H. injection H as <- _.
      left. split; [reflexivity | now left].
    + split_run H. split_run H.
      match goal with
      | Hp : Canonical._partition_vars _ _ _ _ _ _ _ _ _ = (Ok ?p, _) |- _ =>
          pose proof (partition_z0_length _ _ _ _ _ _ _ _ _ Hp) as Hz0
      end.
      match goal with
      | Hls : ?lhs = (Ok ?ls, _) |- _ =>
          lazymatch lhs with
          | context [Canonical._grg_line_search] =>
              destruct ls as [[[x1 f1] g1] err];
              unfold Canonical._grg_line_search in Hls; split_run Hls;
              apply grg_code_of_rows in Hls; [|discriminate];
              cbn [snd] in Hls; rename Hls into Hcode
          end
      end.
      destruct (Z.eqb_spec err (-1)) as [Eerr | Eerr].
      * split_run H. split_run H. injection H as <- _.
        right. split; [reflexivity|]. split; [reflexivity|].
        destruct Hcode as [Hone | [_ Hrows]]; [lia|].
        rewrite <- Hrows. unfold grg_start.
        destruct (n_binding =? 0)%nat eqn:Eb; cbn [negb].
        -- cbn [skipn]. apply Nat.eqb_eq in Eb. subst n_binding. cbn [skipn].
           symmetry. exact Hz0.
        -- rewrite length_skipn, !assign_at_length.
           unfold Np.zeros. rewrite repeat_length. lia.
      * exact (IH _ _ H).
  - split_run H. split_run H. split_run H. split_run H. split_run H. split_run H.
    injection H as <- _. left. split; [reflexivity | now right].
Qed.

End GrgReturns.

(** X15: what the GRG driver returns.  Every result has
    [success = True] with the message of the gradient or of the step
    termination, or [success = False] with the message of the failure;
    and the failure is returned only when the problem has one design
    variable: in two or more variables a line search that found no
    point at any step size is reported as a success, the step
    termination. *)
Theorem grg_reports_failure_in_one_variable_only
  (svd : matrix -> vec) (solve : matrix -> vec -> option vec)
  (task : Objective -> list Constraint -> vec -> vec -> float -> vec -> matrix ->
          matrix -> list nat -> list nat -> nat -> nat -> list bool -> Settings ->
          M (option (vec * float * vec)))
  (f : Objective) (g : list Constraint) (settings : Settings) (fuel : nat)
  (x_start : vec) (w w' : trace) (r : OptimizerResult) :
  Canonical._grg svd solve task f g settings fuel x_start w = (Ok r, w') ->
  grg_result (List.length x_start) r.
Proof.
  unfold Canonical._grg. intros H.
  split_run H. split_run H.
  exact (@grg_loop_returns svd solve task f g settings _ _ _ _ _ _ H).
Qed.

(** A paraboloid in two variables under a constraint that is never
    binding on the way: the GRG driver stops on the step tolerance. *)
Definition bowl (x : vec) : float :=
  ((nth 0 x 0 - 1) * (nth 0 x 0 - 1) + 2 * (nth 1 x 0 + 2) * (nth 1 x 0 + 2))%float.
Definition far_bound : Constraint :=
  {| c_type := "ineq"; c_fun := fun x => (10 - nth 0 x 0)%float; c_grad := None |}.

Lemma grg_reports_failure_in_one_variable_only_witness :
  match fst (Canonical._grg no_svd cramer_solve warning_task
               {| o_fun := bowl; o_grad := None; o_born := 0 |} [far_bound]
               (set_counts 1 1 (set_method "grg" default_settings)) 200
               [0%float; 0%float] []) with
  | Ok r => grg_result 2 r
  | _ => False
  end.
Proof.
  destruct (Canonical._grg no_svd cramer_solve warning_task
              {| o_fun := bowl; o_grad := None; o_born := 0 |} [far_bound]
              (set_counts 1 1 (set_method "grg" default_settings)) 200
              [0%float; 0%float] []) as [[r| |] w'] eqn:E.
  - exact (@grg_reports_failure_in_one_variable_only no_svd cramer_solve warning_task
             _ _ _ _ _ _ _ _ E).
  - vm_compute in E. discriminate.
  - vm_compute in E. discriminate.
Defined.

(** ** What a run of the BFGS driver never does *)

(** A computation that adds only events accepted by [P] to the trace,
    however it ends. *)
Definition quiet {A} (P : event -> bool) (m : M A) : Prop :=
  forall w, exists evs, snd (m w) = w ++ evs /\ forallb P evs = true.

Section Quiet.

Variable P : event -> bool.

Lemma quiet_ret {A} (a : A) : quiet P (ret a).
Proof. intros w. exists []. now rewrite app_nil_r. Qed.

Lemma quiet_raise {A} (e : exn) : quiet P (@raise A e).
Proof. intros w. exists []. now rewrite app_nil_r. Qed.

Lemma quiet_out_of_fuel {A} : quiet P (@out_of_fuel A).
Proof. intros w. exists []. now rewrite app_nil_r. Qed.

Lemma quiet_emit (e : event) : P e = true -> quiet P (emit e).
Proof. intros He w. exists [e]. cbn. now rewrite He. Qed.

(** [k] needs to be quiet only on the values [m] can end with. *)
Lemma quiet_bind_after {A B} (m : M A) (k : A -> M B) (Q : A -> Prop) :
  quiet P m ->
  (forall w a w', m w = (Ok a, w') -> Q a) ->
  (forall a, Q a -> quiet P (k a)) ->
  quiet P (bind m k).
Proof.
  intros Hm HQ Hk w. unfold bind.
  destruct (Hm w) as (evs1 & H1 & HP1).
  destruct (m w) as [[a| |] w1] eqn:E; cbn [snd] in H1; subst w1.
  - destruct (Hk a (HQ _ _ _ E) (w ++ evs1)) as (evs2 & H2 & HP2).
    exists (evs1 ++ evs2). rewrite H2, app_assoc, forallb_app, HP1, HP2. now split.
  - exists evs1. now split.
  - exists evs1. now split.
Qed.

Lemma quiet_bind {A B} (m : M A) (k : A -> M B) :
  quiet P m -> (forall a, quiet P (k a)) -> quiet P (bind m k).
Proof.
  intros Hm Hk. apply quiet_bind_after with (Q := fun _ => True); auto.
Qed.

Lemma quiet_when (c : bool) (m : M unit) : quiet P m -> quiet P (when c m).
Proof. intros Hm. destruct c; [exact Hm | apply quiet_ret]. Qed.

Lemma quiet_finally {A} (body : M A) (cleanup : M unit) :
  quiet P body -> quiet P cleanup -> quiet P (finally body cleanup).
Proof.
  intros Hb Hc w. unfold finally.
  destruct (Hb w) as (evs1 & H1 & HP1).
  destruct (body w) as [r w1]. cbn [snd] in H1. subst w1.
  destruct (Hc (w ++ evs1)) as (evs2 & H2 & HP2).
  exists (evs1 ++ evs2). cbn [snd].
  rewrite H2, app_assoc, forallb_app, HP1, HP2. now split.
Qed.

Lemma quiet_for_each {A} (xs : list A) (body : A -> M unit) :
  (forall x, quiet P (body x)) -> quiet P (for_each xs body).
Proof.
  intros Hbody. induction xs as [|x xs IH]; cbn [for_each]; [apply quiet_ret|].
  apply quiet_bind; [apply Hbody | intros _; exact IH].
Qed.

Lemma quiet_map_m {A B} (body : A -> M B) (xs : list A) :
  (forall x, quiet P (body x)) -> quiet P (map_m body xs).
Proof.
  intros Hbody. induction xs as [|x xs IH]; cbn [map_m]; [apply quiet_ret|].
  apply quiet_bind; [apply Hbody|]. intros y.
  apply quiet_bind; [exact IH|]. intros ys. apply quiet_ret.
Qed.

Lemma quiet_read_local {A} (name : string) (v : option A) :
  quiet P (read_local name v).
Proof. destruct v; [apply quiet_ret | apply quiet_raise]. Qed.

Lemma quiet_index {A} (l : list A) (i : Z) : quiet P (index l i).
Proof.
  unfold index.
  destruct (_ || _)%bool; [apply quiet_raise|].
  destruct (nth_error _ _); [apply quiet_ret | apply quiet_raise].
Qed.

Lemma quiet_state {A} (m : M A) : (forall w, snd (m w) = w) -> quiet P m.
Proof. intros H w. exists []. now rewrite H, app_nil_r. Qed.

End Quiet.

(** An event that is not the evaluation of a constraint or of the
    gradient of a constraint. *)
Definition no_constraint_event (e : event) : bool :=
  match e with
  | ConstraintCall _ _ | ConstraintGradCall _ _ => false
  | _ => true
  end.

(** Takes a computation apart along its sequences and branches. *)
Ltac quiet_steps :=
  repeat match goal with
         | |- quiet _ (ret _) => apply quiet_ret
         | |- quiet _ (raise _) => apply quiet_raise
         | |- quiet _ out_of_fuel => apply quiet_out_of_fuel
         | |- quiet _ (read_local _ _) => apply quiet_read_local
         | |- quiet _ (index _ _) => apply quiet_index
         | |- quiet _ (emit _) => apply quiet_emit; reflexivity
         | |- quiet _ (print _) => unfold print; apply quiet_emit; reflexivity
         | |- quiet _ (when _ _) => apply quiet_when
         | |- quiet _ (bind _ _) => apply quiet_bind; [|intros ?]
         | |- quiet _ (if ?c then _ else _) => destruct c
         | |- quiet _ (match ?x with _ => _ end) => destruct x
         end.

Section QuietBfgs.

Variable ops : Scalars.
Variable quadratic : vec -> vec -> QuadraticFit.
Variable array_as_index : list nat -> option nat.
Variable f : Objective.
Variable settings : Settings.

Lemma quiet_f_f (x : vec) : quiet no_constraint_event (f_f f x).
Proof. unfold f_f. quiet_steps. Qed.

Lemma quiet_del_f (x : vec) : quiet no_constraint_event (del_f settings f x).
Proof.
  unfold del_f. destruct (o_grad f); [quiet_steps|].
  unfold finite_difference. apply quiet_map_m. intros i.
  destruct (central_diff settings);
    (apply quiet_bind; [apply quiet_f_f|]; intros up;
     apply quiet_bind; [apply quiet_f_f|]; intros other; apply quiet_ret).
Qed.

Lemma quiet_append_file : quiet no_constraint_event (Canonical.append_file settings).
Proof. unfold Canonical.append_file, Legacy.append_file, print. quiet_steps. Qed.

Lemma quiet_eval_calls : quiet no_constraint_event (eval_calls f).
Proof. now apply quiet_state. Qed.

Lemma quiet_sample (points : list vec) : quiet no_constraint_event (Canonical.sample f points settings).
Proof.
  unfold Canonical.sample.
  apply quiet_bind; [apply quiet_emit; reflexivity|]. intros _.
  apply quiet_finally; [|apply quiet_emit; reflexivity].
  apply quiet_map_m. intros x. apply quiet_f_f.
Qed.

Lemma quiet_square (x : float) : quiet no_constraint_event (square ops x).
Proof. unfold square. quiet_steps. Qed.

Lemma quiet_divide (x y : float) : quiet no_constraint_event (divide ops x y).
Proof. unfold divide. quiet_steps. Qed.

Lemma quiet_find_opt_alpha (a f_search : vec) (min_ind : Z) :
  quiet no_constraint_event (Canonical._find_opt_alpha ops quadratic a f_search min_ind settings).
Proof.
  unfold Canonical._find_opt_alpha.
  repeat match goal with
         | |- quiet _ (square _ _) => apply quiet_square
         | |- quiet _ (divide _ _ _) => apply quiet_divide
         | _ => progress quiet_steps
         end.
Qed.

Lemma quiet_unpack4 (t : search_result) : quiet no_constraint_event (unpack4 t).
Proof. unfold unpack4. quiet_steps. Qed.

Lemma quiet_line_search_from (fuel : nat) (x0 : vec) (f0 : float) (s del_f0 : vec)
  (alpha : float) (prev_reduced prev_increased : bool) :
  quiet no_constraint_event (Canonical._line_search_from ops quadratic array_as_index f settings fuel x0 f0
             s del_f0 alpha prev_reduced prev_increased).
Proof.
  revert alpha prev_reduced prev_increased.
  induction fuel as [|fuel IH]; intros alpha prev_reduced prev_increased;
    cbn [Canonical._line_search_from]; [apply quiet_out_of_fuel|].
  apply quiet_bind; [unfold print; quiet_steps|]. intros _.
  apply quiet_bind; [apply quiet_sample|]. intros f_search.
  apply quiet_bind.
  { apply quiet_when, quiet_for_each. intros _. unfold print. quiet_steps. }
  intros _.
  destruct (Np.any_isnan _).
  { unfold Canonical.list_at_array, print. quiet_steps. }
  destruct (_ =? _)%float; [unfold print; quiet_steps|].
  destruct (_ && _)%bool; [unfold print; quiet_steps|].
  destruct (Canonical.classify _ _).
  - apply quiet_bind; [unfold print; quiet_steps|]. intros _. apply IH.
  - apply quiet_bind; [unfold print; quiet_steps|]. intros _. apply IH.
  - apply quiet_bind; [apply quiet_find_opt_alpha|]. intros alpha_opt.
    apply quiet_bind; [unfold print; quiet_steps|]. intros _.
    apply quiet_bind; [apply quiet_f_f|]. intros f1. apply quiet_ret.
Qed.

Lemma quiet_line_search (fuel : nat) (x0 : vec) (f0 : float) (s del_f0 : vec)
  (alpha : float) :
  quiet no_constraint_event (Canonical._line_search ops quadratic array_as_index f settings fuel x0 f0
             s del_f0 alpha).
Proof.
  unfold Canonical._line_search.
  apply quiet_bind; [unfold print; quiet_steps|]. intros _.
  apply quiet_line_search_from.
Qed.

Lemma quiet_bfgs_inner (fuel : nat) (N0 : matrix) (l : Canonical.bfgs_locals)
  (v : Canonical.bfgs_inner) :
  quiet no_constraint_event (Canonical.bfgs_inner_loop ops quadratic array_as_index f settings fuel N0 l v).
Proof.
  revert l v.
  induction fuel as [|fuel IH]; intros l v; cbn [Canonical.bfgs_inner_loop];
    [apply quiet_out_of_fuel|].
  destruct (negb _); [apply quiet_ret|].
  apply quiet_bind; [apply quiet_del_f|]. intros del_f1.
  apply quiet_bind; [apply quiet_append_file|]. intros _.
  destruct (_ <? _)%float.
  { apply quiet_bind; [apply quiet_eval_calls|]. intros calls. apply quiet_ret. }
  destruct (_ <? _)%float; [unfold print; quiet_steps|].
  apply quiet_bind; [apply quiet_line_search|]. intros t.
  apply quiet_bind; [apply quiet_unpack4|]. intros [[[x2' f2'] alpha] wolfe_satis].
  destruct (negb wolfe_satis); [unfold print; quiet_steps|].
  apply IH.
Qed.

Lemma quiet_bfgs_outer (fuel n : nat) (l : Canonical.bfgs_locals) :
  quiet no_constraint_event (Canonical.bfgs_outer_loop ops quadratic array_as_index f settings fuel n l).
Proof.
  revert l.
  induction fuel as [|fuel IH]; intros l; cbn [Canonical.bfgs_outer_loop];
    [apply quiet_out_of_fuel|].
  destruct (negb _).
  { apply quiet_bind; [apply quiet_read_local|]. intros f2'.
    apply quiet_bind; [apply quiet_read_local|]. intros x2'.
    apply quiet_bind; [apply quiet_eval_calls|]. intros calls. apply quiet_ret. }
  apply quiet_bind; [unfold print; quiet_steps|]. intros _.
  apply quiet_bind; [apply quiet_f_f|]. intros f0.
  apply quiet_bind; [apply quiet_del_f|]. intros del_f0.
  apply quiet_bind; [apply quiet_append_file|]. intros _.
  apply quiet_bind; [apply quiet_line_search|]. intros t.
  apply quiet_bind; [apply quiet_unpack4|]. intros [[[x1 f1] alpha] wolfe_satis].
  apply quiet_bind; [apply quiet_bfgs_inner|]. intros [r | l'];
    [apply quiet_ret | apply IH].
Qed.

Lemma quiet_bfgs (fuel : nat) (x_start : vec) :
  quiet no_constraint_event (Canonical._bfgs ops quadratic array_as_index f settings fuel x_start).
Proof. apply quiet_bfgs_outer. Qed.

End QuietBfgs.

Lemma quiet_print_setup (s : Settings) :
  quiet no_constraint_event (Canonical.print_setup s).
Proof.
  unfold Canonical.print_setup, Legacy.printSetup. quiet_steps.
Qed.

Lemma quiet_start_writer (s : Settings) :
  quiet no_constraint_event (Canonical.start_writer s).
Proof.
  unfold Canonical.start_writer, Legacy.start_writer. quiet_steps.
Qed.

Lemma quiet_prepare (fn : vec -> float) (n_vars : nat) (s : Settings)
  (grad : option (vec -> vec)) (constraints : option (list ConstraintSpec)) :
  quiet no_constraint_event (Canonical.prepare fn n_vars s grad constraints).
Proof.
  unfold Canonical.prepare.
  apply quiet_bind; [apply quiet_emit; reflexivity|]. intros _.
  apply quiet_bind; [now apply quiet_state|]. intros f.
  destruct (Canonical.get_constraints constraints) as [[g n_cstr] n_ineq_cstr].
  destruct (_ <? _)%nat; [apply quiet_raise|].
  apply quiet_bind; [apply quiet_print_setup|]. intros _.
  apply quiet_bind.
  { unfold Canonical.format_output_files, Legacy.format_output_files, print.
    quiet_steps. }
  intros s'.
  apply quiet_bind; [|intros writer; apply quiet_ret].
  destruct (_ <? _)%nat; [|apply quiet_ret].
  apply quiet_bind; [apply quiet_start_writer | intros _; apply quiet_ret].
Qed.

Lemma quiet_conclude (p : Canonical.prepared) (opt : OptimizerResult) :
  quiet no_constraint_event (Canonical.conclude p opt).
Proof.
  unfold Canonical.conclude.
  apply quiet_bind.
  { destruct (_ =? _)%nat; [|apply quiet_ret].
    apply quiet_bind; [apply quiet_start_writer | intros _; apply quiet_ret]. }
  intros writer. quiet_steps.
Qed.

Lemma prepare_method (fn : vec -> float) (n_vars : nat) (s : Settings)
  (grad : option (vec -> vec)) (constraints : option (list ConstraintSpec))
  (w w' : trace) (p : Canonical.prepared) :
  Canonical.prepare fn n_vars s grad constraints w = (Ok p, w') ->
  method (Canonical.p_settings p)
  = method (Canonical.override_method s constraints).
Proof.
  destruct (Legacy.get_constraints constraints) as [[g n_cstr] n_ineq_cstr] eqn:Hg.
  destruct (n_vars <? n_cstr - n_ineq_cstr)%nat eqn:Hcheck.
  - unfold Canonical.prepare, Canonical.get_constraints.
    rewrite (bind_Ok _ _ _ (emit_run _ _)).
    unfold bind at 1. unfold new_objective at 1.
    rewrite Hg, Hcheck. discriminate.
  - rewrite (@prepare_run fn n_vars s grad constraints g n_cstr n_ineq_cstr w Hg Hcheck).
    intros H. injection H as <- _. reflexivity.
Qed.

(** X16: under the method "bfgs", which [minimize] also sets when no
    constraints are given, no constraint is ever evaluated and no
    gradient of a constraint either, however the run ends: a list of
    constraints passed with the method "bfgs" is built into adapters,
    counted, printed in the setup, and then ignored. *)
Theorem bfgs_never_evaluates_constraints
  (ops : Scalars) (quadratic : vec -> vec -> QuadraticFit) (array_as_index : list nat -> option nat)
  (svd : matrix -> vec) (solve : matrix -> vec -> option vec)
  (task : Objective -> list Constraint -> vec -> vec -> float -> vec -> matrix ->
          matrix -> list nat -> list nat -> nat -> nat -> list bool -> Settings ->
          M (option (vec * float * vec)))
  (fuel : nat) (fn : vec -> float) (x0 : vec) (s : Settings)
  (grad : option (vec -> vec)) (constraints : option (list ConstraintSpec))
  (w : trace) :
  method s = "bfgs"%string \/ constraints = None ->
  exists evs,
    snd (Canonical.minimize ops quadratic array_as_index svd solve task fuel fn x0 s grad
           constraints w)
    = w ++ evs
    /\ forallb no_constraint_event evs = true.
Proof.
  intros Hmethod.
  assert (Hbfgs : method (Canonical.override_method s constraints) = "bfgs"%string).
  { destruct constraints as [cs|]; [|reflexivity].
    destruct Hmethod as [E | E]; [exact E | discriminate]. }
  revert w. change (quiet no_constraint_event
                      (Canonical.minimize ops quadratic array_as_index svd solve task fuel
                         fn x0 s grad constraints)).
  unfold Canonical.minimize.
  apply quiet_bind; [apply quiet_emit; reflexivity|]. intros _.
  apply quiet_finally; [|apply quiet_emit; reflexivity].
  apply quiet_bind_after
    with (Q := fun p => method (Canonical.p_settings p) = "bfgs"%string).
  - apply quiet_prepare.
  - intros w a w' H. rewrite (prepare_method _ _ _ _ _ _ H). exact Hbfgs.
  - intros p Hp.
    apply quiet_bind; [|intros opt; apply quiet_conclude].
    unfold Canonical._find_minimum. rewrite Hp. cbn [String.eqb Ascii.eqb Bool.eqb].
    apply quiet_bfgs.
Qed.

(** The parabola under the method "bfgs" with a list of one constraint. *)
Lemma bfgs_never_evaluates_constraints_witness :
  exists evs,
    snd (Canonical.minimize ieee_scalars no_fit scalar_arrays_only no_svd no_solve warning_task 50
           parabola [0%float] default_settings (Some parabola_grad)
           (Some [far_constraint 0]) [])
    = [] ++ evs
    /\ forallb no_constraint_event evs = true.
Proof.
  exact (@bfgs_never_evaluates_constraints ieee_scalars no_fit scalar_arrays_only no_svd no_solve
           warning_task 50 parabola [0%float] default_settings (Some parabola_grad)
           (Some [far_constraint 0]) [] (or_introl eq_refl)).
Defined.

(** ** The SQP step when no combination is solved *)

Section NoCombination.

Variable svd : matrix -> vec.
Variable solve : matrix -> vec -> option vec.
Variable f : Objective.
Variable g : list Constraint.
Variable settings : Settings.
Variable x0 : vec.
Variables n_vars n_cstr n_ineq_cstr : nat.
Variable del_2_L0 : matrix.
Variable del_f0 : vec.
Variable del_g0 : matrix.
Variable g0 : vec.

Lemma strict_loop_all_skipped (cs : list (list bool)) (last : option Canonical.trial)
  (w : trace) :
  (forall c, In c cs -> Canonical.skipped svd n_vars del_g0 c = true) ->
  Canonical.strict_loop svd solve g settings x0 n_vars n_cstr n_ineq_cstr del_2_L0
    del_f0 del_g0 g0 cs last w
  = (Ok (false, last), w).
Proof.
  intros Hskip. induction cs as [|c cs IH]; cbn [Canonical.strict_loop];
    [reflexivity|].
  rewrite (Hskip c (or_introl eq_refl)).
  apply IH. intros c' Hc'. apply Hskip. now right.
Qed.

Lemma relaxed_loop_all_skipped (cs : list (list bool)) (last : option Canonical.trial)
  (w : trace) :
  (forall c, In c cs -> Canonical.skipped svd n_vars del_g0 c = true) ->
  Canonical.relaxed_loop svd solve g settings x0 n_vars n_cstr n_ineq_cstr del_2_L0
    del_f0 del_g0 g0 cs last w
  = (Ok last, w).
Proof.
  intros Hskip. induction cs as [|c cs IH]; cbn [Canonical.relaxed_loop];
    [reflexivity|].
  rewrite (Hskip c (or_introl eq_refl)).
  apply IH. intros c' Hc'. apply Hskip. now right.
Qed.

(** X17: a step of the SQP driver in which every combination of
    binding constraints is skipped, as happens with two or more
    equality constraints whose gradients are linearly dependent: no
    linear system is solved, [x1] is not assigned, and the evaluation of
    the objective at [x1] raises [UnboundLocalError]; up to there the
    step has only printed, and it has evaluated nothing. *)
Theorem get_delta_x_without_combination (fuel : nat) (P0 : float) (w : trace) :
  (forall c, In c (Canonical.poss_combos n_cstr n_ineq_cstr) ->
             Canonical.skipped svd n_vars del_g0 c = true) ->
  Canonical._get_delta_x svd solve f g settings x0 n_vars n_cstr n_ineq_cstr del_2_L0
    del_f0 del_g0 g0 fuel P0 w
  = (Raise (UnboundLocalError "x1"),
     w ++ if verbose settings
          then [Console "Penalty to beat: {0}";
                Console "Optimal combination not found. Allowing non-binding constraints to be violated.";
                Console "Optimal combination of binding constraints: {0}"]
          else []).
Proof.
  intros Hskip.
  unfold Canonical._get_delta_x, Canonical.find_combination.
  assert (Hfind :
            (when (verbose settings) (print "Penalty to beat: {0}") ;;;
             r <- Canonical.strict_loop svd solve g settings x0 n_vars n_cstr
                    n_ineq_cstr del_2_L0 del_f0 del_g0 g0
                    (Canonical.poss_combos n_cstr n_ineq_cstr) None ;;
             if fst r then ret (snd r)
             else
               when (verbose settings)
                    (print "Optimal combination not found. Allowing non-binding constraints to be violated.") ;;;
               Canonical.relaxed_loop svd solve g settings x0 n_vars n_cstr n_ineq_cstr
                 del_2_L0 del_f0 del_g0 g0
                 (Canonical.poss_combos n_cstr n_ineq_cstr) (snd r)) w
            = (Ok None,
               (w ++ if verbose settings then [Console "Penalty to beat: {0}"] else [])
               ++ if verbose settings
                  then [Console "Optimal combination not found. Allowing non-binding constraints to be violated."]
                  else [])).
  { rewrite (bind_Ok _ _ _ (when_run _ _ _)).
    rewrite (bind_Ok _ _ _ (strict_loop_all_skipped _ _ _ Hskip)).
    cbn [fst snd].
    rewrite (bind_Ok _ _ _ (when_run _ _ _)).
    apply relaxed_loop_all_skipped, Hskip. }
  rewrite (bind_Ok _ _ _ Hfind).
  rewrite (bind_Ok _ _ _ (when_run _ _ _)).
  cbn [option_map read_local]. unfold bind, raise. f_equal.
  destruct (verbose settings); cbn [app]; rewrite <- ?app_assoc, ?app_nil_r; reflexivity.
Qed.

End NoCombination.

(** Two equality constraints in two variables with the same gradient:
    the one combination binds both, and the Jacobian has a singular
    value 0. *)
Lemma get_delta_x_without_combination_witness :
  Canonical._get_delta_x (fun _ => [2; 0]%float) no_solve
    {| o_fun := bowl; o_grad := None; o_born := 0 |}
    [far_bound; far_bound] default_settings [0; 0]%float 2 2 0
    [[1; 0]; [0; 1]]%float [0; 0]%float [[1; 1]; [1; 1]]%float [0; 0]%float 5 0 []
  = (Raise (UnboundLocalError "x1"), []).
Proof.
  refine (@get_delta_x_without_combination (fun _ => [2; 0]%float) no_solve
            {| o_fun := bowl; o_grad := None; o_born := 0 |}
            [far_bound; far_bound] default_settings [0; 0]%float 2 2 0
            [[1; 0]; [0; 1]]%float [0; 0]%float [[1; 1]; [1; 1]]%float [0; 0]%float
            5 0%float [] _).
  intros c [<- | []]. vm_compute. reflexivity.
Defined.

(* ================================================================== *)
(** * The writer of the evaluations: src/optix.py *)
(* ================================================================== *)

Module Evaluations.

(** What one call of [q.get()] gives the writer: a message, or an
    exception, which the bare [except] turns into another turn of the
    loop. *)
Inductive got : Type :=
| Message (msg : string)
| Failed.

(** The line feed. *)
Definition nl : string := String (Ascii.ascii_of_nat 10) EmptyString.

(** The loop of [eval_write] on the outcomes of its calls of [q.get()],
    with the strings written to the file so far.  When the outcomes are
    used up the next [q.get()] blocks: there is no result. *)
Fixpoint eval_write_loop (gets : list got) (written : list string)
  : option (list string * list got) :=
  match gets with
  | [] => None
  | Failed :: rest => eval_write_loop rest written
  | Message msg :: rest =>
      if String.eqb msg "kill" then Some (written, rest)
      else eval_write_loop rest (written ++ [(msg ++ nl)%string])
  end.

(** [eval_write(filename, header, q)]: the value returned, the strings
    written to the file, in order, and what is left in the queue. *)
Definition eval_write (header : string) (gets : list got)
  : option (bool * list string * list got) :=
  match eval_write_loop gets [(header ++ nl)%string] with
  | Some (written, rest) => Some (true, written, rest)
  | None => None
  end.

(** The messages among the outcomes. *)
Definition messages (gets : list got) : list string :=
  flat_map (fun o => match o with Message m => [m] | Failed => [] end) gets.

End Evaluations.

Lemma eval_write_loop_before_kill (pre : list Evaluations.got) (written : list string) :
  (forall m, In (Evaluations.Message m) pre -> m <> "kill"%string) ->
  (forall rest,
     Evaluations.eval_write_loop (pre ++ Evaluations.Message "kill" :: rest) written
     = Some (written ++ map (fun m => (m ++ Evaluations.nl)%string)
                            (Evaluations.messages pre), rest))
  /\ Evaluations.eval_write_loop pre written = None.
Proof.
  revert written.
  induction pre as [|o pre IH]; intros written Hpre.
  - split; [|reflexivity]. intros rest. cbn. now rewrite app_nil_r.
  - assert (Hpre' : forall m, In (Evaluations.Message m) pre -> m <> "kill"%string)
      by (intros m Hm; apply Hpre; now right).
    destruct o as [msg|].
    + assert (Hmsg : String.eqb msg "kill" = false)
        by (apply String.eqb_neq, Hpre; now left).
      destruct (IH (written ++ [(msg ++ Evaluations.nl)%string]) Hpre') as [Hk Hn].
      split.
      * intros rest. cbn [app Evaluations.eval_write_loop]. rewrite Hmsg, Hk.
        unfold Evaluations.messages. cbn [flat_map app map].
        now rewrite <- app_assoc.
      * cbn [Evaluations.eval_write_loop]. rewrite Hmsg. exact Hn.
    + destruct (IH written Hpre') as [Hk Hn].
      split; [intros rest; cbn; apply Hk | exact Hn].
Qed.

(** X18: the writer of the evaluations.  Of what its queue delivers, it
    writes the header and then every message that comes before the
    first "kill", one per line and in the order of arrival, skipping the
    calls of [q.get()] that fail; it stops at the first "kill", takes
    nothing after it from the queue, and returns [True].  Without a
    "kill" in the queue it does not return. *)
Theorem eval_write_logs_up_to_kill (header : string)
  (pre rest : list Evaluations.got) :
  (forall m, In (Evaluations.Message m) pre -> m <> "kill"%string) ->
  Evaluations.eval_write header (pre ++ Evaluations.Message "kill" :: rest)
  = Some (true,
          (header ++ Evaluations.nl)%string
          :: map (fun m => (m ++ Evaluations.nl)%string) (Evaluations.messages pre),
          rest)
  /\ Evaluations.eval_write header pre = None.
Proof.
  intros Hpre. unfold Evaluations.eval_write.
  destruct (@eval_write_loop_before_kill pre [(header ++ Evaluations.nl)%string] Hpre)
    as [Hk Hn].
  rewrite Hk, Hn. split; reflexivity.
Qed.

Lemma eval_write_logs_up_to_kill_witness :
  Evaluations.eval_write "f"
    ([Evaluations.Message "1.0"; Evaluations.Failed; Evaluations.Message "2.0"]
     ++ Evaluations.Message "kill" :: [Evaluations.Message "3.0"])
  = Some (true,
          ("f" ++ Evaluations.nl)%string
          :: map (fun m => (m ++ Evaluations.nl)%string)
               (Evaluations.messages
                  [Evaluations.Message "1.0"; Evaluations.Failed;
                   Evaluations.Message "2.0"]),
          [Evaluations.Message "3.0"]).
Proof.
  refine (proj1 (@eval_write_logs_up_to_kill "f"
                   [Evaluations.Message "1.0"; Evaluations.Failed;
                    Evaluations.Message "2.0"]
                   [Evaluations.Message "3.0"] _)).
  intros m [[= <-] | [[=] | [[= <-] | []]]]; discriminate.
Defined.

(** ** A constraint that is counted and has no adapter *)

Lemma map_m_raises {A B} (body : A -> M B) (pre : list A) (x : A) (rest : list A)
  (e : exn) (w : trace) :
  (forall y, In y pre -> succeeds (body y)) ->
  (forall w0, fst (body x w0) = Raise e) ->
  fst (map_m body (pre ++ x :: rest) w) = Raise e.
Proof.
  revert w. induction pre as [|y pre IH]; intros w Hpre Hx; cbn [app map_m].
  - now apply bind_fst_Raise.
  - destruct (Hpre y (or_introl eq_refl) w) as (b & w1 & Hy).
    rewrite (bind_Ok _ _ _ Hy).
    apply bind_fst_Raise, IH; [|exact Hx].
    intros z Hz. apply Hpre. now right.
Qed.

Lemma eval_grad_missing_adapter (s : Settings) (x : vec) (f : Objective)
  (g : list Constraint) (n_vars n_cstr : nat) (w : trace) :
  (List.length g < n_cstr)%nat ->
  fst (Canonical._eval_grad s x f g n_vars n_cstr w)
  = Raise (IndexError "index out of bounds").
Proof.
  intros Hlen. unfold Canonical._eval_grad.
  run_ok (succeeds_del_f s f x).
  apply bind_fst_Raise.
  replace n_cstr with (List.length g + S (n_cstr - List.length g - 1))%nat by lia.
  rewrite seq_app. cbn [seq Nat.add].
  apply map_m_raises.
  - intros i Hi. apply in_seq in Hi.
    destruct (nth_error g i) as [c|] eqn:E; [apply succeeds_del_g|].
    apply nth_error_None in E. lia.
  - intros wx.
    replace (nth_error g (List.length g)) with (@None Constraint)
      by (symmetry; apply nth_error_None; lia).
    reflexivity.
Qed.

(** X19: the constrained drivers with more constraints counted in the
    settings than there are adapters, as [get_constraints] leaves it for
    a list with an entry of another type than "eq" and "ineq".  Each
    driver, once in its loop, evaluates the objective and the adapters
    there are and raises [IndexError] when its first evaluation of the
    gradients reads the adapter that is missing. *)
Theorem constrained_drivers_with_missing_adapter
  (svd : matrix -> vec) (solve : matrix -> vec -> option vec)
  (task : Objective -> list Constraint -> vec -> vec -> float -> vec -> matrix ->
          matrix -> list nat -> list nat -> nat -> nat -> list bool -> Settings ->
          M (option (vec * float * vec)))
  (f : Objective) (g : list Constraint) (settings : Settings) (fuel : nat)
  (x_start : vec) (w : trace) :
  (List.length g < n_cstr settings)%nat ->
  (termination_tol settings <? 1)%float = true ->
  below_max_iterations 0 settings = true ->
  fst (Canonical._sqp svd solve f g settings (S fuel) x_start w)
  = Raise (IndexError "index out of bounds")
  /\ fst (Canonical._grg svd solve task f g settings (S fuel) x_start w)
     = Raise (IndexError "index out of bounds").
Proof.
  intros Hlen Htol Hmax. split.
  - unfold Canonical._sqp. cbn [Canonical.sqp_outer_loop].
    cbn [Canonical.s_iter Canonical.s_mag_dx Canonical.s_x0 Canonical.s_o_iter].
    rewrite Hmax, Htol. cbn [andb].
    rewrite (bind_Ok _ _ _ (when_run _ _ _)).
    run_ok (succeeds_f_f f x_start).
    run_ok (succeeds_eval_constr g x_start).
    apply bind_fst_Raise. now apply eval_grad_missing_adapter.
  - unfold Canonical._grg.
    run_ok (succeeds_f_f f x_start).
    run_ok (succeeds_eval_constr g x_start).
    cbn [Canonical.grg_loop].
    cbn [Canonical.g_iter Canonical.g_mag_dx Canonical.g_x0].
    rewrite Hmax, Htol. cbn [andb].
    apply bind_fst_Raise. now apply eval_grad_missing_adapter.
Qed.

(** One adapter, two constraints counted. *)
Lemma constrained_drivers_with_missing_adapter_witness :
  fst (Canonical._sqp no_svd no_solve
         {| o_fun := bowl; o_grad := None; o_born := 0 |} [far_bound]
         (set_counts 2 1 default_settings) 1 [0; 0]%float [])
  = Raise (IndexError "index out of bounds")
  /\ fst (Canonical._grg no_svd no_solve warning_task
            {| o_fun := bowl; o_grad := None; o_born := 0 |} [far_bound]
            (set_counts 2 1 default_settings) 1 [0; 0]%float [])
     = Raise (IndexError "index out of bounds").
Proof.
  exact (@constrained_drivers_with_missing_adapter no_svd no_solve warning_task
           {| o_fun := bowl; o_grad := None; o_born := 0 |} [far_bound]
           (set_counts 2 1 default_settings) 0 [0; 0]%float []
           (le_n 2) eq_refl eq_refl).
Defined.

(** ** What [minimize] does with the outcome of the driver *)

Lemma conclude_run (p : Canonical.prepared) (opt : OptimizerResult) (w : trace) :
  (1 <= max_processes (Canonical.p_settings p))%nat ->
  Canonical.p_writer p
  = (if (1 <? max_processes (Canonical.p_settings p))%nat then Some tt else None) ->
  Canonical.conclude p opt w
  = (Ok opt,
     w ++ (if (max_processes (Canonical.p_settings p) =? 1)%nat
           then [WriterStarted ("evaluations" ++ file_tag (Canonical.p_settings p)
                                ++ ".txt");
                 FileCreated ("evaluations" ++ file_tag (Canonical.p_settings p)
                              ++ ".txt")]
           else [])
       ++ [QueuePut "kill"]).
Proof.
  intros Hproc Hwriter. unfold Canonical.conclude. rewrite Hwriter.
  destruct (Nat.eqb_spec (max_processes (Canonical.p_settings p)) 1) as [E1 | E1].
  - cbv [Canonical.start_writer Legacy.start_writer bind emit ret read_local].
    f_equal. trace_eq.
  - replace (1 <? max_processes (Canonical.p_settings p))%nat with true
      by (symmetry; apply Nat.ltb_lt; lia).
    cbv [bind emit ret read_local]. reflexivity.
Qed.

(** X20: [minimize] around the call of the driver, for a problem that
    is not overconstrained and at least one process.  A result of the
    driver is returned as it is: after it the writer of the evaluations
    is started if there is one process only (with more it was started
    before the driver), "kill" is put on the queue once and the pool is
    left.  An exception of the driver is passed on with nothing done
    but leaving the pool: no "kill" is queued, and with one process the
    file of the evaluations is never opened. *)
Theorem minimize_passes_the_outcome_on
  (ops : Scalars) (quadratic : vec -> vec -> QuadraticFit) (array_as_index : list nat -> option nat)
  (svd : matrix -> vec) (solve : matrix -> vec -> option vec)
  (task : Objective -> list Constraint -> vec -> vec -> float -> vec -> matrix ->
          matrix -> list nat -> list nat -> nat -> nat -> list bool -> Settings ->
          M (option (vec * float * vec)))
  (fuel : nat) (fn : vec -> float) (x0 : vec) (s : Settings)
  (grad : option (vec -> vec)) (constraints : option (list ConstraintSpec))
  (g : option (list Constraint)) (n_cstr n_ineq_cstr : nat) (w : trace)
  (r : outcome OptimizerResult) (w2 : trace) :
  Legacy.get_constraints constraints = (g, n_cstr, n_ineq_cstr) ->
  (List.length x0 <? n_cstr - n_ineq_cstr)%nat = false ->
  (1 <= max_processes s)%nat ->
  let s1 := set_counts n_cstr n_ineq_cstr (Canonical.override_method s constraints) in
  let s2 := set_files ("optimize" ++ file_tag s1 ++ ".txt")
                      ("gradient" ++ file_tag s1 ++ ".txt") s1 in
  let f := {| o_fun := fn; o_grad := grad;
              o_born := List.length ((w ++ [PoolOpened (max_processes s)])
                                     ++ [QueueCreated]) |} in
  Canonical._find_minimum ops quadratic array_as_index svd solve task fuel f g x0 s2
    ((w ++ [PoolOpened (max_processes s)]) ++ setup_events s1)
  = (r, w2) ->
  Canonical.minimize ops quadratic array_as_index svd solve task fuel fn x0 s grad
    constraints w
  = match r with
    | Ok opt =>
        (Ok opt,
         w2 ++ (if (max_processes s =? 1)%nat
                then [WriterStarted ("evaluations" ++ file_tag s ++ ".txt");
                      FileCreated ("evaluations" ++ file_tag s ++ ".txt")]
                else [])
            ++ [QueuePut "kill"; PoolExited])
    | _ => (r, w2 ++ [PoolExited])
    end.
Proof.
  intros Hg Hcheck Hproc s1 s2 f Hdriver.
  rewrite (@minimize_run ops quadratic array_as_index svd solve task fuel fn x0 s grad
             constraints g n_cstr n_ineq_cstr w Hg Hcheck).
  fold s1. unfold finally.
  cbn [Canonical.p_f Canonical.p_settings].
  fold s2. fold f.
  assert (Hmp : max_processes s2 = max_processes s)
    by (unfold s2, s1; destruct constraints; reflexivity).
  assert (Htag : file_tag s2 = file_tag s)
    by (unfold s2, s1; destruct constraints; reflexivity).
  destruct r as [opt| |].
  - rewrite (bind_Ok _ _ _ Hdriver).
    rewrite conclude_run.
    + cbn [Canonical.p_settings]. fold s2. rewrite Hmp, Htag.
      cbn [snd emit]. f_equal. trace_eq.
    + cbn [Canonical.p_settings]. fold s2. now rewrite Hmp.
    + reflexivity.
  - rewrite (bind_Raise _ _ _ Hdriver). reflexivity.
  - rewrite (bind_OutOfFuel _ _ _ Hdriver). reflexivity.
Qed.

(** The parabola with its gradient under the default settings. *)
Lemma minimize_passes_the_outcome_on_witness :
  Canonical.minimize ieee_scalars no_fit scalar_arrays_only no_svd no_solve warning_task 50
    parabola [0%float] default_settings (Some parabola_grad) None []
  = match fst (Canonical._find_minimum ieee_scalars no_fit scalar_arrays_only no_svd no_solve
                 warning_task 50
                 {| o_fun := parabola; o_grad := Some parabola_grad; o_born := 2 |}
                 None [0%float]
                 (set_files "optimize.txt" "gradient.txt" default_settings)
                 ([PoolOpened 1] ++ setup_events default_settings)) with
    | Ok opt =>
        (Ok opt,
         snd (Canonical._find_minimum ieee_scalars no_fit scalar_arrays_only no_svd no_solve
                warning_task 50
                {| o_fun := parabola; o_grad := Some parabola_grad; o_born := 2 |}
                None [0%float]
                (set_files "optimize.txt" "gradient.txt" default_settings)
                ([PoolOpened 1] ++ setup_events default_settings))
         ++ [WriterStarted "evaluations.txt"; FileCreated "evaluations.txt";
             QueuePut "kill"; PoolExited])
    | r =>
        (r,
         snd (Canonical._find_minimum ieee_scalars no_fit scalar_arrays_only no_svd no_solve
                warning_task 50
                {| o_fun := parabola; o_grad := Some parabola_grad; o_born := 2 |}
                None [0%float]
                (set_files "optimize.txt" "gradient.txt" default_settings)
                ([PoolOpened 1] ++ setup_events default_settings))
         ++ [PoolExited])
    end.
Proof.
  exact (@minimize_passes_the_outcome_on ieee_scalars no_fit scalar_arrays_only no_svd no_solve
           warning_task 50 parabola [0%float] default_settings (Some parabola_grad)
           None None 0 0 [] _ _ eq_refl eq_refl (le_n 1)
           (surjective_pairing _)).
Defined.

(** ** The penalty of a step that was cut back *)

(** X21: the penalty [_get_delta_x] computes for a halved step does not
    depend on the Lagrange multipliers: the branch for a multiplier
    that is zero adds the same term as the general case.  Every
    equality constraint adds the magnitude of its value, and every
    inequality constraint does unless its value is positive. *)
Theorem halved_penalty_ignores_multipliers (n_cstr n_ineq_cstr : nat) (f1 : float)
  (l l' g1 : vec) :
  Canonical.halved_penalty n_cstr n_ineq_cstr f1 l g1
  = Canonical.halved_penalty n_cstr n_ineq_cstr f1 l' g1
  /\ Canonical.halved_penalty n_cstr n_ineq_cstr f1 l g1
     = fold_left
         (fun P1 i =>
            if ((i <? n_ineq_cstr)%nat && (0 <? nth i g1 0))%float
            then P1 else (P1 + abs (nth i g1 0))%float)
         (seq 0 n_cstr) f1.
Proof.
  assert (Hl : forall m,
            Canonical.halved_penalty n_cstr n_ineq_cstr f1 m g1
            = fold_left
                (fun P1 i =>
                   if ((i <? n_ineq_cstr)%nat && (0 <? nth i g1 0))%float
                   then P1 else (P1 + abs (nth i g1 0))%float)
                (seq 0 n_cstr) f1).
  { intros m. unfold Canonical.halved_penalty.
    generalize (seq 0 n_cstr) as idx. intros idx. generalize f1 as acc.
    induction idx as [|i idx IH]; intros acc; cbn [fold_left]; [reflexivity|].
    rewrite IH. f_equal.
    destruct (i <? n_ineq_cstr)%nat; cbn [andb]; [|reflexivity].
    destruct (0 <? nth i g1 0)%float; [reflexivity|].
    destruct ((nth i m 0 =? 0) && (nth i g1 0 <? 0))%float; reflexivity. }
  split; [now rewrite (Hl l), (Hl l') | apply Hl].
Qed.

(** ** Feasibility along the line search of the GRG driver *)

Lemma map_nth_seq_self (l : vec) :
  map (fun i => nth i l 0%float) (seq 0 (List.length l)) = l.
Proof.
  apply nth_ext with (d := 0%float) (d' := 0%float).
  - now rewrite length_map, length_seq.
  - intros n Hn. rewrite length_map, length_seq in Hn.
    rewrite (nth_indep _ 0%float (nth 0 l 0%float)) by (now rewrite length_map, length_seq).
    rewrite (map_nth (fun i => nth i l 0%float) (seq 0 (List.length l)) 0%nat n).
    now rewrite seq_nth.
Qed.

(** The first column of the transposed array of samples is the first
    sample. *)
Lemma array_T_first_column (p : vec) (rest : list vec) :
  Np.column (Np.array_T (p :: rest)) 0 = p.
Proof.
  unfold Np.array_T, Np.transpose, Np.column. cbn [hd].
  rewrite map_map. cbn [map nth].
  apply map_nth_seq_self.
Qed.

Section GrgFeasible.

Variable task :
  Objective -> list Constraint -> vec -> vec -> float -> vec -> matrix -> matrix ->
  list nat -> list nat -> nat -> nat -> list bool -> Settings ->
  M (option (vec * float * vec)).
Variable f : Objective.
Variable g : list Constraint.
Variable settings : Settings.
Variables s z0 y0 : vec.
Variables z_ind0 y_ind0 : list nat.
Variable f0 : float.
Variable g0 : vec.
Variable cstr_b : list bool.
Variables d_psi_d_z0 d_psi_d_y0 : matrix.
Variables n_vars n_binding : nat.

Hypothesis Hstart : Canonical.infeasible settings g0 = false.

Lemma step_back_feasible (gs_T : matrix) (min_ind : nat) :
  Np.column gs_T 0 = g0 ->
  Canonical.infeasible settings
    (Np.column gs_T (Canonical.step_back settings gs_T min_ind)) = false.
Proof.
  intros H0. induction min_ind as [|k IH]; cbn [Canonical.step_back].
  - now rewrite H0.
  - destruct (Canonical.infeasible settings (Np.column gs_T (S k))) eqn:E;
      [exact IH | exact E].
Qed.

Lemma grg_attempt_first_sample (alpha : float) (w w' : trace)
  (a : Canonical.grg_samples) (count : nat) :
  Canonical.grg_attempt task f g settings s z0 y0 z_ind0 y_ind0 f0 g0 cstr_b
    d_psi_d_z0 d_psi_d_y0 n_vars n_binding alpha w = (Ok (a, count), w') ->
  Np.column (Canonical.gs_T a) 0 = g0.
Proof.
  unfold Canonical.grg_attempt. intros H. split_run H.
  injection H as <- _ _. cbn [Canonical.gs_T].
  apply array_T_first_column.
Qed.

Lemma grg_alpha_loop_feasible (fuel : nat) (alpha : float)
  (last : option Canonical.grg_samples) (w w' : trace)
  (r : vec * float * vec * Z) :
  (forall smp, last = Some smp -> Np.column (Canonical.gs_T smp) 0 = g0) ->
  Canonical.grg_alpha_loop task f g settings s z0 y0 z_ind0 y_ind0 f0 g0 cstr_b
    d_psi_d_z0 d_psi_d_y0 n_vars n_binding fuel alpha last w = (Ok r, w') ->
  Canonical.infeasible settings (snd (fst r)) = false.
Proof.
  revert alpha last w.
  induction fuel as [|fuel IH]; intros alpha last w Hlast H; [discriminate|].
  cbn [Canonical.grg_alpha_loop] in H.
  destruct (termination_tol settings <? alpha)%float.
  - split_run H. split_run H.
    match type of Hm0 with
    | _ = (Ok ?p, _) => destruct p as [smp count]
    end.
    pose proof (grg_attempt_first_sample _ _ Hm0) as Hfirst.
    assert (Hnext : forall smp', Some smp = Some smp' ->
                      Np.column (Canonical.gs_T smp') 0 = g0)
      by (intros smp' [= <-]; exact Hfirst).
    destruct (count =? 1)%nat.
    + split_run H. exact (IH _ _ _ Hnext H).
    + split_run H.
      pose proof (step_back_feasible (Canonical.gs_T smp) (Np.argmin (Canonical.fs smp))
                    Hfirst) as Hback.
      set (k := Canonical.step_back settings (Canonical.gs_T smp)
                  (Np.argmin (Canonical.fs smp))) in *.
      rewrite Hback in H. rewrite andb_false_r in H.
      match type of H with
      | (if ?c then _ else _) _ = _ => destruct c
      end; [split_run H; exact (IH _ _ _ Hnext H)|].
      match type of H with
      | (if ?c then _ else _) _ = _ => destruct c
      end; [split_run H; exact (IH _ _ _ Hnext H)|].
      injection H as <- _. cbn [fst snd]. exact Hback.
  - split_run H. destruct last as [smp|]; [|discriminate].
    injection Hm as <- _.
    specialize (Hlast _ eq_refl).
    destruct (List.length (Canonical.xs_T smp) =? 1)%nat;
      injection H as <- _; cbn [fst snd]; now rewrite Hlast.
Qed.

(** X22: the line search of the GRG driver from a starting point whose
    constraint values pass its feasibility test (no inequality
    constraint below [-cstr_tol], no equality constraint off by more
    than [cstr_tol]): the constraint values of the point it returns
    pass the test too, whatever the trial points are, so the driver
    never steps from a point that passes the test to one that fails
    it. *)
Theorem grg_line_search_keeps_feasible (fuel : nat) (alpha : float) (w w' : trace)
  (r : vec * float * vec * Z) :
  Canonical._grg_line_search task f g settings s z0 y0 z_ind0 y_ind0 f0 g0 cstr_b
    d_psi_d_z0 d_psi_d_y0 n_vars n_binding fuel alpha w = (Ok r, w') ->
  Canonical.infeasible settings (snd (fst r)) = false.
Proof.
  unfold Canonical._grg_line_search. intros H. split_run H.
  apply grg_alpha_loop_feasible in H; [exact H | discriminate].
Qed.

End GrgFeasible.

(** The line search on [sqrt(x[0]) + x[1]] from (0, 0) under a
    constraint of value 10 at the start. *)
Lemma grg_line_search_keeps_feasible_witness :
  match fst (Canonical._grg_line_search warning_task
               {| o_fun := root_plus; o_grad := None; o_born := 0 |}
               [Legacy.Constraint_ (far_constraint 1)]
               (set_counts 1 1 grg_settings)
               [(-1)%float; 0%float] [0%float; 0%float] [] [0; 1]%nat [] 0%float
               [10%float] [false] [] [] 2 0 40 1%float []) with
  | Ok r => Canonical.infeasible (set_counts 1 1 grg_settings) (snd (fst r)) = false
  | _ => False
  end.
Proof.
  destruct (Canonical._grg_line_search warning_task
              {| o_fun := root_plus; o_grad := None; o_born := 0 |}
              [Legacy.Constraint_ (far_constraint 1)]
              (set_counts 1 1 grg_settings)
              [(-1)%float; 0%float] [0%float; 0%float] [] [0; 1]%nat [] 0%float
              [10%float] [false] [] [] 2 0 40 1%float []) as [[r| |] w'] eqn:E.
  - refine (@grg_line_search_keeps_feasible warning_task _ _ _ _ _ _ _ _ _ _ _ _ _
              _ _ _ _ _ _ _ _ E).
    vm_compute. reflexivity.
  - vm_compute in E. discriminate.
  - vm_compute in E. discriminate.
Defined.
